(** * A shallow embedding of the spreadsheet engine

    The development follows the C++ sources:
    - [design/sheet.h]: [IndexedStorage], [SheetStorage] and the [Sheet] class;
    - [spreadsheet/cell.cpp]: [Cell::Set], [Cell::GetValue], [Cell::InvalidateCache];
    - [spreadsheet/formula.cpp]: [Formula::GetReferencedCells];
    - [spreadsheet/sheet.cpp]: [Sheet::SetCell], [Sheet::ClearCell],
      [Sheet::UpdateRefs], [Sheet::IsCircularReference], [Sheet::InvalidateCache].

    Mutable objects are modelled by explicit state passing.  A C++ call
    either returns, throws (the state reached so far survives the throw),
    trips an [assert], runs into undefined behaviour, or -- for the two
    work-list loops, which are given a computed iteration budget -- exceeds
    that budget. *)

From Stdlib Require Import ZArith Lia Ascii String.
From stdpp Require Import base gmap sets list strings sorting.

Local Open Scope Z_scope.

(** ** Outcomes and the state monad *)

Inductive Exn : Type :=
| InvalidPositionException
| FormulaException
| CircularDependencyException
| invalid_argument.

Inductive outcome (A : Type) : Type :=
| Ok (a : A)
| Throw (e : Exn)
| Abort
| Undefined
| OutOfFuel.

Arguments Ok {A} a.
Arguments Throw {A} e.
Arguments Abort {A}.
Arguments Undefined {A}.
Arguments OutOfFuel {A}.

Definition M (S A : Type) : Type := S -> outcome A * S.

Definition ret {S A} (a : A) : M S A := fun s => (Ok a, s).

Definition bind {S A B} (m : M S A) (k : A -> M S B) : M S B :=
  fun s =>
    match m s with
    | (Ok a, s') => k a s'
    | (Throw e, s') => (Throw e, s')
    | (Abort, s') => (Abort, s')
    | (Undefined, s') => (Undefined, s')
    | (OutOfFuel, s') => (OutOfFuel, s')
    end.

Definition throw {S A} (e : Exn) : M S A := fun s => (Throw e, s).
Definition undefined {S A} : M S A := fun s => (Undefined, s).
Definition get_state {S} : M S S := fun s => (Ok s, s).
Definition put_state {S} (s : S) : M S unit := fun _ => (Ok tt, s).
Definition modify_state {S} (f : S -> S) : M S unit := fun s => (Ok tt, f s).

Declare Scope monad_scope.
Delimit Scope monad_scope with monad.
Notation "x <- m ;; k" := (bind m (fun x => k))
  (at level 100, m at next level, right associativity) : monad_scope.
Notation "m ;;; k" := (bind m (fun _ => k))
  (at level 100, right associativity) : monad_scope.
Local Open Scope monad_scope.

(** Running a computation on a component of a larger state. *)
Definition zoom {S1 S2 A} (proj : S2 -> S1) (upd : S1 -> S2 -> S2)
    (m : M S1 A) : M S2 A :=
  fun s => let '(r, s1) := m (proj s) in (r, upd s1 s).

(** A [for] loop over a container, in iteration order. *)
Fixpoint for_each {S A} (l : list A) (body : A -> M S unit) : M S unit :=
  match l with
  | [] => ret tt
  | x :: l' => body x ;;; for_each l' body
  end.

(** A [for] loop that updates a local variable. *)
Fixpoint for_each_acc {S A B} (l : list A) (acc : B) (body : A -> B -> M S B)
    : M S B :=
  match l with
  | [] => ret acc
  | x :: l' => acc' <- body x acc ;; for_each_acc l' acc' body
  end.

(** ** Positions ([common.h], known only through its uses) *)

Record Position : Type := mkPos { row : Z; col : Z }.

#[global] Instance Position_eq_dec : EqDecision Position.
Proof. solve_decision. Defined.

#[global] Instance Position_countable : Countable Position.
Proof.
  apply (inj_countable' (fun p => (row p, col p)) (fun rc => mkPos rc.1 rc.2)).
  by intros [].
Defined.

(** ** [IndexedStorage] ([design/sheet.h]) *)

(** [T{}], the value-initialised element that [unordered_map::operator[]]
    creates for a new key. *)
Class ValueInit (T : Type) : Type := value_init : T.

#[global] Instance unique_ptr_value_init {A} : ValueInit (option A) := None.

Record IndexedStorage (T : Type) : Type := mkIndexedStorage {
  data_ : gmap Z T;
  indices_ : list Z
}.
Arguments mkIndexedStorage {T} _ _.
Arguments data_ {T} _.
Arguments indices_ {T} _.

#[global] Instance IndexedStorage_value_init {T} : ValueInit (IndexedStorage T) :=
  mkIndexedStorage ∅ [].

(** [std::lower_bound] over the index vector: the offset of the first
    element that is not less than [index] (the vector is kept ascending). *)
Fixpoint lower_bound (l : list Z) (index : Z) : nat :=
  match l with
  | [] => 0%nat
  | x :: l' => if x <? index then S (lower_bound l' index) else 0%nat
  end.

(** [vector::insert(begin() + k, x)] and [vector::erase(begin() + k)]. *)
Definition vector_insert (k : nat) (x : Z) (l : list Z) : list Z :=
  take k l ++ x :: drop k l.
Definition vector_erase (k : nat) (l : list Z) : list Z :=
  take k l ++ drop (S k) l.

(** Modelled from the spec: [Position::IsValid] of [common.h], "row and
    column within [0, MAX)"; the two bounds are not given. *)
Definition IsValid (MAX_ROWS MAX_COLS : Z) (pos : Position) : bool :=
  bool_decide (0 <= row pos < MAX_ROWS) && bool_decide (0 <= col pos < MAX_COLS).

(** [CellInterface::Value], over the type of what a formula evaluates to
    ([FormulaInterface::Value]: a number or a [FormulaError]). *)
Inductive CellValue (FValue : Type) : Type :=
| CVString (s : string)
| CVFormula (v : FValue).
Arguments CVString {FValue} s.
Arguments CVFormula {FValue} v.

(** What [Formula::Evaluate] does with the [const SheetInterface&] it is
    given: it answers, or it first asks for a cell by [sheet.GetCell(p)]
    and, when the cell exists, for its [GetValue()]. *)
Inductive Evaluation (FValue : Type) : Type :=
| EvReturn (v : FValue)
| EvGetValue (p : Position) (k : option (CellValue FValue) -> Evaluation FValue).
Arguments EvReturn {FValue} v.
Arguments EvGetValue {FValue} p k.

(** * A small formula language for closed examples

    The parser and the syntax tree are not among the sources.  The examples
    below run the engine with sums of cell references and integer literals,
    a fragment of the formula language whose reading is not in doubt. *)

Module Sample.

Inductive Term : Type :=
| TCell (p : Position)
| TNum (n : Z).

Definition Formula : Type := list Term.

Inductive FormulaError : Type := Ref | Value | Div0.

Definition FValue : Type := (Z + FormulaError)%type.

Definition MAX_ROWS : Z := 16384.
Definition MAX_COLS : Z := 16384.

Definition is_upper (c : ascii) : bool :=
  (65 <=? nat_of_ascii c)%nat && (nat_of_ascii c <=? 90)%nat.
Definition is_digit (c : ascii) : bool :=
  (48 <=? nat_of_ascii c)%nat && (nat_of_ascii c <=? 57)%nat.

Fixpoint split_on (sep : ascii) (s : string) : list string :=
  match s with
  | EmptyString => [EmptyString]
  | String c s' =>
      if bool_decide (c = sep) then EmptyString :: split_on sep s'
      else match split_on sep s' with
           | tok :: toks => String c tok :: toks
           | [] => [String c EmptyString]
           end
  end.

(** Column letters, read in bijective base 26 ([A] is 1). *)
Fixpoint letters_value (s : string) (acc : Z) : Z * string :=
  match s with
  | String c s' =>
      if is_upper c then letters_value s' (acc * 26 + (Z.of_nat (nat_of_ascii c) - 64))
      else (acc, s)
  | EmptyString => (acc, s)
  end.

Fixpoint digits_value (s : string) (acc : Z) : option Z :=
  match s with
  | String c EmptyString =>
      if is_digit c then Some (acc * 10 + (Z.of_nat (nat_of_ascii c) - 48)) else None
  | String c s' =>
      if is_digit c then digits_value s' (acc * 10 + (Z.of_nat (nat_of_ascii c) - 48))
      else None
  | EmptyString => None
  end.

Definition parse_term (tok : string) : option Term :=
  let '(letters, rest) := letters_value tok 0 in
  if bool_decide (letters = 0) then TNum <$> digits_value tok 0
  else
    match digits_value rest 0 with
    | Some n =>
        let pos := mkPos (n - 1) (letters - 1) in
        if IsValid MAX_ROWS MAX_COLS pos then Some (TCell pos) else None
    | None => None
    end.

Definition ParseFormula (expression : string) : option Formula :=
  mapM parse_term (split_on "+"%char expression).

Definition GetReferencedCells (f : Formula) : list Position :=
  omap (fun t => match t with TCell p => Some p | TNum _ => None end) f.



Fixpoint Evaluate_from (f : Formula) (acc : Z) : Evaluation FValue :=
  match f with
  | [] => EvReturn (inl acc)
  | TNum n :: f' => Evaluate_from f' (acc + n)
  | TCell p :: f' =>
      EvGetValue p (fun v =>
        match v with
        | None => Evaluate_from f' acc
        | Some (CVString EmptyString) => Evaluate_from f' acc
        | Some (CVString str) =>
            match digits_value str 0 with
            | Some n => Evaluate_from f' (acc + n)
            | None => EvReturn (inr Value)
            end
        | Some (CVFormula (inl n)) => Evaluate_from f' (acc + n)
        | Some (CVFormula (inr e)) => EvReturn (inr e)
        end)
  end.

Definition Evaluate (f : Formula) : Evaluation FValue := Evaluate_from f 0.

End Sample.

(** Modelled from the spec: [struct Size] of [common.h]; a fresh [Size] is
    [{0, 0}] ("when the grid is empty, both dimensions are zero"). *)
Record Size : Type := mkSize { rows : Z; cols : Z }.

Record SheetStorage (T : Type) : Type := mkSheetStorage {
  rows_ : IndexedStorage (IndexedStorage T)
}.
Arguments mkSheetStorage {T} _.
Arguments rows_ {T} _.

Section Engine.

(** [NDEBUG] decides whether [assert] is compiled in. *)
Variable NDEBUG : bool.

Definition assert_ {S} (b : bool) : M S unit :=
  fun s => if NDEBUG || b then (Ok tt, s) else (Abort, s).

(** An [assert] that guards an operation which is undefined when the
    asserted condition fails. *)
Definition assert_defined {S} (b : bool) : M S unit :=
  fun s => if b then (Ok tt, s) else if NDEBUG then (Undefined, s) else (Abort, s).

Section IndexedStorage.
Context {T : Type} `{!ValueInit T}.

(** [T& operator[](Index)]: the reference it returns is modelled by the
    index, the value behind it is returned for reading. *)
Definition subscript (index : Z) : M (IndexedStorage T) T :=
  st <- get_state ;;
  match data_ st !! index with
  | Some v => ret v
  | None =>
      let indices_it := lower_bound (indices_ st) index in
      assert_ (bool_decide (indices_ st !! indices_it ≠ Some index)) ;;;
      put_state (mkIndexedStorage (<[index := value_init]> (data_ st))
                                  (vector_insert indices_it index (indices_ st))) ;;;
      ret value_init
  end.

(** [const T& operator[](Index) const] casts constness away and calls the
    overload above. *)
Definition subscript_const (index : Z) : M (IndexedStorage T) T :=
  subscript index.

(** [storage[index] = v]. *)
Definition subscript_assign (index : Z) (v : T) : M (IndexedStorage T) unit :=
  subscript index ;;;
  modify_state (fun st => mkIndexedStorage (<[index := v]> (data_ st)) (indices_ st)).

(** A member call through the reference [storage[index]]. *)
Definition subscript_with {A} (index : Z) (m : M T A) : M (IndexedStorage T) A :=
  v <- subscript index ;;
  fun st => let '(r, v') := m v in
            (r, mkIndexedStorage (<[index := v']> (data_ st)) (indices_ st)).

Definition At (index : Z) : M (IndexedStorage T) T :=
  st <- get_state ;;
  match data_ st !! index with
  | None => throw invalid_argument
  | Some v => ret v
  end.

(** [const T& At(Index) const] goes through [operator[]]. *)
Definition At_const (index : Z) : M (IndexedStorage T) T :=
  subscript index.

Definition Empty : M (IndexedStorage T) bool :=
  st <- get_state ;;
  assert_ (bool_decide (data_ st = ∅) && bool_decide (indices_ st = [])
           || negb (bool_decide (data_ st = ∅)) && negb (bool_decide (indices_ st = []))) ;;;
  ret (bool_decide (data_ st = ∅)).

Definition Count (st : IndexedStorage T) (index : Z) : Z :=
  match data_ st !! index with Some _ => 1 | None => 0 end.

Definition Erase (index : Z) : M (IndexedStorage T) unit :=
  st <- get_state ;;
  match data_ st !! index with
  | None => throw invalid_argument
  | Some _ =>
      let index_it := lower_bound (indices_ st) index in
      assert_defined (bool_decide (index_it < length (indices_ st))%nat) ;;;
      put_state (mkIndexedStorage (delete index (data_ st))
                                  (vector_erase index_it (indices_ st))) ;;;
      st' <- get_state ;;
      assert_ (bool_decide (size (data_ st') = length (indices_ st')))
  end.

Definition BackIndex : M (IndexedStorage T) Z :=
  st <- get_state ;;
  assert_defined (negb (bool_decide (indices_ st = []))) ;;;
  match last (indices_ st) with
  | Some i => ret i
  | None => undefined
  end.

End IndexedStorage.

(** A [const] member call on an object that is not part of the state. *)
Definition observe {S S' A} (m : M S A) (s : S) : M S' A :=
  fun s' => ((m s).1, s').

(** [int] addition; signed overflow is undefined. *)
Definition int_add {S} (a b : Z) : M S Z :=
  if bool_decide (- 2 ^ 31 <= a + b < 2 ^ 31) then ret (a + b) else undefined.

(** ** [SheetStorage] ([design/sheet.h]) *)

(** The bounds of [common.h], which is not among the sources. *)
Variables MAX_ROWS MAX_COLS : Z.

Section SheetStorage.
Context {T : Type} `{!ValueInit T}.

Definition on_rows {A} (m : M (IndexedStorage (IndexedStorage T)) A)
    : M (SheetStorage T) A :=
  zoom rows_ (fun r _ => mkSheetStorage r) m.

Definition CheckValid {S} (pos : Position) : M S unit :=
  if IsValid MAX_ROWS MAX_COLS pos then ret tt else throw InvalidPositionException.

Definition Set_ (pos : Position) (data : T) : M (SheetStorage T) unit :=
  CheckValid pos ;;;
  on_rows (subscript_with (row pos) (subscript_assign (col pos) data)).

Definition Get (pos : Position) : M (SheetStorage T) (option T) :=
  CheckValid pos ;;;
  on_rows (
    rs <- get_state ;;
    if bool_decide (Count rs (row pos) = 0) then ret None
    else
      subscript_with (row pos) (
        cells_row <- get_state ;;
        if bool_decide (Count cells_row (col pos) = 0) then ret None
        else v <- subscript_const (col pos) ;; ret (Some v))).

Definition Clear (pos : Position) : M (SheetStorage T) unit :=
  CheckValid pos ;;;
  on_rows (
    rs <- get_state ;;
    if bool_decide (Count rs (row pos) > 0) then
      row_empty <- subscript_with (row pos) (
        r <- get_state ;;
        if bool_decide (Count r (col pos) > 0) then
          Erase (col pos) ;;; Empty
        else ret false) ;;
      if row_empty then Erase (row pos) else ret tt
    else ret tt).

(** The range-[for] over [rows_]: the iterator walks [indices_] and
    dereferences by [data_.find], under an [assert] that the key is there. *)
Fixpoint printable_cols (rs : IndexedStorage (IndexedStorage T)) (its : list Z)
    (size_cols : Z) : M (SheetStorage T) Z :=
  match its with
  | [] => ret size_cols
  | i :: its' =>
      match data_ rs !! i with
      | None => assert_defined false ;;; undefined
      | Some r =>
          e <- observe Empty r ;;
          if negb e then
            b <- observe BackIndex r ;;
            cols <- int_add b 1 ;;
            printable_cols rs its' (Z.max size_cols cols)
          else printable_cols rs its' size_cols
      end
  end.

Definition GetPrintableSize : M (SheetStorage T) Size :=
  st <- get_state ;;
  e <- observe Empty (rows_ st) ;;
  if negb e then
    b <- observe BackIndex (rows_ st) ;;
    size_rows <- int_add b 1 ;;
    size_cols <- printable_cols (rows_ st) (indices_ (rows_ st)) 0 ;;
    ret (mkSize size_rows size_cols)
  else ret (mkSize 0 0).

End SheetStorage.

(** ** The formula boundary ([formula.h], [FormulaAST.h]: not among the sources)

    A parsed formula is a black box.  It is known by the positions it
    mentions and by what its evaluation does: [Formula::Evaluate] receives
    the sheet as a [const SheetInterface&], so all it can do before it
    answers is to ask for the values of cells. *)

Variable Formula : Type.
Variable FValue : Type.   (* FormulaInterface::Value: a number or a FormulaError *)

(** [ParseFormula]: [None] stands for the [FormulaException] of a rejected
    expression. *)
Variable ParseFormula : string -> option Formula.
Variable Formula_GetReferencedCells : Formula -> list Position.
Variable Formula_Evaluate : Formula -> Evaluation FValue.
Variable Formula_GetExpression : Formula -> string.

(** ** [Cell] ([spreadsheet/cell.h], [spreadsheet/cell.cpp]) *)

Inductive ValueImpl : Type :=
| monostate
| Text (str : string)
| FormulaValueImpl (formula : Formula).

Record Cell : Type := mkCell {
  value_ : ValueImpl;
  cache_ : option FValue     (* [None] is the [monostate] alternative *)
}.

Definition FORMULA_SIGN : ascii := "="%char.
Definition ESCAPE_SIGN : ascii := "'"%char.

(** [Cell::Cell(Sheet&)]. *)
Definition Cell_new : Cell := mkCell monostate None.

Definition Cell_Clear : M Cell unit :=
  put_state (mkCell monostate None).

Definition Cell_Set (text : string) : M Cell unit :=
  match text with
  | EmptyString => Cell_Clear
  | String front expression =>
      if bool_decide (1 < String.length text)%nat && bool_decide (front = FORMULA_SIGN) then
        match ParseFormula expression with
        | Some f => modify_state (fun c => mkCell (FormulaValueImpl f) (cache_ c))
        | None => throw FormulaException
        end
      else modify_state (fun c => mkCell (Text text) (cache_ c))
  end.

Definition Cell_GetReferencedCells (c : Cell) : list Position :=
  match value_ c with
  | FormulaValueImpl f => Formula_GetReferencedCells f
  | _ => []
  end.

Definition Cell_InvalidateCache (c : Cell) : Cell :=
  mkCell (value_ c) None.

(** ** [Sheet] ([design/sheet.h], [spreadsheet/sheet.cpp]) *)

(** [CellPtr], that is [std::unique_ptr<CellInterface>], is [option Cell];
    [None] is the null pointer. *)
Record Sheet : Type := mkSheet {
  cells_ : SheetStorage (option Cell);
  refs_from_ : gmap Position (gset Position)
}.

Definition Sheet_new : Sheet := mkSheet (mkSheetStorage value_init) ∅.

Definition on_cells {A} (m : M (SheetStorage (option Cell)) A) : M Sheet A :=
  zoom cells_ (fun c s => mkSheet c (refs_from_ s)) m.

Definition GetCellImpl (pos : Position) : M Sheet (option Cell) :=
  cell_ptr <- on_cells (Get pos) ;;
  match cell_ptr with
  | Some ptr => ret ptr
  | None => ret None
  end.

Definition GetCell (pos : Position) : M Sheet (option Cell) := GetCellImpl pos.

(** A write to the [Cell] object that [GetCellImpl(pos)] points to. *)
Definition write_cell (pos : Position) (f : Cell -> Cell) (s : Sheet) : Sheet :=
  let rs := rows_ (cells_ s) in
  mkSheet
    (mkSheetStorage
       (mkIndexedStorage
          (alter (fun r => mkIndexedStorage (alter (fmap f) (col pos) (data_ r)) (indices_ r))
                 (row pos) (data_ rs))
          (indices_ rs)))
    (refs_from_ s).

(** The adjacency set of [v] in [refs_from_], empty when [find] fails. *)
Definition refs_to (g : gmap Position (gset Position)) (v : Position) : gset Position :=
  match g !! v with Some s => s | None => ∅ end.

Definition edge (g : gmap Position (gset Position)) (v w : Position) : Prop :=
  w ∈ refs_to g v.

(** Every position that occurs in some adjacency set. *)
Definition referrers (g : gmap Position (gset Position)) : gset Position :=
  ⋃ (map_to_list g).*2.

Definition max_degree (g : gmap Position (gset Position)) : nat :=
  max_list (size <$> (map_to_list g).*2).

(** *** [Sheet::IsCircularReference] *)

(** One run of the inner [for]: the neighbours pushed on the stack. *)
Definition push_unless_deleted (pos v : Position) (refs_del : gset Position)
    (queue : list Position) (adj : list Position) : list Position :=
  foldl (fun q refs_to_v =>
           if bool_decide (refs_to_v = pos) && bool_decide (v ∈ refs_del)
           then q else refs_to_v :: q) queue adj.

(** The [while] loop; the head of the list is the back of the vector. *)
Fixpoint IsCircularReference_loop (fuel : nat) (g : gmap Position (gset Position))
    (pos : Position) (refs_del : gset Position)
    (discovered : gset Position) (queue : list Position) : outcome bool :=
  match fuel with
  | O => OutOfFuel
  | S fuel' =>
      match queue with
      | [] => Ok false
      | v :: queue' =>
          if bool_decide (v ∈ discovered) then Ok true
          else
            IsCircularReference_loop fuel' g pos refs_del ({[v]} ∪ discovered)
              (push_unless_deleted pos v refs_del queue' (elements (refs_to g v)))
      end
  end.

Definition IsCircularReference_fuel (g : gmap Position (gset Position))
    (pos ref_add : Position) : nat :=
  S (S (size ({[pos; ref_add]} ∪ referrers g))).

Definition IsCircularReference (pos ref_add : Position) (refs_del : gset Position)
    : M Sheet bool :=
  s <- get_state ;;
  let g := refs_from_ s in
  assert_ (bool_decide (pos ∉ refs_del)) ;;;
  assert_ (bool_decide (ref_add ∉ refs_del)) ;;;
  assert_ (bool_decide (pos ∉ refs_to g ref_add)) ;;;
  fun s' => (IsCircularReference_loop (IsCircularReference_fuel g pos ref_add)
               g pos refs_del ∅ [ref_add; pos], s').

(** *** [Sheet::UpdateRefs] *)

Definition has_ref (g : gmap Position (gset Position)) (ref pos : Position) : bool :=
  bool_decide (pos ∈ refs_to g ref).

(** [refs_from_[ref_add].insert(pos)]. *)
Definition add_ref (pos ref_add : Position) (g : gmap Position (gset Position))
    : gmap Position (gset Position) :=
  <[ref_add := {[pos]} ∪ refs_to g ref_add]> g.

Definition UpdateRefs (pos : Position) (old_refs new_refs : gset Position)
    : M Sheet unit :=
  s <- get_state ;;
  let g := refs_from_ s in
  refs_add <- for_each_acc (elements new_refs) (∅ : gset Position) (fun new_ref refs_add =>
    if bool_decide (new_ref ∉ old_refs)
    then assert_ (negb (has_ref g new_ref pos)) ;;; ret ({[new_ref]} ∪ refs_add)
    else assert_ (has_ref g new_ref pos) ;;; ret refs_add) ;;
  refs_del <- for_each_acc (elements old_refs) (∅ : gset Position) (fun old_ref refs_del =>
    if bool_decide (old_ref ∉ new_refs)
    then assert_ (has_ref g old_ref pos) ;;; ret ({[old_ref]} ∪ refs_del)
    else assert_ (negb (has_ref g old_ref pos)) ;;; ret refs_del) ;;
  for_each (elements refs_add) (fun ref_add =>
    c <- IsCircularReference pos ref_add refs_del ;;
    if c then throw CircularDependencyException else ret tt) ;;;
  for_each (elements refs_add) (fun ref_add =>
    modify_state (fun s => mkSheet (cells_ s) (add_ref pos ref_add (refs_from_ s)))) ;;;
  for_each (elements refs_del) (fun ref_del =>
    s <- get_state ;;
    match refs_from_ s !! ref_del with
    | None => assert_defined false
    | Some refs =>
        assert_ (bool_decide (pos ∈ refs)) ;;;
        let refs' := refs ∖ {[pos]} in
        if bool_decide (size refs' = 0%nat)
        then put_state (mkSheet (cells_ s) (delete ref_del (refs_from_ s)))
        else put_state (mkSheet (cells_ s) (<[ref_del := refs']> (refs_from_ s)))
    end).

(** *** [Sheet::InvalidateCache] *)

Definition push_undiscovered (discovered : gset Position)
    (queue : list Position) (adj : list Position) : list Position :=
  foldl (fun q refs_to_v =>
           if bool_decide (refs_to_v ∉ discovered) then refs_to_v :: q else q)
        queue adj.

Definition out_of_fuel {S A} : M S A := fun s => (OutOfFuel, s).

Fixpoint InvalidateCache_loop (fuel : nat) (discovered : gset Position)
    (queue : list Position) : M Sheet unit :=
  match fuel with
  | O => out_of_fuel
  | S fuel' =>
      match queue with
      | [] => ret tt
      | v :: queue' =>
          cell <- GetCellImpl v ;;
          match cell with
          | Some _ => modify_state (write_cell v Cell_InvalidateCache)
          | None => ret tt
          end ;;;
          let discovered' := {[v]} ∪ discovered in
          s <- get_state ;;
          InvalidateCache_loop fuel' discovered'
            (push_undiscovered discovered' queue' (elements (refs_to (refs_from_ s) v)))
      end
  end.

(** A bound on the number of iterations of the loop above: the weight of
    an undiscovered stack entry when [n] vertices are still undiscovered
    and no adjacency set has more than [d] elements. *)
Fixpoint work_undiscovered (d n : nat) : nat :=
  match n with
  | O => 1
  | S n' => S d * work_undiscovered d n' + 2
  end.

Definition work_discovered (d n : nat) : nat := S d * work_undiscovered d n + 1.

Definition InvalidateCache_fuel (g : gmap Position (gset Position)) (pos : Position)
    : nat :=
  S (work_undiscovered (max_degree g) (size ({[pos]} ∪ referrers g))).

Definition InvalidateCache (pos : Position) : M Sheet unit :=
  s <- get_state ;;
  InvalidateCache_loop (InvalidateCache_fuel (refs_from_ s) pos) ∅ [pos].

(** *** [Sheet::SetCell], [Sheet::ClearCell], [Sheet::GetPrintableSize] *)

(** [std::make_unique<Cell>] for this sheet, followed by [cell->Set(text)]. *)
Definition make_cell (text : string) : M Sheet Cell :=
  fun s => match Cell_Set text Cell_new with
           | (Ok _, cell) => (Ok cell, s)
           | (Throw e, _) => (Throw e, s)
           | (Abort, _) => (Abort, s)
           | (Undefined, _) => (Undefined, s)
           | (OutOfFuel, _) => (OutOfFuel, s)
           end.

(** [depth] bounds the nesting of [SetCell] inside [SetCell]. *)
Fixpoint SetCell_rec (depth : nat) (pos : Position) (text : string) : M Sheet unit :=
  match depth with
  | O => out_of_fuel
  | S depth' =>
      cell <- make_cell text ;;
      old_cell <- GetCell pos ;;
      let old_refs : gset Position :=
        match old_cell with
        | Some c => list_to_set (Cell_GetReferencedCells c)
        | None => ∅
        end in
      let new_refs : gset Position := list_to_set (Cell_GetReferencedCells cell) in
      UpdateRefs pos old_refs new_refs ;;;
      for_each (elements new_refs) (fun ref =>
        c <- GetCell ref ;;
        match c with
        | None => SetCell_rec depth' ref EmptyString
        | Some _ => ret tt
        end) ;;;
      on_cells (Set_ pos (Some cell)) ;;;
      InvalidateCache pos
  end.

(** The nested call is made with the empty text, whose cell references
    nothing: two levels are all that is ever entered. *)
Definition SetCell (pos : Position) (text : string) : M Sheet unit :=
  SetCell_rec 2 pos text.

Definition ClearCell (pos : Position) : M Sheet unit :=
  cell <- GetCellImpl pos ;;
  match cell with
  | Some c =>
      UpdateRefs pos (list_to_set (Cell_GetReferencedCells c)) ∅ ;;;
      on_cells (Clear pos)
  | None => ret tt
  end.

Definition Sheet_GetPrintableSize : M Sheet Size :=
  on_cells GetPrintableSize.

(** *** [Cell::GetValue]

    [fuel] bounds the depth of the calls of [GetValue] that the evaluation
    of a formula makes, through the sheet, on the cells it mentions. *)

Fixpoint run_evaluation (get_value : Position -> M Sheet (option (CellValue FValue)))
    (e : Evaluation FValue) : M Sheet FValue :=
  match e with
  | EvReturn v => ret v
  | EvGetValue p k => v <- get_value p ;; run_evaluation get_value (k v)
  end.

Definition Text_value (str : string) : string :=
  match str with
  | String front rest => if bool_decide (front = ESCAPE_SIGN) then rest else str
  | EmptyString => str
  end.

Definition Cell_set_cache (val : FValue) (c : Cell) : Cell :=
  mkCell (value_ c) (Some val).

(** [sheet.GetCell(p)] and, when the cell exists, its [GetValue()]. *)
Definition sheet_value (get_value : Position -> Cell -> M Sheet (CellValue FValue))
    (p : Position) : M Sheet (option (CellValue FValue)) :=
  cell <- GetCell p ;;
  match cell with
  | None => ret None
  | Some c => v <- get_value p c ;; ret (Some v)
  end.

(** [Cell::GetValue] on the cell object [c] that is stored at [pos]. *)
Fixpoint Cell_GetValue (fuel : nat) (pos : Position) (c : Cell)
    : M Sheet (CellValue FValue) :=
  match value_ c with
  | monostate => ret (CVString EmptyString)
  | Text str => ret (CVString (Text_value str))
  | FormulaValueImpl f =>
      match cache_ c with
      | Some v => ret (CVFormula v)
      | None =>
          match fuel with
          | O => out_of_fuel
          | S fuel' =>
              val <- run_evaluation (sheet_value (Cell_GetValue fuel'))
                       (Formula_Evaluate f) ;;
              modify_state (write_cell pos (Cell_set_cache val)) ;;;
              ret (CVFormula val)
          end
      end
  end.

Definition GetValue (fuel : nat) (pos : Position)
    : M Sheet (option (CellValue FValue)) :=
  sheet_value (Cell_GetValue fuel) pos.

(** [Cell::GetText]. *)
Definition Cell_GetText (c : Cell) : string :=
  match value_ c with
  | monostate => EmptyString
  | Text str => str
  | FormulaValueImpl f => String FORMULA_SIGN (Formula_GetExpression f)
  end.

(** *** [Sheet::Print]

    The stream is represented by what is written to it: one list per row
    of the printable box, with [None] where no cell is stored. *)

Fixpoint for_each_collect {S A B} (l : list A) (body : A -> M S B) : M S (list B) :=
  match l with
  | [] => ret []
  | x :: l' => y <- body x ;; ys <- for_each_collect l' body ;; ret (y :: ys)
  end.

Definition Print {X} (printer : Position -> Cell -> M Sheet X)
    : M Sheet (list (list (option X))) :=
  size <- Sheet_GetPrintableSize ;;
  for_each_collect (seqZ 0 (rows size)) (fun row =>
    for_each_collect (seqZ 0 (cols size)) (fun col =>
      cell <- on_cells (Get (mkPos row col)) ;;
      match cell with
      | None => ret None
      | Some None => undefined
      | Some (Some c) => x <- printer (mkPos row col) c ;; ret (Some x)
      end)).

Definition PrintValues (fuel : nat) : M Sheet (list (list (option (CellValue FValue)))) :=
  Print (Cell_GetValue fuel).

Definition PrintTexts : M Sheet (list (list (option string))) :=
  Print (fun _ c => ret (Cell_GetText c)).

(** ** The other members of [IndexedStorage] and [SheetStorage] ([design/sheet.h]) *)

Section StorageMembers.
Context {T : Type} `{!ValueInit T}.

(** The conversion of a [size_t] to [Index = int]: modulo 2^32. *)
Definition int_of_size (n : nat) : Z :=
  (Z.of_nat n + 2 ^ 31) mod 2 ^ 32 - 2 ^ 31.

(** [Index Size() const noexcept]. *)
Definition IndexedStorage_Size : M (IndexedStorage T) Z :=
  st <- get_state ;;
  assert_ (bool_decide (size (data_ st) = length (indices_ st))) ;;;
  ret (int_of_size (size (data_ st))).

(** [void Clear() noexcept]. *)
Definition IndexedStorage_Clear : M (IndexedStorage T) unit :=
  put_state (mkIndexedStorage ∅ []).

Definition FrontIndex : M (IndexedStorage T) Z :=
  st <- get_state ;;
  assert_defined (negb (bool_decide (indices_ st = []))) ;;;
  match head (indices_ st) with
  | Some i => ret i
  | None => undefined
  end.

(** An iterator holds a position in [indices_], kept here as the offset
    from [indices_.begin()]; [begin()] is the offset 0 and [end()] the
    length of the vector. *)
Definition begin_ (st : IndexedStorage T) : nat := 0.
Definition end_ (st : IndexedStorage T) : nat := length (indices_ st).

(** The dereference operator of [IteratorBase]: [data_.find] of the index
    the iterator points at, under an [assert] that the key is found.
    Dereferencing [end()] is undefined. *)
Definition Iterator_deref (it : nat) : M (IndexedStorage T) (Z * T) :=
  st <- get_state ;;
  match indices_ st !! it with
  | None => undefined
  | Some i =>
      match data_ st !! i with
      | Some v => ret (i, v)
      | None => assert_defined false ;;; undefined
      end
  end.

(** The loop [for (it = first; it != end(); ++it)] whose body is run on
    the element that [it] points at, with what the body answers collected;
    [steps] is the distance from [first] to [end()]. *)
Fixpoint iterate {A} (steps : nat) (it : nat) (body : Z * T -> M (IndexedStorage T) A)
    : M (IndexedStorage T) (list A) :=
  match steps with
  | O => ret []
  | S steps' =>
      e <- Iterator_deref it ;;
      x <- body e ;;
      xs <- iterate steps' (S it) body ;;
      ret (x :: xs)
  end.

(** The range-[for] over a storage. *)
Definition range_for {A} (body : Z * T -> M (IndexedStorage T) A)
    : M (IndexedStorage T) (list A) :=
  st <- get_state ;;
  iterate (end_ st - begin_ st) (begin_ st) body.

End StorageMembers.

(** [SheetStorage::Clear()], the overload without a position. *)
Definition Clear_all {T} : M (SheetStorage T) unit :=
  on_rows IndexedStorage_Clear.

(** ** [Formula::GetReferencedCells] ([spreadsheet/formula.cpp])

    [std::unique_copy] into an empty vector: the first element is copied,
    and then every element that differs from the one copied last. *)
Fixpoint unique_copy_after (last_copied : Position) (rest : list Position)
    : list Position :=
  match rest with
  | [] => []
  | y :: rest' =>
      if decide (last_copied = y) then unique_copy_after last_copied rest'
      else y :: unique_copy_after y rest'
  end.

Definition unique_copy (cells : list Position) : list Position :=
  match cells with
  | [] => []
  | x :: rest => x :: unique_copy_after x rest
  end.

(** [Formula::GetReferencedCells], over the cells that the syntax tree
    lists ([ast_.GetCells()]). *)
Definition Formula_GetReferencedCells_of (cells : list Position) : list Position :=
  unique_copy cells.

(** * Properties *)

(** ** The index vector *)

Lemma lower_bound_split (l : list Z) (index : Z) :
  StronglySorted Z.lt l ->
  Forall (fun x => x < index) (take (lower_bound l index) l) /\
  Forall (fun x => index <= x) (drop (lower_bound l index) l).
Proof.
  induction l as [|x l IH]; intros Hs; simpl.
  - split; constructor.
  - apply StronglySorted_cons in Hs as [Hx Hs].
    destruct (x <? index) eqn:E; simpl.
    + apply Z.ltb_lt in E. destruct (IH Hs) as [H1 H2]. split; [by constructor|done].
    + apply Z.ltb_ge in E. split; [constructor|].
      constructor; [done|]. eapply Forall_impl; [exact Hx|]. simpl. lia.
Qed.

Lemma lower_bound_le_length (l : list Z) (index : Z) :
  (lower_bound l index <= length l)%nat.
Proof. induction l as [|x l IH]; simpl; [lia|]. destruct (x <? index); simpl; lia. Qed.

Lemma elem_of_vector_insert (k : nat) (x y : Z) (l : list Z) :
  y ∈ vector_insert k x l <-> y = x \/ y ∈ l.
Proof.
  unfold vector_insert. rewrite elem_of_app, elem_of_cons.
  rewrite <- (take_drop k l) at 3. rewrite elem_of_app. tauto.
Qed.

Lemma vector_insert_sorted (l : list Z) (index : Z) :
  StronglySorted Z.lt l -> index ∉ l ->
  StronglySorted Z.lt (vector_insert (lower_bound l index) index l).
Proof.
  intros Hs Hni. destruct (lower_bound_split l index Hs) as [H1 H2].
  rewrite Forall_forall in H1, H2.
  pose proof Hs as Hs'. rewrite <- (take_drop (lower_bound l index) l) in Hs'.
  apply StronglySorted_app in Hs' as (H12 & Ht & Hd).
  assert (Hgt : forall y, y ∈ drop (lower_bound l index) l -> index < y).
  { intros y Hy. pose proof (H2 y Hy).
    assert (y <> index); [|lia].
    intros ->. apply Hni. rewrite <- (take_drop (lower_bound l index) l).
    apply elem_of_app. by right. }
  unfold vector_insert. apply StronglySorted_app_2; [|done|].
  - intros x1 x2 Hx1 [->|Hx2]%elem_of_cons; [by apply H1|].
    pose proof (H1 x1 Hx1). pose proof (Hgt x2 Hx2). lia.
  - apply StronglySorted_cons. split; [|done]. by apply Forall_forall.
Qed.

Lemma lower_bound_found (l : list Z) (index : Z) :
  StronglySorted Z.lt l -> index ∈ l ->
  l !! lower_bound l index = Some index.
Proof.
  induction l as [|x l IH]; intros Hs Hin; simpl.
  - by apply elem_of_nil in Hin.
  - apply StronglySorted_cons in Hs as [Hx Hs]. rewrite Forall_forall in Hx.
    apply elem_of_cons in Hin as [->|Hin].
    + by rewrite Z.ltb_irrefl.
    + pose proof (Hx _ Hin). destruct (x <? index) eqn:E; [|apply Z.ltb_ge in E; lia].
      simpl. by apply IH.
Qed.

Lemma elem_of_vector_erase (l : list Z) (index y : Z) :
  StronglySorted Z.lt l -> index ∈ l ->
  y ∈ vector_erase (lower_bound l index) l <-> y ∈ l /\ y <> index.
Proof.
  intros Hs Hin. pose proof (lower_bound_found l index Hs Hin) as Hk.
  unfold vector_erase.
  pose proof (take_drop_middle l _ _ Hk) as Heq.
  set (t := take (lower_bound l index) l) in *.
  set (d := drop (S (lower_bound l index)) l) in *.
  rewrite <- Heq in Hs |- *.
  apply StronglySorted_app in Hs as (H12 & _ & [Hd _]%StronglySorted_cons).
  rewrite Forall_forall in Hd.
  rewrite !elem_of_app, elem_of_cons. split.
  - intros [Hy|Hy].
    + split; [by left|]. intros ->.
      assert (index < index); [|lia]. apply H12; [done|by left].
    + split; [by right; right|]. intros ->. specialize (Hd _ Hy). lia.
  - intros [[Hy|[->|Hy]] Hne]; [by left|done|by right].
Qed.

Lemma vector_erase_sorted (k : nat) (l : list Z) :
  StronglySorted Z.lt l -> StronglySorted Z.lt (vector_erase k l).
Proof.
  intros Hs. unfold vector_erase. destruct (l !! k) as [x|] eqn:Hk.
  - rewrite <- (take_drop_middle l _ _ Hk) in Hs.
    apply StronglySorted_app in Hs as (H12 & Ht & [_ Hd]%StronglySorted_cons).
    apply StronglySorted_app_2; [|done..].
    intros x1 x2 H1 H2. apply H12; [done|by right].
  - apply lookup_ge_None in Hk.
    rewrite take_ge, drop_ge, app_nil_r by lia. done.
Qed.

Lemma sorted_last_max (l : list Z) (m : Z) :
  StronglySorted Z.lt l -> last l = Some m ->
  m ∈ l /\ forall x, x ∈ l -> x <= m.
Proof.
  intros Hs Hl. apply last_Some in Hl as [l' ->].
  apply StronglySorted_app in Hs as (H12 & _ & _). split.
  - apply elem_of_app. right. by left.
  - intros x [Hx|Hx]%elem_of_app.
    + assert (x < m); [|lia]. apply H12; [done|by left].
    + apply elem_of_cons in Hx as [->|Hx]; [lia|by apply elem_of_nil in Hx].
Qed.


(** ** [IndexedStorage]: the two sides hold the same keys *)

Definition IndexedStorage_wf {T} (st : IndexedStorage T) : Prop :=
  StronglySorted Z.lt (indices_ st) /\
  forall i, i ∈ indices_ st <-> is_Some (data_ st !! i).

Ltac munfold :=
  unfold bind, ret, throw, get_state, put_state, modify_state, assert_,
    assert_defined, zoom, observe, undefined, out_of_fuel in *.

Lemma bind_eq {S A B} (m : M S A) (k : A -> M S B) (s : S) :
  bind m k s =
    match m s with
    | (Ok a, s') => k a s'
    | (Throw e, s') => (Throw e, s')
    | (Abort, s') => (Abort, s')
    | (Undefined, s') => (Undefined, s')
    | (OutOfFuel, s') => (OutOfFuel, s')
    end.
Proof. reflexivity. Qed.

Lemma assert_inv {S} (b : bool) (s : S) :
  assert_ b s = (Ok tt, s) \/
  (assert_ b s = (Abort, s) /\ NDEBUG = false /\ b = false).
Proof. unfold assert_. destruct NDEBUG, b; simpl; eauto. Qed.

Ltac massert :=
  rewrite bind_eq;
  match goal with
  | |- context [assert_ ?b ?s] =>
      destruct (assert_inv b s) as [->|(-> & ? & ?)]
  end.

Section IndexedStorageFacts.
Context {T : Type} `{!ValueInit T}.
Implicit Types st : IndexedStorage T.

Lemma IndexedStorage_wf_empty : IndexedStorage_wf (value_init : IndexedStorage T).
Proof.
  split; [constructor|]. intros i. cbn. rewrite lookup_empty. split.
  - by intros ?%elem_of_nil.
  - by intros [? ?].
Qed.

Lemma IndexedStorage_wf_size st :
  IndexedStorage_wf st -> size (data_ st) = length (indices_ st).
Proof.
  intros [Hs Hk].
  assert (Hnd : NoDup (indices_ st)).
  { clear Hk. induction Hs as [|x l Hs IH Hx]; constructor; [|done].
    rewrite Forall_forall in Hx. intros Hin. specialize (Hx _ Hin). lia. }
  rewrite <- size_dom.
  assert (dom (data_ st) = list_to_set (indices_ st)) as ->.
  { apply set_eq. intros i. rewrite elem_of_dom, elem_of_list_to_set. by rewrite Hk. }
  by rewrite size_list_to_set.
Qed.

Lemma IndexedStorage_wf_nil st :
  IndexedStorage_wf st -> (indices_ st = [] <-> data_ st = ∅).
Proof.
  intros [_ Hk]. split.
  - intros Hnil. apply map_eq. intros i. rewrite lookup_empty.
    destruct (data_ st !! i) eqn:E; [|done].
    assert (i ∈ indices_ st) as Hin by (apply Hk; eauto).
    rewrite Hnil in Hin. by apply elem_of_nil in Hin.
  - intros Hemp. destruct (indices_ st) as [|i l] eqn:E; [done|].
    assert (is_Some (data_ st !! i)) as [? Hi] by (apply Hk; by left).
    rewrite Hemp, lookup_empty in Hi. done.
Qed.

Lemma subscript_inv st index r st' :
  subscript index st = (r, st') ->
  (exists v, data_ st !! index = Some v /\ r = Ok v /\ st' = st) \/
  (data_ st !! index = None /\ r = Ok value_init /\
   st' = mkIndexedStorage (<[index := value_init]> (data_ st))
           (vector_insert (lower_bound (indices_ st) index) index (indices_ st))) \/
  (data_ st !! index = None /\ r = Abort /\ st' = st /\ NDEBUG = false /\
   indices_ st !! lower_bound (indices_ st) index = Some index).
Proof.
  unfold subscript. munfold. simpl.
  destruct (data_ st !! index) as [v|] eqn:E; simpl.
  - intros [= <- <-]. left. eauto.
  - destruct NDEBUG eqn:EN; simpl.
    + intros [= <- <-]. right. left. done.
    + case_bool_decide as Hb; simpl; intros [= <- <-].
      * right. left. done.
      * right. right. repeat split; try done.
Qed.

Lemma subscript_wf st index r st' :
  IndexedStorage_wf st -> subscript index st = (r, st') ->
  IndexedStorage_wf st' /\ exists v, r = Ok v /\ data_ st' !! index = Some v.
Proof.
  intros [Hs Hk] [(v & E & -> & ->)|[(E & -> & ->)|(E & -> & -> & _ & Hi)]]%subscript_inv.
  - split; [done|]. eauto.
  - assert (index ∉ indices_ st) as Hni.
    { rewrite Hk, E. by intros [? ?]. }
    split; [split|]; simpl.
    + by apply vector_insert_sorted.
    + intros i. rewrite elem_of_vector_insert, Hk.
      destruct (decide (i = index)) as [->|Hne].
      * rewrite lookup_insert_eq. split; eauto.
      * rewrite lookup_insert_ne by done. split; [intros [?|?]; done|by right].
    + exists value_init. by rewrite lookup_insert_eq.
  - exfalso. assert (index ∈ indices_ st) as Hin by (eapply list_elem_of_lookup_2; eauto).
    apply Hk in Hin as [? Hin]. congruence.
Qed.

Lemma Count_Some st index v : data_ st !! index = Some v -> Count st index = 1.
Proof. unfold Count. by intros ->. Qed.

Lemma Count_None st index : data_ st !! index = None -> Count st index = 0.
Proof. unfold Count. by intros ->. Qed.

Lemma subscript_found st index v :
  data_ st !! index = Some v -> subscript index st = (Ok v, st).
Proof. intros E. unfold subscript. munfold. simpl. by rewrite E. Qed.

Lemma Erase_inv st index r st' :
  Erase index st = (r, st') ->
  (data_ st !! index = None /\ r = Throw invalid_argument /\ st' = st) \/
  (is_Some (data_ st !! index) /\
   (r = Ok tt \/ r = Abort /\ NDEBUG = false) /\
   (lower_bound (indices_ st) index < length (indices_ st))%nat /\
   data_ st' = delete index (data_ st) /\
   indices_ st' = vector_erase (lower_bound (indices_ st) index) (indices_ st)) \/
  (is_Some (data_ st !! index) /\ (r = Undefined \/ r = Abort /\ NDEBUG = false) /\
   ~ (lower_bound (indices_ st) index < length (indices_ st))%nat).
Proof.
  unfold Erase. munfold. simpl.
  destruct (data_ st !! index) as [v|] eqn:E; simpl.
  - case_bool_decide as Hb; simpl.
    + destruct NDEBUG eqn:EN; simpl.
      * intros [= <- <-]. right. left. eauto 10.
      * case_bool_decide; simpl; intros [= <- <-]; right; left; eauto 10.
    + destruct NDEBUG eqn:EN; simpl; intros [= <- <-]; right; right; eauto 10.
  - intros [= <- <-]. by left.
Qed.

Lemma Erase_wf st index :
  IndexedStorage_wf st -> is_Some (data_ st !! index) ->
  exists st', Erase index st = (Ok tt, st') /\ IndexedStorage_wf st' /\
    data_ st' = delete index (data_ st).
Proof.
  intros Hwf Hsome. pose proof Hwf as [Hs Hk].
  assert (index ∈ indices_ st) as Hin by by apply Hk.
  pose proof (lower_bound_found _ _ Hs Hin) as Hlb.
  assert (IndexedStorage_wf
            (mkIndexedStorage (delete index (data_ st))
               (vector_erase (lower_bound (indices_ st) index) (indices_ st)))) as Hwf'.
  { split; simpl.
    - by apply vector_erase_sorted.
    - intros i. rewrite elem_of_vector_erase by done. rewrite Hk.
      destruct (decide (i = index)) as [->|Hne].
      + rewrite lookup_delete_eq. split; [by intros [_ ?]|by intros [? ?]].
      + rewrite lookup_delete_ne by done. tauto. }
  eexists. split; [|split; [exact Hwf'|done]].
  unfold Erase. munfold. simpl. destruct Hsome as [v ->]. simpl.
  rewrite bool_decide_true by (by eapply lookup_lt_Some). simpl.
  rewrite bool_decide_true by (by apply IndexedStorage_wf_size in Hwf').
  by rewrite orb_true_r.
Qed.

Lemma Empty_no_write st r st' : Empty st = (r, st') -> st' = st.
Proof.
  unfold Empty. munfold. simpl.
  by destruct (NDEBUG || _); intros [= _ <-].
Qed.

Lemma Empty_wf st :
  IndexedStorage_wf st -> Empty st = (Ok (bool_decide (data_ st = ∅)), st).
Proof.
  intros Hwf. apply IndexedStorage_wf_nil in Hwf.
  unfold Empty. munfold. simpl.
  assert (bool_decide (indices_ st = []) = bool_decide (data_ st = ∅)) as ->.
  { apply bool_decide_ext. done. }
  destruct (bool_decide (data_ st = ∅)); simpl; by rewrite orb_true_r.
Qed.

Lemma BackIndex_wf st :
  IndexedStorage_wf st -> data_ st <> ∅ ->
  exists i, BackIndex st = (Ok i, st) /\ is_Some (data_ st !! i) /\
    forall j, is_Some (data_ st !! j) -> j <= i.
Proof.
  intros Hwf Hne. pose proof Hwf as [Hs Hk].
  assert (indices_ st <> []) as Hnil by by rewrite IndexedStorage_wf_nil.
  destruct (last (indices_ st)) as [i|] eqn:El; [|by apply last_None in El].
  destruct (sorted_last_max _ _ Hs El) as [Hin Hmax].
  exists i. split; [|split].
  - unfold BackIndex. munfold. simpl. rewrite bool_decide_false by done. simpl.
    by rewrite El.
  - by apply Hk.
  - intros j Hj. apply Hmax. by apply Hk.
Qed.

(** X4. [At] on an absent index: the non-const overload throws and
    leaves the storage alone. *)
Lemma At_absent st index :
  data_ st !! index = None -> At index st = (Throw invalid_argument, st).
Proof. intros E. unfold At. rewrite bind_eq. cbn [get_state]. by rewrite E. Qed.

(** X28. The const overload goes through [operator[]]: on an index that
    is not stored it returns a value-initialised element and the storage
    now has an entry for the index. *)
Lemma At_const_absent st index :
  IndexedStorage_wf st -> data_ st !! index = None ->
  exists st', At_const index st = (Ok value_init, st') /\
              data_ st' !! index = Some value_init /\ st' <> st.
Proof.
  intros Hwf E. unfold At_const.
  destruct (subscript index st) as [r st'] eqn:Es.
  pose proof (subscript_wf _ _ _ _ Hwf Es) as (_ & v & -> & Hv).
  apply subscript_inv in Es as [(v' & E' & _)|[(_ & [= ->] & ->)|(_ & ? & _)]];
    [congruence| |done].
  eexists. split; [done|]. split; [done|]. intros Heq.
  rewrite Heq in Hv. congruence.
Qed.

End IndexedStorageFacts.


(** ** [SheetStorage]: what is stored where *)

(** The entry that [Get(pos)] finds, read off the two maps. *)
Definition lookup_cell {T} (st : SheetStorage T) (pos : Position) : option T :=
  match data_ (rows_ st) !! row pos with
  | Some r => data_ r !! col pos
  | None => None
  end.

(** Both levels are well formed and no empty row container is stored. *)
Definition SheetStorage_wf {T} (st : SheetStorage T) : Prop :=
  IndexedStorage_wf (rows_ st) /\
  forall i r, data_ (rows_ st) !! i = Some r -> IndexedStorage_wf r /\ data_ r <> ∅.

Definition stored_valid {T} (st : SheetStorage T) : Prop :=
  forall pos, is_Some (lookup_cell st pos) -> IsValid MAX_ROWS MAX_COLS pos = true.

Section SheetStorageFacts.
Context {T : Type} `{!ValueInit T}.
Implicit Types st : SheetStorage T.

Lemma subscript_with_found {U A} `{!ValueInit U} (s : IndexedStorage U) index v
    (m : M U A) :
  data_ s !! index = Some v ->
  subscript_with index m s =
    ((m v).1, mkIndexedStorage (<[index := (m v).2]> (data_ s)) (indices_ s)).
Proof.
  intros E. unfold subscript_with, bind. rewrite (subscript_found _ _ _ E).
  by destruct (m v).
Qed.

Lemma Get_eq st pos :
  Get pos st =
    (if IsValid MAX_ROWS MAX_COLS pos then Ok (lookup_cell st pos)
     else Throw InvalidPositionException, st).
Proof.
  unfold Get, CheckValid, on_rows, lookup_cell, Count.
  destruct (IsValid _ _ pos); [|done].
  destruct st as [rs]. munfold. simpl.
  destruct (data_ rs !! row pos) as [r|] eqn:Er; simpl; [|done].
  rewrite (subscript_with_found _ _ _ _ Er). munfold. simpl.
  destruct (data_ r !! col pos) as [v|] eqn:Ec; simpl.
  - unfold subscript_const. rewrite (subscript_found _ _ _ Ec). simpl.
    rewrite insert_id by done. by destruct rs.
  - rewrite insert_id by done. by destruct rs.
Qed.

Lemma Set_invalid st pos data :
  IsValid MAX_ROWS MAX_COLS pos = false ->
  Set_ pos data st = (Throw InvalidPositionException, st).
Proof. intros E. unfold Set_, CheckValid. rewrite E. done. Qed.

Lemma Set_inv st pos data r st' :
  IsValid MAX_ROWS MAX_COLS pos = true ->
  Set_ pos data st = (r, st') ->
  (r = Ok tt /\
   forall q, lookup_cell st' q = if decide (q = pos) then Some data else lookup_cell st q) \/
  (r = Abort /\ NDEBUG = false).
Proof.
  intros Hv. unfold Set_, CheckValid, on_rows. rewrite Hv.
  destruct st as [rs]. unfold zoom, bind at 1, ret. simpl.
  unfold subscript_with, bind at 1.
  destruct (subscript (row pos) rs) as [r1 rs1] eqn:E1.
  apply subscript_inv in E1 as [(v & E & -> & ->)|[(E & -> & ->)|(E & -> & -> & HN & _)]];
    [| |intros [= <- <-]; by right].
  - (* the row exists *)
    unfold subscript_assign, bind at 1.
    destruct (subscript (col pos) v) as [r2 v2] eqn:E2.
    apply subscript_inv in E2 as [(w & Ew & -> & ->)|[(Ew & -> & ->)|(Ew & -> & -> & HN & _)]];
      simpl; intros [= <- <-]; [left|left|by right]; (split; [done|]);
      intros q; unfold lookup_cell; simpl;
      (destruct (decide (q = pos)) as [->|Hne];
       [rewrite lookup_insert_eq; simpl; by rewrite lookup_insert_eq|]);
      (destruct (decide (row q = row pos)) as [Hr|Hr];
       [rewrite Hr, lookup_insert_eq, E; simpl;
        assert (col q <> col pos) by (destruct q, pos; simpl in *; congruence);
        by rewrite ?lookup_insert_ne by done
       |by rewrite lookup_insert_ne by done]).
  - (* a new row *)
    unfold subscript_assign, bind at 1.
    destruct (subscript (col pos) value_init) as [r2 v2] eqn:E2.
    apply subscript_inv in E2 as [(w & Ew & -> & ->)|[(Ew & -> & ->)|(Ew & -> & -> & HN & _)]];
      simpl; intros [= <- <-]; [by cbn in Ew|left|by right]; (split; [done|]);
      intros q; unfold lookup_cell; simpl;
      (destruct (decide (q = pos)) as [->|Hne];
       [rewrite lookup_insert_eq; simpl; by rewrite lookup_insert_eq|]);
      (destruct (decide (row q = row pos)) as [Hr|Hr];
       [rewrite Hr, lookup_insert_eq, E; simpl;
        assert (col q <> col pos) by (destruct q, pos; simpl in *; congruence);
        by rewrite !lookup_insert_ne, lookup_empty by done
       |by rewrite !lookup_insert_ne by done]).
Qed.


Lemma Set_wf st pos data :
  SheetStorage_wf st -> IsValid MAX_ROWS MAX_COLS pos = true ->
  exists st', Set_ pos data st = (Ok tt, st') /\ SheetStorage_wf st'.
Proof.
  intros [Hrs Hrows] Hv. unfold Set_, CheckValid, on_rows. rewrite Hv.
  destruct st as [rs]. simpl in *. unfold zoom, bind at 1, ret. simpl.
  unfold subscript_with, bind at 1.
  destruct (subscript (row pos) rs) as [r1 rs1] eqn:E1.
  destruct (subscript_wf _ _ _ _ Hrs E1) as (Hrs1 & v & -> & Ev).
  assert (Hv_wf : IndexedStorage_wf v).
  { apply subscript_inv in E1 as [(v' & E & [= ->] & ->)|[(E & [= ->] & ->)|(_ & ? & _)]];
      [by eapply Hrows|apply IndexedStorage_wf_empty|done]. }
  assert (Hrows1 : forall i r, i <> row pos -> data_ rs1 !! i = Some r ->
            IndexedStorage_wf r /\ data_ r <> ∅).
  { intros i r Hi. apply subscript_inv in E1 as [(v' & E & _ & ->)|[(E & _ & ->)|(_ & ? & _)]];
      [apply Hrows| |done].
    simpl. rewrite lookup_insert_ne by done. apply Hrows. }
  unfold subscript_assign, bind at 1.
  destruct (subscript (col pos) v) as [r2 v2] eqn:E2.
  destruct (subscript_wf _ _ _ _ Hv_wf E2) as ([Hs2 Hk2] & w & -> & Ew).
  simpl. eexists. split; [done|]. split; simpl.
  - destruct Hrs1 as [Hs1 Hk1]. split; simpl; [done|].
    intros i. rewrite Hk1. destruct (decide (i = row pos)) as [->|Hne].
    + rewrite lookup_insert_eq, Ev. split; eauto.
    + by rewrite lookup_insert_ne by done.
  - intros i r. destruct (decide (i = row pos)) as [->|Hne].
    + rewrite lookup_insert_eq. intros [= <-]. split; [split|]; simpl.
      * done.
      * intros j. rewrite Hk2. destruct (decide (j = col pos)) as [->|Hnj].
        -- rewrite lookup_insert_eq, Ew. split; eauto.
        -- by rewrite lookup_insert_ne by done.
      * intros Hemp. apply (f_equal (fun m => m !! col pos)) in Hemp.
        by rewrite lookup_insert_eq, lookup_empty in Hemp.
    + rewrite lookup_insert_ne by done. by apply Hrows1.
Qed.

Lemma Clear_invalid st pos :
  IsValid MAX_ROWS MAX_COLS pos = false ->
  Clear pos st = (Throw InvalidPositionException, st).
Proof. intros E. unfold Clear, CheckValid. rewrite E. done. Qed.

(** The part of [Clear] that runs on the row. *)
Lemma Clear_row_inv (rw : IndexedStorage T) (c : Z) r rw' :
  (r0 <- get_state ;;
   if bool_decide (Count r0 c > 0) then Erase c ;;; Empty else ret false) rw = (r, rw') ->
  match r with
  | Ok b =>
      (forall j, data_ rw' !! j = if decide (j = c) then None else data_ rw !! j) /\
      (b = true -> data_ rw' = ∅)
  | Throw _ => False
  | _ => True
  end.
Proof.
  rewrite bind_eq. cbn [get_state]. unfold Count.
  destruct (data_ rw !! c) as [x|] eqn:Ec; simpl.
  2:{ intros [= <- <-]. split; [|done].
      intros j. by destruct (decide (j = c)) as [->|]. }
  rewrite bind_eq. destruct (Erase c rw) as [re rw1] eqn:Ee.
  apply Erase_inv in Ee as [(E & _)|[(_ & Hre & _ & Hd & Hi)|(_ & Hre & _)]];
    [congruence| |].
  2:{ destruct Hre as [->|[-> _]]; by intros [= <- <-]. }
  destruct Hre as [->|[-> _]]; [|by intros [= <- <-]].
  intros Em. pose proof (Empty_no_write _ _ _ Em) as ->.
  unfold Empty in Em. rewrite bind_eq in Em. cbn [get_state] in Em.
  rewrite bind_eq in Em. unfold assert_, ret in Em.
  destruct (NDEBUG || _); injection Em as <-; [|done].
  split.
  - intros j. rewrite Hd. destruct (decide (j = c)) as [->|Hne].
    + by rewrite lookup_delete_eq.
    + by rewrite lookup_delete_ne.
  - by intros ?%bool_decide_eq_true.
Qed.

Lemma Clear_row_wf (rw : IndexedStorage T) (c : Z) :
  IndexedStorage_wf rw ->
  exists b rw',
    (r0 <- get_state ;;
     if bool_decide (Count r0 c > 0) then Erase c ;;; Empty else ret false) rw
      = (Ok b, rw') /\
    IndexedStorage_wf rw' /\
    (b = false -> data_ rw <> ∅ -> data_ rw' <> ∅).
Proof.
  intros Hwf. rewrite bind_eq. cbn [get_state]. unfold Count.
  destruct (data_ rw !! c) as [x|] eqn:Ec; simpl.
  2:{ exists false, rw. done. }
  destruct (Erase_wf rw c Hwf) as (rw1 & Ee & Hwf1 & Hd); [by eauto|].
  rewrite bind_eq, Ee, (Empty_wf _ Hwf1).
  eexists _, _. split; [done|]. split; [done|].
  by intros ?%bool_decide_eq_false.
Qed.

(** [Clear] on a valid position does not throw: the two [Erase] calls are
    guarded by [Count]. *)
Lemma Clear_inv st pos r st' :
  IsValid MAX_ROWS MAX_COLS pos = true ->
  Clear pos st = (r, st') ->
  match r with
  | Ok _ => forall q, lookup_cell st' q = if decide (q = pos) then None else lookup_cell st q
  | Throw _ => False
  | _ => True
  end.
Proof.
  intros Hv. unfold Clear, CheckValid, on_rows. rewrite Hv.
  destruct st as [rs]. rewrite bind_eq. cbn [ret]. unfold zoom. cbn [rows_].
  rewrite bind_eq. cbn [get_state].
  destruct (data_ rs !! row pos) as [rw|] eqn:Er.
  2:{ rewrite (Count_None _ _ Er), bool_decide_false by lia.
      intros [= <- <-] q. unfold lookup_cell. simpl.
      destruct (decide (q = pos)) as [->|]; [by rewrite Er|done]. }
  rewrite (Count_Some _ _ _ Er), bool_decide_true by lia.
  rewrite bind_eq, (subscript_with_found _ _ _ _ Er).
  match goal with |- context [?m rw] =>
    destruct (m rw) as [rr rw'] eqn:Erow end.
  apply Clear_row_inv in Erow. cbn [fst snd].
  destruct rr as [b| | | |]; try done; try (by intros [= <- <-]).
  destruct Erow as [Hrow Hb].
  assert (Hrow_q : forall q, q <> pos -> row q = row pos ->
            data_ rw' !! col q = data_ rw !! col q).
  { intros q Hne Hr. rewrite Hrow.
    assert (col q <> col pos) by (destruct q, pos; simpl in *; congruence).
    by rewrite decide_False. }
  destruct b.
  - (* the row became empty *)
    destruct (Erase (row pos) _) as [re2 rs2] eqn:Ee2.
    apply Erase_inv in Ee2 as [(E & _)|[(_ & Hre & _ & Hd2 & Hi2)|(_ & Hre & _)]].
    + simpl in E. by rewrite lookup_insert_eq in E.
    + destruct Hre as [->|[-> _]]; intros [= <- <-]; [|done].
      intros q. unfold lookup_cell. simpl. rewrite Hd2. simpl.
      destruct (decide (q = pos)) as [->|Hne]; [by rewrite lookup_delete_eq|].
      destruct (decide (row q = row pos)) as [Hr|Hr].
      * rewrite Hr, lookup_delete_eq, Er. rewrite <- Hrow_q by done.
        by rewrite Hb, lookup_empty.
      * by rewrite lookup_delete_ne, lookup_insert_ne by done.
    + destruct Hre as [->|[-> _]]; by intros [= <- <-].
  - intros [= <- <-] q. unfold lookup_cell. simpl.
    destruct (decide (q = pos)) as [->|Hne].
    + by rewrite lookup_insert_eq, Hrow, decide_True.
    + destruct (decide (row q = row pos)) as [Hr|Hr].
      * rewrite Hr, lookup_insert_eq, Er. by apply Hrow_q.
      * by rewrite lookup_insert_ne by done.
Qed.

Lemma Clear_wf st pos :
  SheetStorage_wf st -> IsValid MAX_ROWS MAX_COLS pos = true ->
  exists st', Clear pos st = (Ok tt, st') /\ SheetStorage_wf st'.
Proof.
  intros [Hrs Hrows] Hv. unfold Clear, CheckValid, on_rows. rewrite Hv.
  destruct st as [rs]. simpl in *. rewrite bind_eq. cbn [ret]. unfold zoom. cbn [rows_].
  rewrite bind_eq. cbn [get_state].
  destruct (data_ rs !! row pos) as [rw|] eqn:Er.
  2:{ rewrite (Count_None _ _ Er), bool_decide_false by lia.
      eexists. split; [done|]. by split. }
  rewrite (Count_Some _ _ _ Er), bool_decide_true by lia.
  destruct (Hrows _ _ Er) as [Hrw Hne].
  rewrite bind_eq, (subscript_with_found _ _ _ _ Er).
  destruct (Clear_row_wf rw (col pos) Hrw) as (b & rw' & -> & Hrw' & Hb).
  cbn [fst snd].
  assert (Hmid : IndexedStorage_wf
            (mkIndexedStorage (<[row pos := rw']> (data_ rs)) (indices_ rs))).
  { destruct Hrs as [Hs Hk]. split; [done|]. simpl. intros i. rewrite Hk.
    destruct (decide (i = row pos)) as [->|]; [|by rewrite lookup_insert_ne].
    rewrite lookup_insert_eq, Er. split; eauto. }
  destruct b.
  - destruct (Erase_wf _ (row pos) Hmid) as (rs2 & -> & Hrs2 & Hd2).
    { simpl. rewrite lookup_insert_eq. eauto. }
    eexists. split; [done|]. split; [done|]. simpl. intros i r.
    rewrite Hd2. simpl. destruct (decide (i = row pos)) as [->|].
    + by rewrite lookup_delete_eq.
    + rewrite lookup_delete_ne, lookup_insert_ne by done. apply Hrows.
  - eexists. split; [done|]. split; [done|]. simpl. intros i r.
    destruct (decide (i = row pos)) as [->|].
    + rewrite lookup_insert_eq. intros [= <-]. split; [done|]. by apply Hb.
    + rewrite lookup_insert_ne by done. apply Hrows.
Qed.

(** What [GetPrintableSize] is to return: the least box, anchored at the
    origin, that contains every stored entry. *)
Definition printable_box {T} (st : SheetStorage T) (sz : Size) : Prop :=
  (forall pos, is_Some (lookup_cell st pos) -> row pos < rows sz /\ col pos < cols sz) /\
  ((forall pos, lookup_cell st pos = None) -> sz = mkSize 0 0) /\
  ((exists pos, is_Some (lookup_cell st pos)) ->
     (exists pos, is_Some (lookup_cell st pos) /\ rows sz = 1 + row pos) /\
     (exists pos, is_Some (lookup_cell st pos) /\ cols sz = 1 + col pos)).

Lemma int_add_in_range {S} (a b : Z) (s : S) :
  - 2 ^ 31 <= a + b < 2 ^ 31 -> int_add a b s = (Ok (a + b), s).
Proof. intros H. unfold int_add. by rewrite bool_decide_true. Qed.

Lemma printable_cols_wf st (its : list Z) (acc : Z) :
  SheetStorage_wf st -> stored_valid st -> MAX_COLS <= 2 ^ 31 - 1 ->
  (forall i, i ∈ its -> is_Some (data_ (rows_ st) !! i)) ->
  0 <= acc ->
  exists acc',
    printable_cols (rows_ st) its acc st = (Ok acc', st) /\
    acc <= acc' /\
    (forall pos, row pos ∈ its -> is_Some (lookup_cell st pos) -> col pos < acc') /\
    (acc' = acc \/ exists pos, is_Some (lookup_cell st pos) /\ acc' = 1 + col pos).
Proof.
  intros Hwf Hval Hmax. revert acc.
  induction its as [|i its IH]; intros acc Hits Hacc; simpl.
  - exists acc. split; [done|]. split; [lia|]. split; [|by left].
    by intros pos ?%elem_of_nil.
  - destruct (Hits i) as [r Er]; [by left|]. rewrite Er.
    destruct Hwf as [Hrs Hrows]. destruct (Hrows _ _ Er) as [Hr Hne].
    rewrite bind_eq. unfold observe at 1. rewrite (Empty_wf _ Hr). cbn [fst].
    rewrite bool_decide_false by done. cbn [negb].
    destruct (BackIndex_wf _ Hr Hne) as (b & Eb & [x Hb] & Hbmax).
    rewrite bind_eq. unfold observe at 1. rewrite Eb. cbn [fst].
    assert (Hcell : is_Some (lookup_cell st (mkPos i b))).
    { unfold lookup_cell. simpl. rewrite Er, Hb. eauto. }
    pose proof (Hval _ Hcell) as Hv. unfold IsValid in Hv. simpl in Hv.
    apply andb_true_iff in Hv as [_ Hv%bool_decide_eq_true].
    rewrite bind_eq, int_add_in_range by lia.
    destruct (IH (Z.max acc (b + 1))) as (acc' & -> & Hle & Hall & Hex).
    { intros j Hj. apply Hits. by right. }
    { lia. }
    exists acc'. split; [done|]. split; [lia|]. split.
    + intros pos [Hp|Hp]%elem_of_cons Hsome; [|by apply Hall].
      unfold lookup_cell in Hsome. rewrite Hp, Er in Hsome.
      specialize (Hbmax _ Hsome). lia.
    + destruct Hex as [->|Hex]; [|by right].
      destruct (Z.max_spec acc (b + 1)) as [[_ ->]|[_ ->]]; [|by left].
      right. exists (mkPos i b). split; [done|]. simpl. lia.
Qed.

Lemma GetPrintableSize_wf st :
  SheetStorage_wf st -> stored_valid st ->
  MAX_ROWS <= 2 ^ 31 - 1 -> MAX_COLS <= 2 ^ 31 - 1 ->
  exists sz, GetPrintableSize st = (Ok sz, st) /\ printable_box st sz.
Proof.
  intros Hwf Hval Hmr Hmc. pose proof Hwf as [Hrs Hrows].
  unfold GetPrintableSize. rewrite bind_eq. cbn [get_state].
  rewrite bind_eq. unfold observe at 1. rewrite (Empty_wf _ Hrs). cbn [fst].
  case_bool_decide as Hemp; cbn [negb].
  - exists (mkSize 0 0). split; [done|].
    assert (Hnone : forall pos, lookup_cell st pos = None).
    { intros pos. unfold lookup_cell. by rewrite Hemp, lookup_empty. }
    split; [|split; [done|]].
    + intros pos [? Hs]. by rewrite Hnone in Hs.
    + intros [pos [? Hs]]. by rewrite Hnone in Hs.
  - destruct (BackIndex_wf _ Hrs Hemp) as (b & Eb & [r Hb] & Hbmax).
    rewrite bind_eq. unfold observe at 1. rewrite Eb. cbn [fst].
    destruct (Hrows _ _ Hb) as [Hr Hne].
    destruct (BackIndex_wf _ Hr Hne) as (c & _ & [x Hc] & _).
    assert (Hcell : is_Some (lookup_cell st (mkPos b c))).
    { unfold lookup_cell. simpl. rewrite Hb, Hc. eauto. }
    pose proof (Hval _ Hcell) as Hv. unfold IsValid in Hv. simpl in Hv.
    apply andb_true_iff in Hv as [Hv%bool_decide_eq_true _].
    rewrite bind_eq, int_add_in_range by lia.
    destruct (printable_cols_wf st (indices_ (rows_ st)) 0 Hwf Hval Hmc)
      as (cs & Ecs & Hcs0 & Hall & Hex); [by apply Hrs|done|].
    rewrite bind_eq, Ecs. eexists. split; [done|].
    assert (Hrow_in : forall pos, is_Some (lookup_cell st pos) ->
              is_Some (data_ (rows_ st) !! row pos)).
    { intros pos Hs. unfold lookup_cell in Hs.
      destruct (data_ (rows_ st) !! row pos); [eauto|by destruct Hs]. }
    split; [|split].
    + intros pos Hs. simpl. split.
      * specialize (Hbmax _ (Hrow_in _ Hs)). lia.
      * apply Hall; [|done]. apply Hrs. by apply Hrow_in.
    + intros Hnone. rewrite Hnone in Hcell. by destruct Hcell.
    + intros _. simpl. split.
      * exists (mkPos b c). split; [done|]. simpl. lia.
      * destruct Hex as [->|Hex]; [|done].
        specialize (Hall (mkPos b c)). simpl in Hall.
        pose proof (Hval _ Hcell) as Hv'. unfold IsValid in Hv'. simpl in Hv'.
        apply andb_true_iff in Hv' as [_ Hv'%bool_decide_eq_true].
        assert (c < 0); [|lia]. apply Hall; [|done]. apply Hrs. eauto.
Qed.

End SheetStorageFacts.


(** ** The sheet: cells and the reference graph *)

(** The [Cell] that [GetCell(pos)] points to, if any. *)
Definition cell_at (s : Sheet) (pos : Position) : option Cell :=
  match lookup_cell (cells_ s) pos with
  | Some ptr => ptr
  | None => None
  end.

Lemma GetCellImpl_eq (pos : Position) (s : Sheet) :
  GetCellImpl pos s =
    (if IsValid MAX_ROWS MAX_COLS pos then Ok (cell_at s pos)
     else Throw InvalidPositionException, s).
Proof.
  unfold GetCellImpl, on_cells, cell_at. rewrite bind_eq. unfold zoom.
  rewrite Get_eq. destruct s as [c g]. simpl.
  destruct (IsValid _ _ pos); [|done]. by destruct (lookup_cell c pos).
Qed.

Lemma GetCell_eq (pos : Position) (s : Sheet) :
  GetCell pos s =
    (if IsValid MAX_ROWS MAX_COLS pos then Ok (cell_at s pos)
     else Throw InvalidPositionException, s).
Proof. apply GetCellImpl_eq. Qed.

Lemma lookup_cell_write_cell (v : Position) (f : Cell -> Cell) (s : Sheet) (q : Position) :
  lookup_cell (cells_ (write_cell v f s)) q =
    if decide (q = v) then fmap (M:=option) (fmap (M:=option) f) (lookup_cell (cells_ s) q)
    else lookup_cell (cells_ s) q.
Proof.
  unfold lookup_cell, write_cell. simpl.
  destruct (decide (q = v)) as [->|Hne].
  - rewrite lookup_alter_eq.
    destruct (data_ (rows_ (cells_ s)) !! row v) as [r|]; simpl; [|done].
    by rewrite lookup_alter_eq.
  - destruct (decide (row v = row q)) as [Hr|Hr].
    + rewrite Hr, lookup_alter_eq.
      destruct (data_ (rows_ (cells_ s)) !! row q) as [r|]; simpl; [|done].
      rewrite lookup_alter_ne; [done|].
      intros Hc. apply Hne. destruct q, v; simpl in *; congruence.
    + by rewrite lookup_alter_ne.
Qed.

Lemma cell_at_write_cell (v : Position) (f : Cell -> Cell) (s : Sheet) (q : Position) :
  cell_at (write_cell v f s) q =
    if decide (q = v) then f <$> cell_at s q else cell_at s q.
Proof.
  unfold cell_at. rewrite lookup_cell_write_cell.
  destruct (decide (q = v)); [|done].
  by destruct (lookup_cell (cells_ s) q) as [[c|]|].
Qed.

Lemma refs_from_write_cell (v : Position) (f : Cell -> Cell) (s : Sheet) :
  refs_from_ (write_cell v f s) = refs_from_ s.
Proof. done. Qed.

Lemma write_cell_wf (v : Position) (f : Cell -> Cell) (s : Sheet) :
  SheetStorage_wf (cells_ s) -> SheetStorage_wf (cells_ (write_cell v f s)).
Proof.
  intros [[Hs Hk] Hrows]. split; [split|]; simpl.
  - done.
  - intros i. rewrite Hk, lookup_alter. case_decide; [|done].
    subst. by rewrite fmap_is_Some.
  - intros i r. rewrite lookup_alter. case_decide.
    + subst. destruct (data_ (rows_ (cells_ s)) !! row v) as [r0|] eqn:E; [|done].
      simpl. intros [= <-]. destruct (Hrows _ _ E) as [[Hs0 Hk0] Hne]. split; [split|]; simpl.
      * done.
      * intros j. rewrite Hk0, lookup_alter. case_decide; [|done].
        subst. by rewrite fmap_is_Some.
      * intros Hemp. apply Hne. apply map_eq. intros j. rewrite lookup_empty.
        apply (f_equal (fun m => m !! j)) in Hemp. rewrite lookup_alter, lookup_empty in Hemp.
        case_decide; [|done]. subst. by apply fmap_None in Hemp.
    + apply Hrows.
Qed.

Lemma write_cell_stored_valid (v : Position) (f : Cell -> Cell) (s : Sheet) :
  stored_valid (cells_ s) -> stored_valid (cells_ (write_cell v f s)).
Proof.
  intros Hval pos. rewrite lookup_cell_write_cell. case_decide; [|apply Hval].
  rewrite fmap_is_Some. apply Hval.
Qed.

(** Writes that leave the content of every cell alone: the cache is
    "logically mutable". *)
Inductive cache_step : Sheet -> Sheet -> Prop :=
| cache_step_write (s : Sheet) (v : Position) (f : Cell -> Cell) :
    (forall c, value_ (f c) = value_ c) -> cache_step s (write_cell v f s).

Definition cache_writes : Sheet -> Sheet -> Prop := rtc cache_step.

(** The same, when the only write is [Cell::InvalidateCache]. *)
Inductive invalidation_step : Sheet -> Sheet -> Prop :=
| invalidation_step_write (s : Sheet) (v : Position) :
    invalidation_step s (write_cell v Cell_InvalidateCache s).

Definition invalidations : Sheet -> Sheet -> Prop := rtc invalidation_step.

Lemma invalidations_cache_writes (s s' : Sheet) :
  invalidations s s' -> cache_writes s s'.
Proof.
  induction 1 as [|s1 s2 s3 Hstep _ IH]; [apply rtc_refl|].
  eapply rtc_l; [|exact IH]. destruct Hstep. by constructor.
Qed.

Lemma cache_writes_refs_from (s s' : Sheet) :
  cache_writes s s' -> refs_from_ s' = refs_from_ s.
Proof. induction 1 as [|s1 s2 s3 [] _ IH]; [done|]. by rewrite IH. Qed.

Lemma cache_writes_wf (s s' : Sheet) :
  cache_writes s s' -> SheetStorage_wf (cells_ s) -> SheetStorage_wf (cells_ s').
Proof.
  induction 1 as [|s1 s2 s3 [] _ IH]; [done|]. intros Hwf. by apply IH, write_cell_wf.
Qed.

Lemma cache_writes_stored_valid (s s' : Sheet) :
  cache_writes s s' -> stored_valid (cells_ s) -> stored_valid (cells_ s').
Proof.
  induction 1 as [|s1 s2 s3 [] _ IH]; [done|]. intros Hv.
  by apply IH, write_cell_stored_valid.
Qed.

Lemma cache_writes_lookup_cell (s s' : Sheet) (q : Position) :
  cache_writes s s' ->
  match lookup_cell (cells_ s) q, lookup_cell (cells_ s') q with
  | Some (Some c), Some (Some c') => value_ c' = value_ c
  | Some None, Some None => True
  | None, None => True
  | _, _ => False
  end.
Proof.
  induction 1 as [s|s1 s2 s3 [s v f Hf] _ IH].
  - by destruct (lookup_cell (cells_ s) q) as [[c|]|].
  - revert IH. rewrite lookup_cell_write_cell.
    destruct (decide (q = v)) as [->|]; [|done].
    destruct (lookup_cell (cells_ s) v) as [[c|]|]; simpl; try done.
    destruct (lookup_cell (cells_ s3) v) as [[c'|]|]; try done.
    intros ->. apply Hf.
Qed.

Lemma cache_writes_cell_at (s s' : Sheet) (q : Position) :
  cache_writes s s' ->
  match cell_at s q, cell_at s' q with
  | Some c, Some c' => value_ c' = value_ c
  | None, None => True
  | _, _ => False
  end.
Proof.
  intros H. pose proof (cache_writes_lookup_cell s s' q H) as Hl. unfold cell_at.
  destruct (lookup_cell (cells_ s) q) as [[c|]|],
    (lookup_cell (cells_ s') q) as [[c'|]|]; done.
Qed.

(** Invalidation never fills a cache. *)
Lemma invalidations_cache (s s' : Sheet) (q : Position) (c c' : Cell) :
  invalidations s s' -> cell_at s q = Some c -> cell_at s' q = Some c' ->
  cache_ c' = cache_ c \/ cache_ c' = None.
Proof.
  intros H. revert c. induction H as [s|s1 s2 s3 [s v] _ IH]; intros c Hc Hc'.
  - left. congruence.
  - rewrite cell_at_write_cell in IH. destruct (decide (q = v)) as [->|].
    + rewrite Hc in IH. simpl in IH.
      destruct (IH _ eq_refl Hc') as [E|E]; right; by rewrite E.
    + by apply IH.
Qed.


(** ** The reference graph *)

Implicit Types g : gmap Position (gset Position).

Lemma refs_to_referrers g (v w : Position) :
  w ∈ refs_to g v -> w ∈ referrers g.
Proof.
  unfold refs_to, referrers. destruct (g !! v) as [X|] eqn:E; [|set_solver].
  intros Hw. apply elem_of_union_list. exists X. split; [|done].
  apply list_elem_of_fmap. exists (v, X). split; [done|].
  by apply elem_of_map_to_list.
Qed.

Lemma refs_to_max_degree g (v : Position) :
  (size (refs_to g v) <= max_degree g)%nat.
Proof.
  unfold refs_to, max_degree. destruct (g !! v) as [X|] eqn:E.
  - apply max_list_elem_of_le. apply list_elem_of_fmap. exists X. split; [done|].
    apply list_elem_of_fmap. exists (v, X). split; [done|].
    by apply elem_of_map_to_list.
  - rewrite size_empty. lia.
Qed.

(** *** The cycle check terminates within its budget *)

Lemma push_unless_deleted_elem_of (pos v : Position) (refs_del : gset Position)
    (queue adj : list Position) (x : Position) :
  x ∈ push_unless_deleted pos v refs_del queue adj -> x ∈ queue \/ x ∈ adj.
Proof.
  unfold push_unless_deleted. revert queue.
  induction adj as [|a adj IH]; intros queue; simpl; [by left|].
  intros [Hx|Hx]%IH; [|right; by right].
  destruct (_ && _); [by left|].
  apply elem_of_cons in Hx as [->|Hx]; [right; by left|by left].
Qed.

Lemma IsCircularReference_loop_terminates g (pos : Position) (refs_del : gset Position)
    (V : gset Position) (fuel : nat) (discovered : gset Position) (queue : list Position) :
  (forall v w, w ∈ refs_to g v -> w ∈ V) ->
  (forall v, v ∈ queue -> v ∈ V) ->
  (size (V ∖ discovered) < fuel)%nat ->
  exists b, IsCircularReference_loop fuel g pos refs_del discovered queue = Ok b.
Proof.
  intros Hadj. revert discovered queue.
  induction fuel as [|fuel IH]; intros discovered queue Hq Hsz; [lia|].
  simpl. destruct queue as [|v queue]; [by eexists|].
  case_bool_decide as Hv; [by eexists|].
  apply IH.
  - intros x [Hx|Hx]%push_unless_deleted_elem_of.
    + apply Hq. by right.
    + apply elem_of_elements in Hx. by eapply Hadj.
  - assert (V ∖ ({[v]} ∪ discovered) ⊂ V ∖ discovered) as Hsub.
    { assert (v ∈ V) by (apply Hq; by left). set_solver. }
    apply subset_size in Hsub. lia.
Qed.

Lemma IsCircularReference_inv (pos ref_add : Position) (refs_del : gset Position)
    (s : Sheet) r s' :
  IsCircularReference pos ref_add refs_del s = (r, s') ->
  s' = s /\ ((exists b, r = Ok b) \/ (r = Abort /\ NDEBUG = false)).
Proof.
  unfold IsCircularReference. rewrite bind_eq. cbn [get_state].
  assert (Hloop : exists b,
    IsCircularReference_loop (IsCircularReference_fuel (refs_from_ s) pos ref_add)
      (refs_from_ s) pos refs_del ∅ [ref_add; pos] = Ok b).
  { apply (IsCircularReference_loop_terminates _ _ _
             ({[pos; ref_add]} ∪ referrers (refs_from_ s))).
    - intros v w Hw. apply elem_of_union. right. by eapply refs_to_referrers.
    - intros v Hv. set_solver.
    - unfold IsCircularReference_fuel. rewrite difference_empty_L. lia. }
  destruct Hloop as [b Hb].
  do 3 (massert; [|intros [= <- <-]; by eauto]).
  rewrite Hb. intros [= <- <-]. split; [done|]. left. eauto.
Qed.


(** *** [UpdateRefs]: the two difference sets *)

Lemma for_each_acc_collect (cond chk_in chk_out : Position -> bool)
    (l : list Position) (acc : gset Position) (s : Sheet) r s' :
  for_each_acc l acc (fun x acc =>
    if cond x then assert_ (chk_in x) ;;; ret ({[x]} ∪ acc)
    else assert_ (chk_out x) ;;; ret acc) s = (r, s') ->
  s' = s /\
  (r = Ok (list_to_set (filter (fun x => cond x = true) l) ∪ acc) \/
   (r = Abort /\ NDEBUG = false /\
    exists x, x ∈ l /\ if cond x then chk_in x = false else chk_out x = false)).
Proof.
  revert acc. induction l as [|x l IH]; intros acc; simpl.
  - intros [= <- <-]. split; [done|]. left. f_equal. set_solver.
  - rewrite bind_eq. destruct (cond x) eqn:Ec.
    + massert.
      * cbn [ret]. intros [Hs [Hr|(-> & HN & y & Hy & Hc)]]%IH; (split; [done|]).
        -- left. rewrite Hr. f_equal. rewrite filter_cons_True by done. set_solver.
        -- right. repeat split; [done|]. exists y. split; [by right|done].
      * intros [= <- <-]. split; [done|]. right. repeat split; [done|].
        exists x. split; [by left|]. by rewrite Ec.
    + massert.
      * cbn [ret]. intros [Hs [Hr|(-> & HN & y & Hy & Hc)]]%IH; (split; [done|]).
        -- left. rewrite Hr. f_equal. rewrite filter_cons_False by (by rewrite Ec). done.
        -- right. repeat split; [done|]. exists y. split; [by right|done].
      * intros [= <- <-]. split; [done|]. right. repeat split; [done|].
        exists x. split; [by left|]. by rewrite Ec.
Qed.

Lemma collected_difference (X Y : gset Position) :
  list_to_set (filter (fun x => bool_decide (x ∉ Y) = true) (elements X)) ∪ ∅
    = X ∖ Y.
Proof.
  apply set_eq. intros x. rewrite elem_of_union, elem_of_list_to_set, list_elem_of_filter,
    elem_of_elements, bool_decide_eq_true. set_solver.
Qed.

(** *** [UpdateRefs]: the cycle checks leave the sheet alone *)

Lemma cycle_checks_inv (pos : Position) (refs_del : gset Position)
    (l : list Position) (s : Sheet) r s' :
  for_each l (fun ref_add =>
    c <- IsCircularReference pos ref_add refs_del ;;
    if c then throw CircularDependencyException else ret tt) s = (r, s') ->
  s' = s /\
  (r = Ok tt \/ r = Throw CircularDependencyException \/ (r = Abort /\ NDEBUG = false)).
Proof.
  induction l as [|a l IH]; simpl.
  - intros [= <- <-]. eauto.
  - rewrite bind_eq, bind_eq.
    destruct (IsCircularReference pos a refs_del s) as [rc sc] eqn:Ec.
    apply IsCircularReference_inv in Ec as [-> [[b ->]|[-> HN]]].
    + destruct b; cbn [throw ret]; [intros [= <- <-]; eauto|]. apply IH.
    + intros [= <- <-]. eauto.
Qed.

(** *** [UpdateRefs]: adding and removing edges *)

(** [it->second.erase(pos)] and, when the set is left empty,
    [refs_from_.erase(it)]. *)
Definition del_ref (pos ref_del : Position) g : gmap Position (gset Position) :=
  match g !! ref_del with
  | Some refs =>
      if bool_decide (size (refs ∖ {[pos]}) = 0%nat) then delete ref_del g
      else <[ref_del := refs ∖ {[pos]}]> g
  | None => g
  end.

Definition no_empty_sets g : Prop := forall q, g !! q <> Some ∅.

Lemma add_loop_eq (pos : Position) (l : list Position) (s : Sheet) :
  for_each l (fun ref_add =>
    modify_state (fun s => mkSheet (cells_ s) (add_ref pos ref_add (refs_from_ s)))) s
  = (Ok tt, mkSheet (cells_ s) (foldl (fun g a => add_ref pos a g) (refs_from_ s) l)).
Proof.
  revert s. induction l as [|a l IH]; intros s; simpl.
  - by destruct s.
  - rewrite bind_eq. cbn [modify_state]. by rewrite IH.
Qed.

Lemma refs_to_add_ref (pos a : Position) g (q : Position) :
  refs_to (add_ref pos a g) q =
    if decide (q = a) then {[pos]} ∪ refs_to g q else refs_to g q.
Proof.
  unfold add_ref. unfold refs_to at 1. destruct (decide (q = a)) as [->|Hne].
  - by rewrite lookup_insert_eq.
  - by rewrite lookup_insert_ne.
Qed.

Lemma refs_to_add_refs (pos : Position) (l : list Position) g (q : Position) :
  refs_to (foldl (fun g a => add_ref pos a g) g l) q =
    if decide (q ∈ l) then {[pos]} ∪ refs_to g q else refs_to g q.
Proof.
  revert g. induction l as [|a l IH]; intros g; cbn [foldl].
  - destruct (decide (q ∈ [])) as [Hin|]; [by apply elem_of_nil in Hin|done].
  - rewrite IH, refs_to_add_ref.
    destruct (decide (q = a)) as [->|Hne].
    + destruct (decide (a ∈ a :: l)) as [_|Hni]; [|exfalso; apply Hni; by left].
      destruct (decide (a ∈ l)); set_solver.
    + destruct (decide (q ∈ l)) as [Hin|Hni].
      * destruct (decide (q ∈ a :: l)) as [_|Hni]; [done|exfalso; apply Hni; by right].
      * destruct (decide (q ∈ a :: l)) as [[?|?]%elem_of_cons|_]; done.
Qed.

Lemma add_refs_lookup_is_Some (pos : Position) (l : list Position) g (q : Position) :
  is_Some (g !! q) -> is_Some (foldl (fun g a => add_ref pos a g) g l !! q).
Proof.
  revert g. induction l as [|a l IH]; intros g Hq; simpl; [done|].
  apply IH. unfold add_ref. destruct (decide (q = a)) as [->|Hne].
  - rewrite lookup_insert_eq. eauto.
  - by rewrite lookup_insert_ne.
Qed.

Lemma add_refs_no_empty_sets (pos : Position) (l : list Position) g :
  no_empty_sets g -> no_empty_sets (foldl (fun g a => add_ref pos a g) g l).
Proof.
  revert g. induction l as [|a l IH]; intros g Hg; simpl; [done|].
  apply IH. intros q. unfold add_ref. destruct (decide (q = a)) as [->|Hne].
  - rewrite lookup_insert_eq. intros [= Hemp]. set_solver.
  - rewrite lookup_insert_ne by done. apply Hg.
Qed.

Lemma refs_to_del_ref (pos d : Position) g (q : Position) :
  refs_to (del_ref pos d g) q =
    if decide (q = d) then refs_to g q ∖ {[pos]} else refs_to g q.
Proof.
  unfold del_ref. destruct (g !! d) as [refs|] eqn:Ed.
  - case_bool_decide as Hsz.
    + unfold refs_to. destruct (decide (q = d)) as [->|Hne].
      * rewrite lookup_delete_eq, Ed. apply size_empty_inv in Hsz.
        by apply leibniz_equiv in Hsz.
      * by rewrite lookup_delete_ne.
    + unfold refs_to. destruct (decide (q = d)) as [->|Hne].
      * by rewrite lookup_insert_eq, Ed.
      * by rewrite lookup_insert_ne.
  - destruct (decide (q = d)) as [->|Hne]; [|done].
    unfold refs_to. rewrite Ed. set_solver.
Qed.

Lemma refs_to_del_refs (pos : Position) (l : list Position) g (q : Position) :
  refs_to (foldl (fun g d => del_ref pos d g) g l) q =
    if decide (q ∈ l) then refs_to g q ∖ {[pos]} else refs_to g q.
Proof.
  revert g. induction l as [|a l IH]; intros g; cbn [foldl].
  - destruct (decide (q ∈ [])) as [Hin|]; [by apply elem_of_nil in Hin|done].
  - rewrite IH, refs_to_del_ref.
    destruct (decide (q = a)) as [->|Hne].
    + destruct (decide (a ∈ a :: l)) as [_|Hni]; [|exfalso; apply Hni; by left].
      destruct (decide (a ∈ l)); set_solver.
    + destruct (decide (q ∈ l)) as [Hin|Hni].
      * destruct (decide (q ∈ a :: l)) as [_|Hni]; [done|exfalso; apply Hni; by right].
      * destruct (decide (q ∈ a :: l)) as [[?|?]%elem_of_cons|_]; done.
Qed.

Lemma del_ref_no_empty_sets (pos d : Position) g :
  no_empty_sets g -> no_empty_sets (del_ref pos d g).
Proof.
  intros Hg q. unfold del_ref. destruct (g !! d) as [refs|] eqn:Ed; [|apply Hg].
  case_bool_decide as Hsz.
  - destruct (decide (q = d)) as [->|Hne].
    + by rewrite lookup_delete_eq.
    + rewrite lookup_delete_ne by done. apply Hg.
  - destruct (decide (q = d)) as [->|Hne].
    + rewrite lookup_insert_eq. intros [= Hemp]. apply Hsz. rewrite Hemp. apply size_empty.
    + rewrite lookup_insert_ne by done. apply Hg.
Qed.

Lemma del_refs_no_empty_sets (pos : Position) (l : list Position) g :
  no_empty_sets g -> no_empty_sets (foldl (fun g d => del_ref pos d g) g l).
Proof.
  revert g. induction l as [|a l IH]; intros g Hg; simpl; [done|].
  by apply IH, del_ref_no_empty_sets.
Qed.

Lemma del_ref_lookup_ne (pos d : Position) g (q : Position) :
  q <> d -> del_ref pos d g !! q = g !! q.
Proof.
  intros Hne. unfold del_ref. destruct (g !! d) as [refs|]; [|done].
  case_bool_decide; [by rewrite lookup_delete_ne|by rewrite lookup_insert_ne].
Qed.

Lemma del_loop_inv (pos : Position) (l : list Position) (s : Sheet) r s' :
  for_each l (fun ref_del =>
    s <- get_state ;;
    match refs_from_ s !! ref_del with
    | None => assert_defined false
    | Some refs =>
        assert_ (bool_decide (pos ∈ refs)) ;;;
        let refs' := refs ∖ {[pos]} in
        if bool_decide (size refs' = 0%nat)
        then put_state (mkSheet (cells_ s) (delete ref_del (refs_from_ s)))
        else put_state (mkSheet (cells_ s) (<[ref_del := refs']> (refs_from_ s)))
    end) s = (r, s') ->
  cells_ s' = cells_ s /\
  match r with
  | Ok _ => refs_from_ s' = foldl (fun g d => del_ref pos d g) (refs_from_ s) l
  | Throw _ => False
  | Abort => NDEBUG = false
  | Undefined => NoDup l -> ~ (forall d, d ∈ l -> is_Some (refs_from_ s !! d))
  | OutOfFuel => False
  end.
Proof.
  revert s. induction l as [|d l IH]; intros s; simpl.
  - intros [= <- <-]. done.
  - rewrite bind_eq, bind_eq. cbn [get_state].
    destruct (refs_from_ s !! d) as [refs|] eqn:Ed.
    + massert.
      2:{ intros [= <- <-]. done. }
      assert (Hstep : (if bool_decide (size (refs ∖ {[pos]}) = 0%nat)
                then put_state (mkSheet (cells_ s) (delete d (refs_from_ s)))
                else put_state (mkSheet (cells_ s) (<[d := refs ∖ {[pos]}]> (refs_from_ s)))) s
              = (Ok tt, mkSheet (cells_ s) (del_ref pos d (refs_from_ s)))).
      { unfold del_ref. rewrite Ed. by case_bool_decide. }
      cbv zeta. rewrite Hstep. intros [Hc Hr]%IH. simpl in *. split; [done|].
      destruct r; try done.
      intros Hnd Hall. apply NoDup_cons in Hnd as [Hni Hnd]. apply (Hr Hnd).
      intros d' Hd'. rewrite del_ref_lookup_ne; [apply Hall; by right|].
      intros ->. done.
    + unfold assert_defined. destruct NDEBUG eqn:EN; intros [= <- <-]; (split; [done|]).
      * intros _ Hall. destruct (Hall d) as [? Hd]; [by left|]. congruence.
      * done.
Qed.


(** The adjacency sets after [UpdateRefs(pos, old_refs, new_refs)]. *)
Definition updated_refs (pos : Position) (old_refs new_refs : gset Position) g
    (q : Position) : gset Position :=
  if decide (q ∈ new_refs ∖ old_refs) then {[pos]} ∪ refs_to g q
  else if decide (q ∈ old_refs ∖ new_refs) then refs_to g q ∖ {[pos]}
  else refs_to g q.

Lemma UpdateRefs_inv (pos : Position) (old_refs new_refs : gset Position)
    (s : Sheet) r s' :
  UpdateRefs pos old_refs new_refs s = (r, s') ->
  match r with
  | Ok _ =>
      cells_ s' = cells_ s /\
      (forall q, refs_to (refs_from_ s') q =
                 updated_refs pos old_refs new_refs (refs_from_ s) q) /\
      (no_empty_sets (refs_from_ s) -> no_empty_sets (refs_from_ s'))
  | Throw e => e = CircularDependencyException /\ s' = s
  | Abort => NDEBUG = false
  | Undefined =>
      ~ (forall d, d ∈ old_refs ∖ new_refs -> is_Some (refs_from_ s !! d))
  | OutOfFuel => False
  end.
Proof.
  unfold UpdateRefs. rewrite bind_eq. cbn [get_state]. rewrite bind_eq.
  match goal with |- context [for_each_acc ?l ?a ?b s] =>
    destruct (for_each_acc l a b s) as [r1 s1] eqn:E1 end.
  apply (for_each_acc_collect (fun x => bool_decide (x ∉ old_refs))
           (fun x => negb (has_ref (refs_from_ s) x pos))
           (fun x => has_ref (refs_from_ s) x pos)) in E1
    as [-> [->|(-> & HN & _)]]; [|by intros [= <- <-]].
  rewrite collected_difference. rewrite bind_eq.
  match goal with |- context [for_each_acc ?l ?a ?b s] =>
    destruct (for_each_acc l a b s) as [r2 s2] eqn:E2 end.
  apply (for_each_acc_collect (fun x => bool_decide (x ∉ new_refs))
           (fun x => has_ref (refs_from_ s) x pos)
           (fun x => negb (has_ref (refs_from_ s) x pos))) in E2
    as [-> [->|(-> & HN & _)]]; [|by intros [= <- <-]].
  rewrite collected_difference. rewrite bind_eq.
  match goal with |- context [for_each ?l ?b s] =>
    destruct (for_each l b s) as [r3 s3] eqn:E3 end.
  apply cycle_checks_inv in E3 as [-> [->|[->|[-> HN]]]];
    [|by intros [= <- <-]..].
  rewrite bind_eq, add_loop_eq.
  intros [Hc Hr]%del_loop_inv. simpl in Hc, Hr.
  destruct r; try done.
  - split; [done|]. rewrite Hr. split.
    + intros q. rewrite refs_to_del_refs, refs_to_add_refs. unfold updated_refs.
      destruct (decide (q ∈ new_refs ∖ old_refs)) as [Ha|Ha].
      * rewrite (decide_True (P := q ∈ elements (new_refs ∖ old_refs)))
          by (by apply elem_of_elements).
        rewrite decide_False; [done|]. rewrite elem_of_elements. set_solver.
      * rewrite (decide_False (P := q ∈ elements (new_refs ∖ old_refs)))
          by (by rewrite elem_of_elements).
        destruct (decide (q ∈ old_refs ∖ new_refs)) as [Hd|Hd].
        -- by rewrite decide_True by (by apply elem_of_elements).
        -- by rewrite decide_False by (by rewrite elem_of_elements).
    + intros Hg. by apply del_refs_no_empty_sets, add_refs_no_empty_sets.
  - intros Hall. apply Hr; [apply NoDup_elements|].
    intros d Hd%elem_of_elements. by apply add_refs_lookup_is_Some, Hall.
Qed.


(** *** The cycle check misses no cycle *)

(** A cycle in the graph: some vertex reaches itself along at least one
    edge of [refs_from_]. *)
Definition has_cycle g : Prop := exists v, tc (edge g) v v.

Definition acyclic g : Prop := ~ has_cycle g.

(** The edges the walk of [IsCircularReference] follows: those of
    [refs_from_], without the references of [pos] that the edit removes. *)
Definition kept_edge (pos : Position) (refs_del : gset Position) g
    (v w : Position) : Prop :=
  w ∈ refs_to g v /\ ~ (w = pos /\ v ∈ refs_del).

(** The edges of the graph as [UpdateRefs] leaves it. *)
Definition updated_edge (pos : Position) (old_refs new_refs : gset Position) g
    (v w : Position) : Prop :=
  w ∈ updated_refs pos old_refs new_refs g v.

Lemma push_unless_deleted_kept (pos v : Position) (refs_del : gset Position)
    (queue adj : list Position) (x : Position) :
  x ∈ queue \/ (x ∈ adj /\ ~ (x = pos /\ v ∈ refs_del)) ->
  x ∈ push_unless_deleted pos v refs_del queue adj.
Proof.
  unfold push_unless_deleted. revert queue.
  induction adj as [|a adj IH]; intros queue; simpl.
  - intros [?|[?%elem_of_nil _]]; done.
  - intros [Hx|[Hx Hk]]; apply IH.
    + left. destruct (_ && _); [done|by right].
    + apply elem_of_cons in Hx as [<-|Hx]; [left|by right].
      destruct (bool_decide (x = pos) && bool_decide (v ∈ refs_del)) eqn:E; [|by left].
      apply andb_true_iff in E as [?%bool_decide_eq_true ?%bool_decide_eq_true].
      by destruct Hk.
Qed.

(** A walk that answers [false] has popped every vertex on the stack and
    everything those vertices reach, each of them for the first time. *)
Lemma IsCircularReference_loop_false g (pos : Position) (refs_del : gset Position)
    (fuel : nat) (discovered : gset Position) (queue : list Position) :
  IsCircularReference_loop fuel g pos refs_del discovered queue = Ok false ->
  forall v w, v ∈ queue -> rtc (kept_edge pos refs_del g) v w -> w ∉ discovered.
Proof.
  revert discovered queue. induction fuel as [|fuel IH]; intros discovered queue; [done|].
  simpl. destruct queue as [|x queue]; [by intros _ v w ?%elem_of_nil|].
  case_bool_decide as Hx; [done|].
  intros Hrun v w Hv Hreach. specialize (IH _ _ Hrun).
  assert (Hnext : forall u w', u ∈ push_unless_deleted pos x refs_del queue
                                     (elements (refs_to g x)) ->
                    rtc (kept_edge pos refs_del g) u w' -> w' ∉ discovered).
  { intros u w' Hu Hw'. specialize (IH u w' Hu Hw'). set_solver. }
  apply elem_of_cons in Hv as [->|Hv].
  - inversion Hreach as [|? y ? [Hxy Hk] Hrest]; subst; [done|].
    eapply Hnext; [|done]. apply push_unless_deleted_kept. right.
    split; [by apply elem_of_elements|done].
  - eapply Hnext; [|done]. apply push_unless_deleted_kept. by left.
Qed.

Lemma IsCircularReference_loop_pop g (pos : Position) (refs_del : gset Position)
    (fuel : nat) (discovered : gset Position) (v : Position) (queue : list Position) :
  IsCircularReference_loop (S fuel) g pos refs_del discovered (v :: queue) =
    if bool_decide (v ∈ discovered) then Ok true
    else IsCircularReference_loop fuel g pos refs_del ({[v]} ∪ discovered)
           (push_unless_deleted pos v refs_del queue (elements (refs_to g v))).
Proof. reflexivity. Qed.

Lemma IsCircularReference_complete (pos ref_add : Position) (refs_del : gset Position)
    (s : Sheet) r s' :
  rtc (kept_edge pos refs_del (refs_from_ s)) pos ref_add ->
  IsCircularReference pos ref_add refs_del s = (r, s') ->
  s' = s /\ (r = Ok true \/ (r = Abort /\ NDEBUG = false)).
Proof.
  intros Hreach Hrun.
  pose proof (IsCircularReference_inv _ _ _ _ _ _ Hrun) as [-> [[b ->]|?]]; [|by auto].
  split; [done|]. left. destruct b; [done|]. exfalso.
  revert Hrun. unfold IsCircularReference. rewrite bind_eq. cbn [get_state].
  do 3 (massert; [|done]).
  intros Hloop. apply (f_equal fst) in Hloop. cbn [fst] in Hloop.
  unfold IsCircularReference_fuel in Hloop.
  rewrite IsCircularReference_loop_pop in Hloop.
  rewrite bool_decide_false in Hloop by set_solver.
  eapply (IsCircularReference_loop_false _ _ _ _ _ _ Hloop pos ref_add) in Hreach.
  - set_solver.
  - apply push_unless_deleted_kept. left. by left.
Qed.

Lemma cycle_checks_complete (pos : Position) (refs_del : gset Position)
    (l : list Position) (s : Sheet) r s' :
  (exists a, a ∈ l /\ rtc (kept_edge pos refs_del (refs_from_ s)) pos a) ->
  for_each l (fun ref_add =>
    c <- IsCircularReference pos ref_add refs_del ;;
    if c then throw CircularDependencyException else ret tt) s = (r, s') ->
  r = Throw CircularDependencyException \/ (r = Abort /\ NDEBUG = false).
Proof.
  induction l as [|a l IH]; simpl.
  - by intros (a & ?%elem_of_nil & _).
  - intros (x & Hx & Hreach). rewrite bind_eq, bind_eq.
    destruct (IsCircularReference pos a refs_del s) as [rc sc] eqn:Ec.
    apply elem_of_cons in Hx as [->|Hx].
    + apply IsCircularReference_complete in Ec as [-> [->|[-> HN]]]; [| |done];
        intros [= <- <-]; eauto.
    + apply IsCircularReference_inv in Ec as [-> [[b ->]|[-> HN]]].
      * destruct b; cbn [throw ret]; [intros [= <- <-]; eauto|]. apply IH. eauto.
      * intros [= <- <-]. eauto.
Qed.

Lemma UpdateRefs_complete (pos : Position) (old_refs new_refs : gset Position)
    (s : Sheet) r s' :
  (exists a, a ∈ new_refs ∖ old_refs /\
             rtc (kept_edge pos (old_refs ∖ new_refs) (refs_from_ s)) pos a) ->
  UpdateRefs pos old_refs new_refs s = (r, s') ->
  r = Throw CircularDependencyException \/ (r = Abort /\ NDEBUG = false).
Proof.
  intros (a & Ha & Hreach).
  unfold UpdateRefs. rewrite bind_eq. cbn [get_state]. rewrite bind_eq.
  match goal with |- context [for_each_acc ?l ?a ?b s] =>
    destruct (for_each_acc l a b s) as [r1 s1] eqn:E1 end.
  apply (for_each_acc_collect (fun x => bool_decide (x ∉ old_refs))
           (fun x => negb (has_ref (refs_from_ s) x pos))
           (fun x => has_ref (refs_from_ s) x pos)) in E1
    as [-> [->|(-> & HN & _)]]; [|intros [= <- <-]; by right].
  rewrite collected_difference. rewrite bind_eq.
  match goal with |- context [for_each_acc ?l ?a ?b s] =>
    destruct (for_each_acc l a b s) as [r2 s2] eqn:E2 end.
  apply (for_each_acc_collect (fun x => bool_decide (x ∉ new_refs))
           (fun x => has_ref (refs_from_ s) x pos)
           (fun x => negb (has_ref (refs_from_ s) x pos))) in E2
    as [-> [->|(-> & HN & _)]]; [|intros [= <- <-]; by right].
  rewrite collected_difference. rewrite bind_eq.
  match goal with |- context [for_each ?l ?b s] =>
    destruct (for_each l b s) as [r3 s3] eqn:E3 end.
  apply cycle_checks_complete in E3 as [->|[-> HN]].
  - intros [= <- <-]. by left.
  - intros [= <- <-]. by right.
  - exists a. split; [by apply elem_of_elements|done].
Qed.

(** An edge of the updated graph is a new reference of [pos] or an edge
    the walk follows. *)
Lemma updated_edge_inv (pos : Position) (old_refs new_refs : gset Position) g
    (v w : Position) :
  updated_edge pos old_refs new_refs g v w ->
  (v ∈ new_refs ∖ old_refs /\ w = pos) \/ kept_edge pos (old_refs ∖ new_refs) g v w.
Proof.
  unfold updated_edge, updated_refs, kept_edge.
  destruct (decide (w = pos)) as [->|Hne]; repeat case_decide; set_solver.
Qed.

Lemma kept_edge_edge (pos : Position) (refs_del : gset Position) g (v w : Position) :
  kept_edge pos refs_del g v w -> edge g v w.
Proof. by intros [? _]. Qed.

Lemma first_added_edge_rtc (pos : Position) (old_refs new_refs : gset Position) g
    (x y : Position) :
  rtc (updated_edge pos old_refs new_refs g) x y ->
  rtc (kept_edge pos (old_refs ∖ new_refs) g) x y \/
  exists a, a ∈ new_refs ∖ old_refs /\
            rtc (kept_edge pos (old_refs ∖ new_refs) g) x a.
Proof.
  induction 1 as [x|x y z Hxy _ IH]; [left; apply rtc_refl|].
  apply updated_edge_inv in Hxy as [[Hx _]|Hk].
  - right. exists x. split; [done|apply rtc_refl].
  - destruct IH as [IH|(a & Ha & IH)]; [left|right; exists a; split; [done|]];
      by eapply rtc_l.
Qed.

Lemma first_added_edge_tc (pos : Position) (old_refs new_refs : gset Position) g
    (x y : Position) :
  tc (updated_edge pos old_refs new_refs g) x y ->
  tc (kept_edge pos (old_refs ∖ new_refs) g) x y \/
  exists a, a ∈ new_refs ∖ old_refs /\
            rtc (kept_edge pos (old_refs ∖ new_refs) g) x a /\
            rtc (updated_edge pos old_refs new_refs g) pos y.
Proof.
  induction 1 as [x y Hxy|x y z Hxy Hyz IH].
  - apply updated_edge_inv in Hxy as [[Hx ->]|Hk]; [right|left; by apply tc_once].
    exists x. split_and!; [done|apply rtc_refl..].
  - apply updated_edge_inv in Hxy as [[Hx ->]|Hk].
    + right. exists x. split_and!; [done|apply rtc_refl|by apply tc_rtc].
    + destruct IH as [IH|(a & Ha & IH & Hrest)]; [left; by eapply tc_l|right].
      exists a. split_and!; [done|by eapply rtc_l|done].
Qed.

(** In a graph without cycles, a cycle of the updated graph runs through
    a reference that the edit adds: the added target reaches [pos] by
    references, that is, [pos] reaches it over [refs_from_]. *)
Lemma new_cycle_through_added (pos : Position) (old_refs new_refs : gset Position) g :
  acyclic g ->
  (exists v, tc (updated_edge pos old_refs new_refs g) v v) ->
  exists a, a ∈ new_refs ∖ old_refs /\
            rtc (kept_edge pos (old_refs ∖ new_refs) g) pos a.
Proof.
  intros Hac [v Hv]. apply first_added_edge_tc in Hv as [Hv|(a & Ha & Hva & Hpv)].
  - destruct Hac. exists v.
    apply (tc_congruence id (edge g)) in Hv; [done|]. intros ? ?. apply kept_edge_edge.
  - apply first_added_edge_rtc in Hpv as [Hpv|?]; [|done].
    exists a. split; [done|]. by eapply rtc_trans.
Qed.

Lemma has_cycle_refs_to g g' :
  (forall q, refs_to g' q ⊆ refs_to g q) -> has_cycle g' -> has_cycle g.
Proof.
  intros Hsub [v Hv]. exists v.
  apply (tc_congruence id (edge g)) in Hv; [done|].
  intros x y Hxy. by apply Hsub.
Qed.

(** The graph [UpdateRefs] commits has no cycle. *)
Lemma UpdateRefs_acyclic (pos : Position) (old_refs new_refs : gset Position)
    (s s' : Sheet) :
  UpdateRefs pos old_refs new_refs s = (Ok tt, s') ->
  acyclic (refs_from_ s) -> acyclic (refs_from_ s').
Proof.
  intros Hrun Hac [v Hv].
  pose proof (UpdateRefs_inv _ _ _ _ _ _ Hrun) as (_ & Hg & _).
  assert (exists v, tc (updated_edge pos old_refs new_refs (refs_from_ s)) v v) as Hnew.
  { exists v. apply (tc_congruence id (updated_edge pos old_refs new_refs (refs_from_ s)))
      in Hv; [done|].
    intros x y Hxy. unfold updated_edge. rewrite <- Hg. exact Hxy. }
  apply (new_cycle_through_added _ _ _ _ Hac) in Hnew.
  by destruct (UpdateRefs_complete _ _ _ _ _ _ Hnew Hrun) as [?|[? _]].
Qed.

(** *** [InvalidateCache]: the walk terminates within its budget *)

Definition entry_weight (d : nat) (V discovered : gset Position) (x : Position) : nat :=
  if decide (x ∈ discovered) then work_discovered d (size (V ∖ discovered))
  else work_undiscovered d (size (V ∖ discovered)).

Definition queue_weight (d : nat) (V discovered : gset Position)
    (queue : list Position) : nat :=
  sum_list (entry_weight d V discovered <$> queue).

Lemma queue_weight_cons (d : nat) (V discovered : gset Position) (x : Position)
    (queue : list Position) :
  queue_weight d V discovered (x :: queue) =
    (entry_weight d V discovered x + queue_weight d V discovered queue)%nat.
Proof. reflexivity. Qed.

Lemma work_undiscovered_mono (d n m : nat) :
  (n <= m)%nat -> (work_undiscovered d n <= work_undiscovered d m)%nat.
Proof.
  induction 1 as [|m _ IH]; [lia|]. simpl. nia.
Qed.

Lemma work_undiscovered_pos (d n : nat) : (0 < work_undiscovered d n)%nat.
Proof. destruct n; simpl; lia. Qed.

Lemma push_undiscovered_elem_of (discovered : gset Position)
    (queue adj : list Position) (x : Position) :
  x ∈ push_undiscovered discovered queue adj <->
  x ∈ queue \/ (x ∈ adj /\ x ∉ discovered).
Proof.
  unfold push_undiscovered. revert queue.
  induction adj as [|a adj IH]; intros queue; cbn [foldl].
  - split; [by left|]. intros [?|[?%elem_of_nil _]]; done.
  - rewrite IH. case_bool_decide as Ha.
    + rewrite !elem_of_cons. naive_solver.
    + rewrite elem_of_cons. naive_solver.
Qed.

Lemma push_undiscovered_weight (d : nat) (V discovered : gset Position)
    (queue adj : list Position) :
  (queue_weight d V discovered (push_undiscovered discovered queue adj)
   <= length adj * work_undiscovered d (size (V ∖ discovered))
      + queue_weight d V discovered queue)%nat.
Proof.
  unfold push_undiscovered. revert queue.
  induction adj as [|a adj IH]; intros queue; cbn [foldl length]; [lia|].
  etrans; [apply IH|]. case_bool_decide as Ha.
  - rewrite queue_weight_cons. unfold entry_weight. rewrite decide_False by done. lia.
  - lia.
Qed.

Lemma size_difference_step (V discovered : gset Position) (v : Position) :
  v ∈ V -> v ∉ discovered ->
  size (V ∖ discovered) = S (size (V ∖ ({[v]} ∪ discovered))).
Proof.
  intros Hv Hd.
  assert (V ∖ discovered = {[v]} ∪ V ∖ ({[v]} ∪ discovered)) as ->.
  { apply set_eq. intros x. destruct (decide (x = v)); set_solver. }
  rewrite size_union by set_solver. by rewrite size_singleton.
Qed.

Lemma entry_weight_discover (d : nat) (V discovered : gset Position) (v x : Position) :
  v ∈ V -> v ∉ discovered ->
  (entry_weight d V ({[v]} ∪ discovered) x <= entry_weight d V discovered x)%nat.
Proof.
  intros Hv Hd. unfold entry_weight.
  rewrite (size_difference_step V discovered v) by done.
  set (n := size (V ∖ ({[v]} ∪ discovered))).
  assert (work_undiscovered d n <= work_undiscovered d (S n))%nat
    by (apply work_undiscovered_mono; lia).
  unfold work_discovered.
  destruct (decide (x ∈ discovered)) as [Hx|Hx].
  - rewrite decide_True by set_solver. nia.
  - destruct (decide (x ∈ {[v]} ∪ discovered)); [simpl; nia|lia].
Qed.

Lemma queue_weight_discover (d : nat) (V discovered : gset Position) (v : Position)
    (queue : list Position) :
  v ∈ V -> v ∉ discovered ->
  (queue_weight d V ({[v]} ∪ discovered) queue <= queue_weight d V discovered queue)%nat.
Proof.
  intros Hv Hd.
  induction queue as [|x queue IH]; [done|]. rewrite !queue_weight_cons.
  pose proof (entry_weight_discover d V discovered v x Hv Hd). lia.
Qed.

(** One iteration makes the weight of the stack drop. *)
Lemma queue_weight_step (d : nat) (V discovered : gset Position) (v : Position)
    (queue adj : list Position) :
  v ∈ V -> (length adj <= d)%nat ->
  (queue_weight d V ({[v]} ∪ discovered)
     (push_undiscovered ({[v]} ∪ discovered) queue adj)
   < queue_weight d V discovered (v :: queue))%nat.
Proof.
  intros Hv Hlen.
  pose proof (push_undiscovered_weight d V ({[v]} ∪ discovered) queue adj) as Hpush.
  rewrite queue_weight_cons.
  destruct (decide (v ∈ discovered)) as [Hd|Hd].
  - assert ({[v]} ∪ discovered = discovered) as Heq by set_solver.
    rewrite Heq in *. unfold entry_weight. rewrite decide_True by done.
    unfold work_discovered.
    pose proof (work_undiscovered_pos d (size (V ∖ discovered))). nia.
  - pose proof (queue_weight_discover d V discovered v queue Hv Hd).
    unfold entry_weight. rewrite decide_False by done.
    rewrite (size_difference_step V discovered v) in * by done.
    set (n := size (V ∖ ({[v]} ∪ discovered))) in *. cbn [work_undiscovered].
    pose proof (work_undiscovered_pos d n). nia.
Qed.


(** *** [InvalidateCache]: every vertex reachable over [refs_from_] is visited *)

Definition cache_cleared (s : Sheet) (v : Position) : Prop :=
  forall c, cell_at s v = Some c -> cache_ c = None.

Lemma cache_cleared_invalidations (s s' : Sheet) (v : Position) :
  invalidations s s' -> cache_cleared s v -> cache_cleared s' v.
Proof.
  intros Hinv Hcl c' Hc'.
  pose proof (cache_writes_cell_at s s' v (invalidations_cache_writes _ _ Hinv)) as Hm.
  rewrite Hc' in Hm. destruct (cell_at s v) as [c|] eqn:Hc; [|done].
  destruct (invalidations_cache s s' v c c' Hinv Hc Hc') as [->|]; [|done].
  by apply Hcl.
Qed.

Lemma InvalidateCache_loop_spec g (V : gset Position) (fuel : nat) :
  (forall v w, w ∈ refs_to g v -> w ∈ V) ->
  forall (discovered : gset Position) (queue : list Position) (s : Sheet),
    refs_from_ s = g ->
    (forall x, x ∈ queue -> x ∈ V) ->
    (queue_weight (max_degree g) V discovered queue < fuel)%nat ->
    (forall v, v ∈ discovered -> cache_cleared s v) ->
    (forall v w, v ∈ discovered -> w ∈ refs_to g v -> w ∈ discovered \/ w ∈ queue) ->
    exists r s',
      InvalidateCache_loop fuel discovered queue s = (r, s') /\
      invalidations s s' /\
      match r with
      | Ok _ =>
          exists D : gset Position,
            discovered ⊆ D /\ (forall x, x ∈ queue -> x ∈ D) /\
            (forall v, v ∈ D -> cache_cleared s' v) /\
            (forall v w, v ∈ D -> w ∈ refs_to g v -> w ∈ D)
      | Throw e =>
          e = InvalidPositionException /\
          exists v, v ∈ V /\ IsValid MAX_ROWS MAX_COLS v = false
      | _ => False
      end.
Proof.
  intros Hadj. induction fuel as [|fuel IH];
    intros discovered queue s Hg Hq Hw Hcl Hedges; [lia|].
  cbn [InvalidateCache_loop]. destruct queue as [|v queue].
  { eexists _, _. split; [done|]. split; [apply rtc_refl|].
    exists discovered. split; [done|]. split; [by intros x ?%elem_of_nil|].
    split; [done|]. intros v w Hv Hw'. destruct (Hedges v w Hv Hw') as [?|?%elem_of_nil]; done. }
  rewrite bind_eq, GetCellImpl_eq.
  destruct (IsValid MAX_ROWS MAX_COLS v) eqn:Hvalid.
  2:{ eexists _, _. split; [done|]. split; [apply rtc_refl|]. split; [done|].
      exists v. split; [apply Hq; by left|done]. }
  rewrite bind_eq.
  set (s1 := match cell_at s v with
             | Some _ => write_cell v Cell_InvalidateCache s
             | None => s
             end).
  assert (Hs1 : (match cell_at s v with
                 | Some _ => modify_state (write_cell v Cell_InvalidateCache)
                 | None => ret tt
                 end) s = (Ok tt, s1)).
  { unfold s1. by destruct (cell_at s v). }
  rewrite Hs1, bind_eq. cbn [get_state].
  assert (Hstep : invalidations s s1).
  { unfold s1. destruct (cell_at s v); [|apply rtc_refl].
    apply rtc_once. constructor. }
  assert (Hg1 : refs_from_ s1 = g).
  { unfold s1. by destruct (cell_at s v). }
  assert (Hv1 : cache_cleared s1 v).
  { unfold s1. intros c. destruct (cell_at s v) as [c0|] eqn:E.
    - rewrite cell_at_write_cell, decide_True, E by done. by intros [= <-].
    - by rewrite E. }
  rewrite Hg1.
  destruct (IH ({[v]} ∪ discovered)
              (push_undiscovered ({[v]} ∪ discovered) queue (elements (refs_to g v))) s1)
    as (r & s' & Hrun & Hinv & Hpost).
  - done.
  - intros x [Hx|[Hx _]]%push_undiscovered_elem_of.
    + apply Hq. by right.
    + apply elem_of_elements in Hx. by eapply Hadj.
  - eapply Nat.lt_le_trans; [apply queue_weight_step|lia].
    + apply Hq. by left.
    + exact (refs_to_max_degree g v).
  - intros x [->%elem_of_singleton|Hx]%elem_of_union; [done|].
    by eapply cache_cleared_invalidations, Hcl.
  - intros x w [->%elem_of_singleton|Hx]%elem_of_union Hw'.
    + destruct (decide (w ∈ {[v]} ∪ discovered)); [by left|]. right.
      apply push_undiscovered_elem_of. right. split; [|done]. by apply elem_of_elements.
    + destruct (Hedges x w Hx Hw') as [?|[->|?]%elem_of_cons].
      * left. set_solver.
      * left. set_solver.
      * right. apply push_undiscovered_elem_of. by left.
  - exists r, s'. split; [done|]. split; [by eapply rtc_trans|].
    destruct r; try done.
    destruct Hpost as (D & HD & HqD & HclD & Hclosed).
    exists D. split; [set_solver|]. split; [|done].
    intros x [->|Hx]%elem_of_cons; [set_solver|].
    apply HqD, push_undiscovered_elem_of. by left.
Qed.

Lemma InvalidateCache_inv (pos : Position) (s : Sheet) r s' :
  InvalidateCache pos s = (r, s') ->
  invalidations s s' /\
  match r with
  | Ok _ => forall q, rtc (edge (refs_from_ s')) pos q -> cache_cleared s' q
  | Throw e =>
      e = InvalidPositionException /\
      exists v, v ∈ {[pos]} ∪ referrers (refs_from_ s) /\
                IsValid MAX_ROWS MAX_COLS v = false
  | _ => False
  end.
Proof.
  unfold InvalidateCache. rewrite bind_eq. cbn [get_state].
  destruct (InvalidateCache_loop_spec (refs_from_ s) ({[pos]} ∪ referrers (refs_from_ s))
              (InvalidateCache_fuel (refs_from_ s) pos)) with (discovered := (∅ : gset Position))
              (queue := [pos]) (s := s)
    as (r0 & s0 & Hrun & Hinv & Hpost).
  - intros v w Hw. apply elem_of_union. right. by eapply refs_to_referrers.
  - done.
  - intros x ->%list_elem_of_singleton. set_solver.
  - unfold InvalidateCache_fuel. rewrite queue_weight_cons. unfold entry_weight.
    rewrite decide_False by set_solver. rewrite difference_empty_L.
    cbn. lia.
  - set_solver.
  - set_solver.
  - rewrite Hrun. intros [= <- <-]. split; [done|].
    destruct r0; try done.
    destruct Hpost as (D & _ & HqD & HclD & Hclosed).
    rewrite (cache_writes_refs_from _ _ (invalidations_cache_writes _ _ Hinv)).
    intros q Hreach. apply HclD. revert q Hreach. apply rtc_ind_r.
    + apply HqD. by left.
    + intros y z _ Hyz Hy. by eapply Hclosed.
Qed.


(** ** [SetCell], step by step *)

Definition no_null_cells (s : Sheet) : Prop :=
  forall q, lookup_cell (cells_ s) q <> Some None.

(** How the grid may differ after placeholders for the positions in [R]
    were materialised and caches were invalidated. *)
Definition placeholders_added (R : gset Position) (s s' : Sheet) : Prop :=
  refs_from_ s' = refs_from_ s /\
  (SheetStorage_wf (cells_ s) -> SheetStorage_wf (cells_ s')) /\
  (stored_valid (cells_ s) -> stored_valid (cells_ s')) /\
  (no_null_cells s -> no_null_cells s') /\
  forall q,
    match cell_at s q with
    | Some c =>
        exists c', cell_at s' q = Some c' /\ value_ c' = value_ c /\
                   (cache_ c' = cache_ c \/ cache_ c' = None)
    | None =>
        cell_at s' q = None \/
        (q ∈ R /\ IsValid MAX_ROWS MAX_COLS q = true /\ cell_at s' q = Some Cell_new)
    end.

Lemma placeholders_added_refl (R : gset Position) (s : Sheet) :
  placeholders_added R s s.
Proof.
  unfold placeholders_added. split_and!; try done.
  intros q. destruct (cell_at s q) as [c|]; [|by left].
  exists c. eauto.
Qed.

Lemma placeholders_added_trans (R : gset Position) (s1 s2 s3 : Sheet) :
  placeholders_added R s1 s2 -> placeholders_added R s2 s3 ->
  placeholders_added R s1 s3.
Proof.
  intros (Hg1 & Hw1 & Hv1 & Hn1 & Hc1) (Hg2 & Hw2 & Hv2 & Hn2 & Hc2).
  unfold placeholders_added. split_and!; [congruence|eauto..|].
  intros q. specialize (Hc1 q). specialize (Hc2 q).
  destruct (cell_at s1 q) as [c1|].
  - destruct Hc1 as (c2 & E2 & Hval2 & Hcache2). rewrite E2 in Hc2.
    destruct Hc2 as (c3 & E3 & Hval3 & Hcache3). exists c3.
    split; [done|]. split; [congruence|].
    destruct Hcache3 as [E|E]; rewrite E; [done|by right].
  - destruct Hc1 as [E2|(HR & Hvalid & E2)]; rewrite E2 in Hc2; [done|].
    destruct Hc2 as (c3 & E3 & Hval3 & Hcache3). right. split; [done|]. split; [done|].
    rewrite E3. f_equal. destruct c3 as [v3 k3]. simpl in *. subst v3.
    by destruct Hcache3 as [E|E]; rewrite E.
Qed.

Lemma placeholders_added_mono (R R' : gset Position) (s s' : Sheet) :
  R ⊆ R' -> placeholders_added R s s' -> placeholders_added R' s s'.
Proof.
  intros HR (Hg & Hw & Hv & Hn & Hc). unfold placeholders_added. split_and!; try done.
  intros q. specialize (Hc q). destruct (cell_at s q); [done|].
  destruct Hc as [?|(? & ? & ?)]; [by left|right]. split; [set_solver|done].
Qed.

Lemma write_cell_no_null (v : Position) (f : Cell -> Cell) (s : Sheet) :
  no_null_cells s -> no_null_cells (write_cell v f s).
Proof.
  intros Hn q. rewrite lookup_cell_write_cell. case_decide; [|apply Hn].
  specialize (Hn q). by destruct (lookup_cell (cells_ s) q) as [[c|]|].
Qed.

Lemma invalidations_placeholders_added (R : gset Position) (s s' : Sheet) :
  invalidations s s' -> placeholders_added R s s'.
Proof.
  intros Hinv. pose proof (invalidations_cache_writes _ _ Hinv) as Hcw.
  split; [by apply cache_writes_refs_from|].
  split; [by apply cache_writes_wf|].
  split; [by apply cache_writes_stored_valid|].
  split.
  { clear Hcw. induction Hinv as [|s1 s2 s3 [] _ IH]; [done|].
    intros Hn. by apply IH, write_cell_no_null. }
  intros q. pose proof (cache_writes_cell_at _ _ q Hcw) as Hm.
  destruct (cell_at s q) as [c|] eqn:E, (cell_at s' q) as [c'|] eqn:E'; try done.
  - exists c'. split; [done|]. split; [done|]. by eapply invalidations_cache.
  - by left.
Qed.

(** [cells_.Set(pos, std::move(cell))] on the sheet. *)
Lemma on_cells_Set_inv (pos : Position) (c : Cell) (s : Sheet) r s1 :
  IsValid MAX_ROWS MAX_COLS pos = true ->
  on_cells (Set_ pos (Some c)) s = (r, s1) ->
  match r with
  | Ok _ =>
      refs_from_ s1 = refs_from_ s /\
      (forall q, lookup_cell (cells_ s1) q =
                 if decide (q = pos) then Some (Some c) else lookup_cell (cells_ s) q) /\
      (SheetStorage_wf (cells_ s) -> SheetStorage_wf (cells_ s1))
  | Abort => NDEBUG = false /\ ~ SheetStorage_wf (cells_ s)
  | _ => False
  end.
Proof.
  intros Hv. unfold on_cells, zoom.
  destruct (Set_ pos (Some c) (cells_ s)) as [r0 st'] eqn:E. intros [= <- <-].
  pose proof (Set_inv _ _ _ _ _ Hv E) as [[-> Hl]|[-> HN]].
  - split; [done|]. split; [done|]. simpl. intros Hwf.
    destruct (Set_wf _ pos (Some c) Hwf Hv) as (st'' & E' & Hwf'). congruence.
  - split; [done|]. intros Hwf.
    destruct (Set_wf _ pos (Some c) Hwf Hv) as (st'' & E' & Hwf'). congruence.
Qed.

Lemma stored_placeholders_added (pos : Position) (s s1 : Sheet) :
  IsValid MAX_ROWS MAX_COLS pos = true ->
  cell_at s pos = None ->
  refs_from_ s1 = refs_from_ s ->
  (forall q, lookup_cell (cells_ s1) q =
             if decide (q = pos) then Some (Some Cell_new) else lookup_cell (cells_ s) q) ->
  (SheetStorage_wf (cells_ s) -> SheetStorage_wf (cells_ s1)) ->
  placeholders_added {[pos]} s s1.
Proof.
  intros Hv Hnone Hg Hl Hwf. split; [done|]. split; [done|]. split; [|split].
  - intros Hsv q. rewrite Hl. case_decide; [by subst|apply Hsv].
  - intros Hn q. rewrite Hl. case_decide; [done|apply Hn].
  - intros q. unfold cell_at at 2 3 4. rewrite Hl.
    destruct (decide (q = pos)) as [->|Hne].
    + rewrite Hnone. right. split; [set_solver|done].
    + fold (cell_at s q). destruct (cell_at s q) as [c|]; [|by left]. exists c. eauto.
Qed.

Lemma UpdateRefs_empty (pos : Position) (s : Sheet) :
  UpdateRefs pos ∅ ∅ s = (Ok tt, s).
Proof.
  unfold UpdateRefs. rewrite bind_eq. cbn [get_state].
  rewrite elements_empty. cbn [for_each_acc]. rewrite bind_eq. cbn [ret].
  rewrite bind_eq. cbn [ret]. rewrite elements_empty. cbn [for_each].
  rewrite bind_eq. cbn [ret]. rewrite bind_eq. cbn [ret]. done.
Qed.

Lemma Cell_Set_empty : Cell_Set EmptyString Cell_new = (Ok tt, Cell_new).
Proof. reflexivity. Qed.

(** The nested call that materialises a placeholder. *)
Lemma SetCell_rec_placeholder (depth : nat) (ref : Position) (s : Sheet) r s' :
  IsValid MAX_ROWS MAX_COLS ref = true ->
  cell_at s ref = None ->
  SetCell_rec (S depth) ref EmptyString s = (r, s') ->
  match r with
  | Ok _ => placeholders_added {[ref]} s s' /\ cell_at s' ref = Some Cell_new
  | Throw e =>
      e = InvalidPositionException /\ placeholders_added {[ref]} s s' /\
      exists v, v ∈ referrers (refs_from_ s) /\ IsValid MAX_ROWS MAX_COLS v = false
  | Abort => NDEBUG = false /\ ~ SheetStorage_wf (cells_ s)
  | _ => False
  end.
Proof.
  intros Hv Hnone. cbn [SetCell_rec]. rewrite bind_eq.
  unfold make_cell. rewrite Cell_Set_empty. rewrite bind_eq, GetCell_eq, Hv, Hnone.
  change (Cell_GetReferencedCells Cell_new) with (@nil Position).
  change (list_to_set []) with (∅ : gset Position).
  rewrite bind_eq, UpdateRefs_empty, bind_eq, elements_empty. cbn [for_each ret].
  rewrite bind_eq.
  destruct (on_cells (Set_ ref (Some Cell_new)) s) as [r1 s1] eqn:E1.
  apply on_cells_Set_inv in E1; [|done].
  destruct r1; try done. 2:{ by intros [= <- <-]. }
  destruct E1 as (Hg & Hl & Hwf).
  pose proof (stored_placeholders_added ref s s1 Hv Hnone Hg Hl Hwf) as Hpa.
  intros [Hinv Hpost]%InvalidateCache_inv.
  pose proof (invalidations_placeholders_added {[ref]} _ _ Hinv) as Hpa'.
  pose proof (placeholders_added_trans _ _ _ _ Hpa Hpa') as Hall.
  destruct r; try done.
  - split; [done|]. destruct Hall as (_ & _ & _ & _ & Hc). specialize (Hc ref).
    rewrite Hnone in Hc. destruct Hc as [Hc|(_ & _ & Hc)]; [|done].
    destruct Hpa' as (_ & _ & _ & _ & Hc'). specialize (Hc' ref).
    unfold cell_at at 1 in Hc'. rewrite Hl, decide_True in Hc' by done.
    destruct Hc' as (c' & E' & _). congruence.
  - destruct Hpost as (-> & v & Hin & Hbad). split; [done|]. split; [done|].
    exists v. split; [|done]. rewrite Hg in Hin.
    apply elem_of_union in Hin as [->%elem_of_singleton|?]; [congruence|done].
Qed.


Lemma placeholders_loop_inv (depth : nat) (l : list Position) (s : Sheet) r s' :
  for_each l (fun ref =>
    c <- GetCell ref ;;
    match c with
    | None => SetCell_rec (S depth) ref EmptyString
    | Some _ => ret tt
    end) s = (r, s') ->
  match r with
  | Ok _ =>
      placeholders_added (list_to_set l) s s' /\
      forall ref, ref ∈ l -> is_Some (cell_at s' ref)
  | Throw e =>
      e = InvalidPositionException /\ placeholders_added (list_to_set l) s s' /\
      exists v, (v ∈ l \/ v ∈ referrers (refs_from_ s)) /\
                IsValid MAX_ROWS MAX_COLS v = false
  | Abort => NDEBUG = false /\ ~ SheetStorage_wf (cells_ s)
  | _ => False
  end.
Proof.
  revert s. induction l as [|ref l IH]; intros s; cbn [for_each].
  - intros [= <- <-]. split; [apply placeholders_added_refl|]. by intros ref ?%elem_of_nil.
  - rewrite bind_eq, bind_eq, GetCell_eq.
    destruct (IsValid MAX_ROWS MAX_COLS ref) eqn:Hv.
    2:{ intros [= <- <-]. split; [done|]. split; [apply placeholders_added_refl|].
        exists ref. split; [left; by left|done]. }
    assert (Hsub1 : ({[ref]} : gset Position) ⊆ list_to_set (ref :: l)) by set_solver.
    assert (Hsub2 : (list_to_set l : gset Position) ⊆ list_to_set (ref :: l)) by set_solver.
    destruct (cell_at s ref) as [c|] eqn:Hc.
    + cbn [ret]. intros Hrest. specialize (IH _ Hrest). destruct r; try done.
      * destruct IH as [Hpa Hall].
        split; [exact (placeholders_added_mono _ _ _ _ Hsub2 Hpa)|].
        intros x [->|Hx]%elem_of_cons; [|by apply Hall].
        destruct Hpa as (_ & _ & _ & _ & Hq). specialize (Hq ref). rewrite Hc in Hq.
        destruct Hq as (c' & -> & _). eauto.
      * destruct IH as (-> & Hpa & v & Hin & Hbad).
        split; [done|]. split; [exact (placeholders_added_mono _ _ _ _ Hsub2 Hpa)|].
        exists v. split; [|done]. destruct Hin; [left; by right|by right].
    + destruct (SetCell_rec (S depth) ref EmptyString s) as [r1 s1] eqn:E1.
      apply SetCell_rec_placeholder in E1; [|done..].
      destruct r1; try done.
      * destruct E1 as [Hpa1 Hnew]. intros Hrest. specialize (IH _ Hrest).
        pose proof (placeholders_added_mono _ _ _ _ Hsub1 Hpa1) as Hpa1'.
        destruct r; try done.
        -- destruct IH as [Hpa Hall].
           pose proof (placeholders_added_mono _ _ _ _ Hsub2 Hpa) as Hpa'.
           split; [by eapply placeholders_added_trans|].
           intros x [->|Hx]%elem_of_cons; [|by apply Hall].
           destruct Hpa as (_ & _ & _ & _ & Hq). specialize (Hq ref). rewrite Hnew in Hq.
           destruct Hq as (c' & -> & _). eauto.
        -- destruct IH as (-> & Hpa & v & Hin & Hbad).
           pose proof (placeholders_added_mono _ _ _ _ Hsub2 Hpa) as Hpa'.
           split; [done|]. split; [by eapply placeholders_added_trans|].
           exists v. split; [|done]. destruct Hin as [?|Hin]; [left; by right|right].
           destruct Hpa1 as (Hg & _). by rewrite <- Hg.
        -- destruct IH as [HN Hnwf]. split; [done|]. intros Hwf. apply Hnwf.
           by apply Hpa1.
      * destruct E1 as (-> & Hpa1 & v & Hin & Hbad). intros [= <- <-].
        split; [done|]. split; [exact (placeholders_added_mono _ _ _ _ Hsub1 Hpa1)|].
        exists v. split; [by right|done].
      * by intros [= <- <-].
Qed.

Definition cell_refs (c : option Cell) : gset Position :=
  match c with
  | Some c => list_to_set (Cell_GetReferencedCells c)
  | None => ∅
  end.

Lemma Cell_Set_new_inv (text : string) r c :
  Cell_Set text Cell_new = (r, c) ->
  (r = Ok tt /\ cache_ c = None) \/ (r = Throw FormulaException /\ c = Cell_new).
Proof.
  unfold Cell_Set. destruct text as [|front expression]; [intros [= <- <-]; by left|].
  destruct (_ && _).
  - destruct (ParseFormula expression); intros [= <- <-]; [by left|by right].
  - intros [= <- <-]. by left.
Qed.

Lemma referrers_elem_of g (v : Position) :
  v ∈ referrers g <-> exists q, v ∈ refs_to g q.
Proof.
  split; [|intros [q Hq]; by eapply refs_to_referrers].
  unfold referrers. intros (X & HX & Hv)%elem_of_union_list.
  apply list_elem_of_fmap in HX as ([q X'] & -> & Hin%elem_of_map_to_list).
  exists q. unfold refs_to. by rewrite Hin.
Qed.

Lemma updated_refs_elem_of (pos : Position) (old_refs new_refs : gset Position) g
    (q v : Position) :
  v ∈ updated_refs pos old_refs new_refs g q -> v = pos \/ v ∈ refs_to g q.
Proof. unfold updated_refs. repeat case_decide; set_solver. Qed.


Lemma cell_at_is_Some (s : Sheet) (pos : Position) :
  no_null_cells s ->
  is_Some (cell_at s pos) <-> is_Some (lookup_cell (cells_ s) pos).
Proof.
  intros Hnn. unfold cell_at. specialize (Hnn pos).
  destruct (lookup_cell (cells_ s) pos) as [[c|]|]; split; intros [? ?]; eauto; done.
Qed.

(** What the grid side of the sheet promises. *)
Definition storage_inv (s : Sheet) : Prop :=
  SheetStorage_wf (cells_ s) /\ stored_valid (cells_ s) /\ no_null_cells s.

Lemma storage_inv_cells (s s' : Sheet) :
  cells_ s' = cells_ s -> storage_inv s -> storage_inv s'.
Proof.
  intros Hc (Hwf & Hsv & Hnn). unfold storage_inv, no_null_cells. rewrite Hc. done.
Qed.

Lemma placeholders_added_storage_inv (R : gset Position) (s s' : Sheet) :
  placeholders_added R s s' -> storage_inv s -> storage_inv s'.
Proof. intros (_ & Hw & Hv & Hn & _) (Hwf & Hsv & Hnn). split_and!; auto. Qed.

Lemma stored_storage_inv (pos : Position) (c : Cell) (s s1 : Sheet) :
  IsValid MAX_ROWS MAX_COLS pos = true ->
  (forall q, lookup_cell (cells_ s1) q =
             if decide (q = pos) then Some (Some c) else lookup_cell (cells_ s) q) ->
  (SheetStorage_wf (cells_ s) -> SheetStorage_wf (cells_ s1)) ->
  storage_inv s -> storage_inv s1.
Proof.
  intros Hv Hl Hw (Hwf & Hsv & Hnn). split_and!.
  - auto.
  - intros q. rewrite Hl. case_decide; [by subst|apply Hsv].
  - intros q. rewrite Hl. case_decide; [done|apply Hnn].
Qed.

(** Everything [SetCell] can do, outcome by outcome.  For a call that
    returns, the intermediate states are: [s_a] after [UpdateRefs], [s_b]
    after the placeholders, [s_c] after the new cell is stored. *)
Lemma SetCell_rec_inv (depth : nat) (pos : Position) (text : string) (s : Sheet) r s' :
  SetCell_rec (S (S depth)) pos text s = (r, s') ->
  match r with
  | Ok _ =>
      exists cell s_a s_b s_c,
        Cell_Set text Cell_new = (Ok tt, cell) /\
        IsValid MAX_ROWS MAX_COLS pos = true /\
        cells_ s_a = cells_ s /\
        (forall q, refs_to (refs_from_ s_a) q =
                   updated_refs pos (cell_refs (cell_at s pos)) (cell_refs (Some cell))
                     (refs_from_ s) q) /\
        (no_empty_sets (refs_from_ s) -> no_empty_sets (refs_from_ s_a)) /\
        placeholders_added (cell_refs (Some cell)) s_a s_b /\
        (forall ref, ref ∈ cell_refs (Some cell) -> is_Some (cell_at s_b ref)) /\
        refs_from_ s_c = refs_from_ s_b /\
        (forall q, lookup_cell (cells_ s_c) q =
                   if decide (q = pos) then Some (Some cell) else lookup_cell (cells_ s_b) q) /\
        (SheetStorage_wf (cells_ s_b) -> SheetStorage_wf (cells_ s_c)) /\
        invalidations s_c s' /\
        (forall q, rtc (edge (refs_from_ s')) pos q -> cache_cleared s' q)
  | Throw FormulaException =>
      s' = s /\ (Cell_Set text Cell_new).1 = Throw FormulaException
  | Throw CircularDependencyException =>
      s' = s /\ IsValid MAX_ROWS MAX_COLS pos = true /\
      exists cell, Cell_Set text Cell_new = (Ok tt, cell)
  | Throw InvalidPositionException =>
      exists cell, Cell_Set text Cell_new = (Ok tt, cell) /\
        (storage_inv s -> storage_inv s') /\
        (acyclic (refs_from_ s) -> acyclic (refs_from_ s')) /\
        (no_empty_sets (refs_from_ s) -> no_empty_sets (refs_from_ s')) /\
        ((IsValid MAX_ROWS MAX_COLS pos = false /\ s' = s) \/
         (IsValid MAX_ROWS MAX_COLS pos = true /\
          exists v, (v ∈ cell_refs (Some cell) \/ v ∈ referrers (refs_from_ s)) /\
                    IsValid MAX_ROWS MAX_COLS v = false))
  | Throw invalid_argument => False
  | Abort => NDEBUG = false
  | Undefined =>
      ~ (forall d, d ∈ cell_refs (cell_at s pos) -> is_Some (refs_from_ s !! d))
  | OutOfFuel => False
  end.
Proof.
  cbn [SetCell_rec]. rewrite bind_eq. unfold make_cell.
  destruct (Cell_Set text Cell_new) as [r0 cell] eqn:Ecell.
  pose proof (Cell_Set_new_inv _ _ _ Ecell) as [[-> Hcache]|[-> ->]].
  2:{ intros [= <- <-]. done. }
  rewrite bind_eq, GetCell_eq.
  destruct (IsValid MAX_ROWS MAX_COLS pos) eqn:Hv.
  2:{ intros [= <- <-]. exists cell. do 4 (split; [done|]). by left. }
  fold (cell_refs (cell_at s pos)). fold (cell_refs (Some cell)).
  rewrite bind_eq.
  destruct (UpdateRefs pos (cell_refs (cell_at s pos)) (cell_refs (Some cell)) s)
    as [ra s_a] eqn:Ea.
  pose proof Ea as Hupd. apply UpdateRefs_inv in Ea.
  destruct ra as [[]|e| | |]; try done.
  2:{ destruct Ea as [-> ->]. intros [= <- <-]. eauto. }
  2:{ by intros [= <- <-]. }
  2:{ intros [= <- <-]. intros Hall. apply Ea. intros d Hd. apply Hall. set_solver. }
  destruct Ea as (Hca & Hga & Hne).
  pose proof (UpdateRefs_acyclic _ _ _ _ _ Hupd) as Hac_a. clear Hupd.
  assert (Hrefs_a : forall v, v ∈ referrers (refs_from_ s_a) ->
            v = pos \/ v ∈ referrers (refs_from_ s)).
  { intros v [q Hq]%referrers_elem_of. rewrite Hga in Hq.
    apply updated_refs_elem_of in Hq as [?|?]; [by left|right].
    by eapply refs_to_referrers. }
  rewrite bind_eq.
  match goal with |- context [for_each ?l ?b s_a] =>
    destruct (for_each l b s_a) as [rb s_b] eqn:Eb end.
  apply placeholders_loop_inv in Eb.
  destruct rb as [[]|e| | |]; try done.
  2:{ destruct Eb as (-> & Hpa & v & Hin & Hbad). intros [= <- <-].
      exists cell. split; [done|]. split.
      { intros Hs. eapply placeholders_added_storage_inv; [exact Hpa|].
        by eapply storage_inv_cells. }
      split. { rewrite (proj1 Hpa). exact Hac_a. }
      split. { rewrite (proj1 Hpa). exact Hne. }
      right. split; [done|]. exists v. split; [|done].
      destruct Hin as [Hin%elem_of_elements|Hin]; [by left|].
      apply Hrefs_a in Hin as [->|?]; [congruence|by right]. }
  2:{ destruct Eb as [HN _]. by intros [= <- <-]. }
  destruct Eb as [Hpa Hall].
  assert (Hpa' : placeholders_added (cell_refs (Some cell)) s_a s_b).
  { eapply placeholders_added_mono; [|exact Hpa]. set_solver. }
  rewrite bind_eq.
  destruct (on_cells (Set_ pos (Some cell)) s_b) as [rc s_c] eqn:Ec.
  apply on_cells_Set_inv in Ec; [|done].
  destruct rc as [[]|e| | |]; try done.
  2:{ destruct Ec as [HN _]. by intros [= <- <-]. }
  destruct Ec as (Hgc & Hlc & Hwc).
  intros [Hinv Hpost]%InvalidateCache_inv.
  destruct r as [[]|e| | |]; try done.
  - exists cell, s_a, s_b, s_c. split_and!; try done.
    intros ref Href. apply Hall. by apply elem_of_elements.
  - destruct Hpost as (-> & v & Hin & Hbad).
    exists cell. split; [done|]. split.
    { intros Hs.
      eapply placeholders_added_storage_inv;
        [exact (invalidations_placeholders_added ∅ _ _ Hinv)|].
      eapply stored_storage_inv; [exact Hv|exact Hlc|exact Hwc|].
      eapply placeholders_added_storage_inv; [exact Hpa|].
      by eapply storage_inv_cells. }
    split.
    { rewrite (proj1 (invalidations_placeholders_added ∅ _ _ Hinv)), Hgc, (proj1 Hpa).
      exact Hac_a. }
    split.
    { rewrite (proj1 (invalidations_placeholders_added ∅ _ _ Hinv)), Hgc, (proj1 Hpa).
      exact Hne. }
    right. split; [done|]. exists v. split; [|done].
    apply elem_of_union in Hin as [->%elem_of_singleton|Hin]; [congruence|].
    rewrite Hgc in Hin. destruct Hpa as (Hgb & _). rewrite Hgb in Hin.
    apply Hrefs_a in Hin as [->|?]; [congruence|by right].
Qed.


(** ** What [SetCell] guarantees *)

(** C2. When [SetCell(pos, text)] fails with a formula syntax error or
    with a circular dependency, the whole sheet -- the grid with every
    stored cell, every cached value, and the graph [refs_from_] -- is
    exactly what it was before the call. *)
Theorem SetCell_failure_atomic (pos : Position) (text : string) (s s' : Sheet) (e : Exn) :
  SetCell pos text s = (Throw e, s') ->
  e = FormulaException \/ e = CircularDependencyException ->
  s' = s.
Proof.
  intros Hrun He. apply SetCell_rec_inv in Hrun.
  destruct He as [->| ->]; by destruct Hrun.
Qed.

(** C6, as the code has it.  [SetCell] builds the candidate cell before it
    looks the position up, so at an invalid position the call fails with
    [FormulaException] when [Cell::Set] rejects the text and with
    [InvalidPositionException] otherwise; either way the sheet is left as
    it was. *)
Theorem SetCell_invalid_position (pos : Position) (text : string) (s : Sheet) :
  IsValid MAX_ROWS MAX_COLS pos = false ->
  SetCell pos text s =
    (match (Cell_Set text Cell_new).1 with
     | Throw FormulaException => Throw FormulaException
     | _ => Throw InvalidPositionException
     end, s).
Proof.
  intros Hv. unfold SetCell. cbn [SetCell_rec]. rewrite bind_eq. unfold make_cell.
  destruct (Cell_Set text Cell_new) as [r0 cell] eqn:Ecell.
  pose proof (Cell_Set_new_inv _ _ _ Ecell) as [[-> _]|[-> ->]]; [|done].
  by rewrite bind_eq, GetCell_eq, Hv.
Qed.

(** C10. A successful [SetCell(pos, text)] changes the grid only at [pos],
    which now holds the new cell, and at referenced positions that held no
    cell, which now hold an Empty placeholder; every other cell keeps its
    content.  In the graph only the membership of [pos] itself in the
    adjacency sets can change. *)
Theorem SetCell_frame (pos : Position) (text : string) (s s' : Sheet) :
  SetCell pos text s = (Ok tt, s') ->
  exists cell,
    Cell_Set text Cell_new = (Ok tt, cell) /\
    cell_at s' pos = Some cell /\
    (forall q, q <> pos ->
       match cell_at s q with
       | Some c => exists c', cell_at s' q = Some c' /\ value_ c' = value_ c
       | None =>
           cell_at s' q = None \/
           (q ∈ Cell_GetReferencedCells cell /\ cell_at s' q = Some Cell_new)
       end) /\
    (forall q r, r <> pos ->
       (r ∈ refs_to (refs_from_ s') q <-> r ∈ refs_to (refs_from_ s) q)).
Proof.
  intros Hrun. apply SetCell_rec_inv in Hrun
    as (cell & s_a & s_b & s_c & Hcell & Hv & Hca & Hga & _ & Hpa & _ & Hgc & Hlc & _
        & Hinv & _).
  pose proof (Cell_Set_new_inv _ _ _ Hcell) as [[_ Hcache]|[? _]]; [|done].
  pose proof (invalidations_placeholders_added ∅ _ _ Hinv) as (Hg' & _ & _ & _ & Hc').
  destruct Hpa as (Hgb & _ & _ & _ & Hcb).
  exists cell. split; [done|]. split; [|split].
  - specialize (Hc' pos). unfold cell_at at 1 in Hc'. rewrite Hlc, decide_True in Hc' by done.
    destruct Hc' as (c' & -> & Hval & Hcc). f_equal.
    destruct c' as [v' k'], cell as [v k]. simpl in *. subst.
    by destruct Hcc as [E|E]; rewrite E.
  - intros q Hne. specialize (Hcb q). specialize (Hc' q).
    unfold cell_at at 1 in Hc'. rewrite Hlc, decide_False in Hc' by done.
    fold (cell_at s_b q) in Hc'.
    assert (cell_at s_a q = cell_at s q) as Heq by (unfold cell_at; by rewrite Hca).
    rewrite Heq in Hcb. destruct (cell_at s q) as [c|].
    + destruct Hcb as (cb & Eb & Hvb & _). rewrite Eb in Hc'.
      destruct Hc' as (c' & E' & Hv' & _). exists c'. split; [done|]. congruence.
    + destruct Hcb as [Eb|(HR & _ & Eb)]; rewrite Eb in Hc'.
      * destruct Hc' as [?|(? & _)]; [by left|set_solver].
      * destruct Hc' as (c' & E' & Hv' & Hk'). right.
        split; [by apply elem_of_list_to_set in HR|].
        rewrite E'. f_equal. destruct c' as [v' k']. simpl in *. subst.
        by destruct Hk' as [E|E]; rewrite E.
  - intros q r Hne. rewrite Hg', Hgc, Hgb, Hga. unfold updated_refs.
    repeat case_decide; set_solver.
Qed.

(** C4. After a successful [SetCell(pos, text)] the cache is empty at
    [pos] and at every position from which [pos] is reached by following
    references, that is at every vertex the walk over [refs_from_]
    reaches from [pos]; the next [GetValue] of such a formula cell runs
    the evaluation and stores its result. *)
Theorem SetCell_invalidates_referrers (pos : Position) (text : string) (s s' : Sheet) :
  SetCell pos text s = (Ok tt, s') ->
  forall q c,
    rtc (edge (refs_from_ s')) pos q ->
    GetCell q s' = (Ok (Some c), s') ->
    cache_ c = None /\
    forall f fuel,
      value_ c = FormulaValueImpl f ->
      Cell_GetValue (S fuel) q c s' =
        (val <- run_evaluation (GetValue fuel) (Formula_Evaluate f) ;;
         modify_state (write_cell q (Cell_set_cache val)) ;;;
         ret (CVFormula val)) s'.
Proof.
  intros Hrun q c Hreach Hget. apply SetCell_rec_inv in Hrun
    as (cell & s_a & s_b & s_c & _ & _ & _ & _ & _ & _ & _ & _ & _ & _ & _ & Hcl).
  assert (Hc : cell_at s' q = Some c).
  { rewrite GetCell_eq in Hget. destruct (IsValid MAX_ROWS MAX_COLS q); congruence. }
  assert (Hcache : cache_ c = None) by (by eapply Hcl).
  split; [done|]. intros f fuel Hf.
  cbn [Cell_GetValue]. by rewrite Hf, Hcache.
Qed.


(** ** Reading values writes caches only *)

Lemma run_evaluation_cache_writes
    (get_value : Position -> M Sheet (option (CellValue FValue))) (e : Evaluation FValue) :
  (forall p s r s', get_value p s = (r, s') -> cache_writes s s') ->
  forall s r s', run_evaluation get_value e s = (r, s') -> cache_writes s s'.
Proof.
  intros Hget. induction e as [v|p k IH]; intros s r s'; cbn [run_evaluation].
  - intros [= <- <-]. apply rtc_refl.
  - rewrite bind_eq. destruct (get_value p s) as [r1 s1] eqn:E1.
    apply Hget in E1. destruct r1; try (intros [= <- <-]; done).
    intros Hk%IH. by eapply rtc_trans.
Qed.

Lemma sheet_value_cache_writes
    (get_value : Position -> Cell -> M Sheet (CellValue FValue)) (p : Position) :
  (forall p c s r s', get_value p c s = (r, s') -> cache_writes s s') ->
  forall s r s', sheet_value get_value p s = (r, s') -> cache_writes s s'.
Proof.
  intros Hget s r s'. unfold sheet_value. rewrite bind_eq, GetCell_eq.
  destruct (IsValid MAX_ROWS MAX_COLS p); [|intros [= <- <-]; apply rtc_refl].
  destruct (cell_at s p) as [c|]; [|intros [= <- <-]; apply rtc_refl].
  rewrite bind_eq. destruct (get_value p c s) as [r1 s1] eqn:E1.
  apply Hget in E1. by destruct r1; intros [= <- <-].
Qed.

Lemma Cell_GetValue_cache_writes (fuel : nat) (pos : Position) (c : Cell) (s : Sheet) r s' :
  Cell_GetValue fuel pos c s = (r, s') -> cache_writes s s'.
Proof.
  revert pos c s r s'. induction fuel as [|fuel IH]; intros pos c s r s';
    cbn [Cell_GetValue]; destruct (value_ c) as [|str|f];
    try (intros [= <- <-]; apply rtc_refl);
    destruct (cache_ c); try (intros [= <- <-]; apply rtc_refl).
  rewrite bind_eq.
  destruct (run_evaluation _ _ s) as [r1 s1] eqn:E1.
  apply run_evaluation_cache_writes in E1.
  2:{ intros p. apply sheet_value_cache_writes. apply IH. }
  destruct r1; try (by intros [= <- <-]).
  rewrite bind_eq. cbn [modify_state ret]. intros [= <- <-].
  eapply rtc_r; [exact E1|]. by constructor.
Qed.

Lemma GetValue_cache_writes (fuel : nat) (pos : Position) (s : Sheet) r s' :
  GetValue fuel pos s = (r, s') -> cache_writes s s'.
Proof.
  apply sheet_value_cache_writes. intros p c. apply Cell_GetValue_cache_writes.
Qed.

Lemma for_each_collect_cache_writes {A B} (l : list A) (body : A -> M Sheet B) :
  (forall x s r s', body x s = (r, s') -> cache_writes s s') ->
  forall s r s', for_each_collect l body s = (r, s') -> cache_writes s s'.
Proof.
  intros Hbody. induction l as [|x l IH]; intros s r s'; cbn [for_each_collect].
  - intros [= <- <-]. apply rtc_refl.
  - rewrite bind_eq. destruct (body x s) as [r1 s1] eqn:E1. apply Hbody in E1.
    destruct r1; try (by intros [= <- <-]).
    rewrite bind_eq. destruct (for_each_collect l body s1) as [r2 s2] eqn:E2.
    apply IH in E2. assert (cache_writes s s2) by (by eapply rtc_trans).
    by destruct r2; intros [= <- <-].
Qed.

Lemma on_cells_Get_eq (pos : Position) (s : Sheet) :
  on_cells (Get pos) s =
    (if IsValid MAX_ROWS MAX_COLS pos then Ok (lookup_cell (cells_ s) pos)
     else Throw InvalidPositionException, s).
Proof. unfold on_cells, zoom. rewrite Get_eq. by destruct s. Qed.

Lemma Sheet_GetPrintableSize_no_write (s : Sheet) r s' :
  Sheet_GetPrintableSize s = (r, s') -> s' = s.
Proof.
  unfold Sheet_GetPrintableSize, on_cells, zoom.
  destruct (GetPrintableSize (cells_ s)) as [r0 st'] eqn:E. intros [= <- <-].
  assert (st' = cells_ s); [|subst; by destruct s].
  revert E. unfold GetPrintableSize. rewrite bind_eq. cbn [get_state].
  rewrite bind_eq. unfold observe at 1. cbn [fst snd].
  destruct (Empty (rows_ (cells_ s))).1 as [e| | | |]; try (by intros [= _ <-]).
  destruct (negb e); [|by intros [= _ <-]].
  rewrite bind_eq. unfold observe at 1. cbn [fst snd].
  destruct (BackIndex (rows_ (cells_ s))).1 as [b| | | |]; try (by intros [= _ <-]).
  rewrite bind_eq. unfold int_add at 1.
  case_bool_decide; [|by intros [= _ <-]]. cbn [ret]. rewrite bind_eq.
  assert (Hcols : forall its acc st r1 st1,
            printable_cols (rows_ (cells_ s)) its acc st = (r1, st1) -> st1 = st).
  { induction its as [|i its IH]; intros acc st r1 st1; cbn [printable_cols].
    - by intros [= _ <-].
    - destruct (data_ (rows_ (cells_ s)) !! i) as [rw|].
      + rewrite bind_eq. unfold observe at 1. cbn [fst snd].
        destruct (Empty rw).1 as [e1| | | |]; try (by intros [= _ <-]).
        destruct (negb e1); [|apply IH].
        rewrite bind_eq. unfold observe at 1. cbn [fst snd].
        destruct (BackIndex rw).1 as [b1| | | |]; try (by intros [= _ <-]).
        rewrite bind_eq. unfold int_add at 1.
        case_bool_decide; [|by intros [= _ <-]]. cbn [ret]. apply IH.
      + rewrite bind_eq. unfold assert_defined. by destruct NDEBUG; intros [= _ <-]. }
  destruct (printable_cols _ _ _ _) as [r1 st1] eqn:E1. apply Hcols in E1 as ->.
  by destruct r1; intros [= _ <-].
Qed.

Lemma Print_cache_writes {X} (printer : Position -> Cell -> M Sheet X) :
  (forall p c s r s', printer p c s = (r, s') -> cache_writes s s') ->
  forall s r s', Print printer s = (r, s') -> cache_writes s s'.
Proof.
  intros Hprinter s r s'. unfold Print. rewrite bind_eq.
  destruct (Sheet_GetPrintableSize s) as [r0 s0] eqn:E0.
  apply Sheet_GetPrintableSize_no_write in E0 as ->.
  destruct r0 as [size| | | |]; try (intros [= <- <-]; apply rtc_refl).
  apply for_each_collect_cache_writes. intros row.
  apply for_each_collect_cache_writes. intros col s1 r1 s1'.
  rewrite bind_eq, on_cells_Get_eq.
  destruct (IsValid _ _ _); [|intros [= <- <-]; apply rtc_refl].
  destruct (lookup_cell _ _) as [[c|]|]; try (intros [= <- <-]; apply rtc_refl).
  rewrite bind_eq. destruct (printer _ c s1) as [r2 s2] eqn:E2. apply Hprinter in E2.
  by destruct r2; intros [= <- <-].
Qed.


(** ** The invariant of the sheet *)

(** [refs_from_] mirrors the formulas: [p] is in [refs_from_[q]] exactly
    when the cell at [p] references [q]. *)
Definition graph_faithful (s : Sheet) : Prop :=
  forall p q,
    p ∈ refs_to (refs_from_ s) q <->
    exists c, cell_at s p = Some c /\ q ∈ Cell_GetReferencedCells c.

Definition Sheet_inv (s : Sheet) : Prop :=
  SheetStorage_wf (cells_ s) /\
  stored_valid (cells_ s) /\
  no_null_cells s /\
  graph_faithful s /\
  no_empty_sets (refs_from_ s).

(** Every position a parsed formula mentions is a valid position. *)
Definition parser_refs_valid : Prop :=
  forall expression f,
    ParseFormula expression = Some f ->
    forall q, q ∈ Formula_GetReferencedCells f -> IsValid MAX_ROWS MAX_COLS q = true.

Lemma Sheet_inv_new : Sheet_inv Sheet_new.
Proof.
  unfold Sheet_inv, Sheet_new. split_and!.
  - split; [apply IndexedStorage_wf_empty|]. simpl. intros i r. by rewrite lookup_empty.
  - intros pos [x Hx]. unfold lookup_cell in Hx. simpl in Hx. by rewrite lookup_empty in Hx.
  - intros q. unfold lookup_cell. simpl. by rewrite lookup_empty.
  - intros p q. unfold refs_to, cell_at, lookup_cell. simpl. rewrite !lookup_empty. split.
    + by intros ?%not_elem_of_empty.
    + by intros (c & ? & _).
  - intros q. simpl. by rewrite lookup_empty.
Qed.

Lemma cache_writes_no_null (s s' : Sheet) :
  cache_writes s s' -> no_null_cells s -> no_null_cells s'.
Proof.
  induction 1 as [|s1 s2 s3 [] _ IH]; [done|]. intros Hn. by apply IH, write_cell_no_null.
Qed.

Lemma cache_writes_Sheet_inv (s s' : Sheet) :
  cache_writes s s' -> Sheet_inv s -> Sheet_inv s'.
Proof.
  intros Hcw (Hwf & Hsv & Hnn & Hgf & Hne). unfold Sheet_inv. split_and!.
  - by eapply cache_writes_wf.
  - by eapply cache_writes_stored_valid.
  - by eapply cache_writes_no_null.
  - intros p q. rewrite (cache_writes_refs_from _ _ Hcw). etrans; [apply Hgf|].
    pose proof (cache_writes_cell_at _ _ p Hcw) as Hm. unfold Cell_GetReferencedCells.
    destruct (cell_at s p) as [c|], (cell_at s' p) as [c'|]; try done.
    split; intros (c0 & [= <-] & Hq); eexists; (split; [done|]).
    + by rewrite Hm.
    + by rewrite <- Hm.
  - by rewrite (cache_writes_refs_from _ _ Hcw).
Qed.

Lemma Cell_Set_refs_valid (text : string) (cell : Cell) :
  parser_refs_valid ->
  Cell_Set text Cell_new = (Ok tt, cell) ->
  forall q, q ∈ Cell_GetReferencedCells cell -> IsValid MAX_ROWS MAX_COLS q = true.
Proof.
  intros Hp. unfold Cell_Set. destruct text as [|front expression].
  { intros [= <-] q Hq. by apply elem_of_nil in Hq. }
  destruct (_ && _).
  - destruct (ParseFormula expression) as [f|] eqn:Ef; [|done].
    intros [= <-] q Hq. by eapply Hp.
  - intros [= <-] q Hq. by apply elem_of_nil in Hq.
Qed.

Lemma graph_faithful_lookup (s : Sheet) (pos d : Position) :
  graph_faithful s -> d ∈ cell_refs (cell_at s pos) -> is_Some (refs_from_ s !! d).
Proof.
  intros Hgf Hd. assert (pos ∈ refs_to (refs_from_ s) d) as Hin.
  { apply Hgf. unfold cell_refs in Hd. destruct (cell_at s pos) as [c|]; [|set_solver].
    exists c. split; [done|]. by apply elem_of_list_to_set in Hd. }
  unfold refs_to in Hin. destruct (refs_from_ s !! d); [eauto|set_solver].
Qed.

Lemma graph_faithful_referrers_valid (s : Sheet) (v : Position) :
  graph_faithful s -> stored_valid (cells_ s) ->
  v ∈ referrers (refs_from_ s) -> IsValid MAX_ROWS MAX_COLS v = true.
Proof.
  intros Hgf Hsv [q Hq]%referrers_elem_of. apply Hgf in Hq as (c & Hc & _).
  apply Hsv. unfold cell_at in Hc. destruct (lookup_cell (cells_ s) v); [eauto|done].
Qed.

(** The cells and the graph after a [SetCell] that returns. *)
Lemma SetCell_rec_cells (depth : nat) (pos : Position) (text : string) (s s' : Sheet) :
  SetCell_rec (S (S depth)) pos text s = (Ok tt, s') ->
  exists cell,
    Cell_Set text Cell_new = (Ok tt, cell) /\
    IsValid MAX_ROWS MAX_COLS pos = true /\
    cell_at s' pos = Some cell /\
    (forall q, q <> pos ->
       match cell_at s q with
       | Some c => exists c', cell_at s' q = Some c' /\ value_ c' = value_ c
       | None =>
           cell_at s' q = None \/
           (q ∈ Cell_GetReferencedCells cell /\ cell_at s' q = Some Cell_new)
       end) /\
    (forall q, q ∈ Cell_GetReferencedCells cell -> is_Some (cell_at s' q)) /\
    (forall q, refs_to (refs_from_ s') q =
               updated_refs pos (cell_refs (cell_at s pos)) (cell_refs (Some cell))
                 (refs_from_ s) q) /\
    (no_empty_sets (refs_from_ s) -> no_empty_sets (refs_from_ s')) /\
    (SheetStorage_wf (cells_ s) -> SheetStorage_wf (cells_ s')) /\
    (stored_valid (cells_ s) -> stored_valid (cells_ s')) /\
    (no_null_cells s -> no_null_cells s').
Proof.
  intros Hrun. apply SetCell_rec_inv in Hrun
    as (cell & s_a & s_b & s_c & Hcell & Hv & Hca & Hga & Hne & Hpa & Hall & Hgc & Hlc & Hwc
        & Hinv & _).
  pose proof (Cell_Set_new_inv _ _ _ Hcell) as [[_ Hcache]|[? _]]; [|done].
  pose proof (invalidations_placeholders_added ∅ _ _ Hinv) as (Hg' & Hw' & Hsv' & Hnn' & Hc').
  destruct Hpa as (Hgb & Hwb & Hsvb & Hnnb & Hcb).
  assert (Hpos : cell_at s' pos = Some cell).
  { specialize (Hc' pos). unfold cell_at at 1 in Hc'. rewrite Hlc, decide_True in Hc' by done.
    destruct Hc' as (c' & -> & Hval & Hcc). f_equal.
    destruct c' as [v' k'], cell as [v k]. simpl in *. subst.
    by destruct Hcc as [E|E]; rewrite E. }
  assert (Hother : forall q, q <> pos ->
    match cell_at s q with
    | Some c => exists c', cell_at s' q = Some c' /\ value_ c' = value_ c
    | None =>
        cell_at s' q = None \/
        (q ∈ Cell_GetReferencedCells cell /\ cell_at s' q = Some Cell_new)
    end).
  { intros q Hneq. specialize (Hcb q). specialize (Hc' q).
    unfold cell_at at 1 in Hc'. rewrite Hlc, decide_False in Hc' by done.
    fold (cell_at s_b q) in Hc'.
    assert (cell_at s_a q = cell_at s q) as Heq by (unfold cell_at; by rewrite Hca).
    rewrite Heq in Hcb. destruct (cell_at s q) as [c|].
    + destruct Hcb as (cb & Eb & Hvb & _). rewrite Eb in Hc'.
      destruct Hc' as (c' & E' & Hv' & _). exists c'. split; [done|]. congruence.
    + destruct Hcb as [Eb|(HR & _ & Eb)]; rewrite Eb in Hc'.
      * destruct Hc' as [?|(? & _)]; [by left|set_solver].
      * destruct Hc' as (c' & E' & Hv' & Hk'). right.
        split; [by apply elem_of_list_to_set in HR|].
        rewrite E'. f_equal. destruct c' as [v' k']. simpl in *. subst.
        by destruct Hk' as [E|E]; rewrite E. }
  exists cell. split_and!; try done.
  - intros q Hq. destruct (decide (q = pos)) as [->|Hneq]; [by rewrite Hpos|].
    destruct (Hall q) as [cb Hb]; [by apply elem_of_list_to_set|].
    specialize (Hc' q). unfold cell_at at 1 in Hc'. rewrite Hlc, decide_False in Hc' by done.
    fold (cell_at s_b q) in Hc'. rewrite Hb in Hc'. destruct Hc' as (c' & -> & _). eauto.
  - intros q. by rewrite Hg', Hgc, Hgb, Hga.
  - intros H. rewrite Hg', Hgc, Hgb. by apply Hne.
  - intros H. apply Hw', Hwc, Hwb. by rewrite Hca.
  - intros H. apply Hsv'. intros q. rewrite Hlc. case_decide; [by subst|].
    apply Hsvb. by rewrite Hca.
  - intros H. apply Hnn'. intros q. rewrite Hlc. case_decide; [done|].
    apply Hnnb. intros q'. by rewrite Hca.
Qed.


Lemma SetCell_Sheet_inv (pos : Position) (text : string) (s : Sheet) r s' :
  parser_refs_valid -> Sheet_inv s ->
  SetCell pos text s = (r, s') ->
  match r with
  | Ok _ | Throw _ => Sheet_inv s'
  | Abort => NDEBUG = false
  | Undefined | OutOfFuel => False
  end.
Proof.
  intros Hp Hinv Hrun. pose proof Hinv as (Hwf & Hsv & Hnn & Hgf & Hne).
  destruct r as [[]|e| | |].
  - apply SetCell_rec_cells in Hrun
      as (cell & Hcell & Hv & Hpos & Hother & _ & Hrefs & Hne' & Hwf' & Hsv' & Hnn').
    unfold Sheet_inv. split_and!; [by auto..| |by auto].
    intros p q. rewrite Hrefs. unfold updated_refs.
    destruct (decide (p = pos)) as [->|Hneq].
    + rewrite Hpos. specialize (Hgf pos q).
      assert (pos ∈ refs_to (refs_from_ s) q <->
              q ∈ cell_refs (cell_at s pos)) as Hold.
      { rewrite Hgf. unfold cell_refs. destruct (cell_at s pos) as [c|].
        - rewrite elem_of_list_to_set. split; [by intros (c0 & [= <-] & ?)|eauto].
        - split; [by intros (c0 & ? & _)|set_solver]. }
      assert ((exists c, Some cell = Some c /\ q ∈ Cell_GetReferencedCells c) <->
              q ∈ cell_refs (Some cell)) as ->.
      { unfold cell_refs. rewrite elem_of_list_to_set.
        split; [by intros (c0 & [= <-] & ?)|eauto]. }
      set (old := cell_refs (cell_at s pos)) in *.
      set (new := cell_refs (Some cell)) in *. clearbody old new.
      clear - Hold. destruct (decide (q ∈ old)), (decide (q ∈ new));
        repeat case_decide; set_solver.
    + specialize (Hother p Hneq). specialize (Hgf p q).
      assert (p ∈ refs_to (refs_from_ s) q <->
              exists c, cell_at s' p = Some c /\ q ∈ Cell_GetReferencedCells c) as <-.
      { rewrite Hgf. destruct (cell_at s p) as [c|].
        - destruct Hother as (c' & -> & Hval). unfold Cell_GetReferencedCells.
          split; intros (c0 & [= <-] & Hq); eexists; (split; [done|]).
          + by rewrite Hval.
          + by rewrite <- Hval.
        - destruct Hother as [->|[_ ->]].
          + done.
          + split; [by intros (c0 & ? & _)|].
            intros (c0 & [= <-] & Hq). by apply elem_of_nil in Hq. }
      set (old := cell_refs (cell_at s pos)) in *.
      set (new := cell_refs (Some cell)) in *. clearbody old new.
      clear - Hneq. destruct (decide (q ∈ old)), (decide (q ∈ new));
        repeat case_decide; set_solver.
  - apply SetCell_rec_inv in Hrun. destruct e.
    + destruct Hrun as (cell & Hcell & _ & _ & _ & [[_ ->]|[Hv (v & Hin & Hbad)]]); [done|].
      exfalso. destruct Hin as [Hin|Hin].
      * apply elem_of_list_to_set in Hin.
        pose proof (Cell_Set_refs_valid _ _ Hp Hcell _ Hin). congruence.
      * pose proof (graph_faithful_referrers_valid _ _ Hgf Hsv Hin). congruence.
    + by destruct Hrun as [-> _].
    + by destruct Hrun as [-> _].
    + done.
  - by apply SetCell_rec_inv in Hrun.
  - apply SetCell_rec_inv in Hrun. apply Hrun. intros d Hd.
    by eapply graph_faithful_lookup.
  - by apply SetCell_rec_inv in Hrun.
Qed.

(** [cells_.Clear(pos)] on the sheet. *)
Lemma on_cells_Clear_inv (pos : Position) (s : Sheet) r s1 :
  IsValid MAX_ROWS MAX_COLS pos = true ->
  on_cells (Clear pos) s = (r, s1) ->
  match r with
  | Ok _ =>
      refs_from_ s1 = refs_from_ s /\
      (forall q, lookup_cell (cells_ s1) q =
                 if decide (q = pos) then None else lookup_cell (cells_ s) q) /\
      (SheetStorage_wf (cells_ s) -> SheetStorage_wf (cells_ s1))
  | Throw _ => False
  | _ => ~ SheetStorage_wf (cells_ s)
  end.
Proof.
  intros Hv. unfold on_cells, zoom.
  destruct (Clear pos (cells_ s)) as [r0 st'] eqn:E. intros [= <- <-].
  pose proof (Clear_inv _ _ _ _ Hv E) as Hl.
  assert (Hwf : SheetStorage_wf (cells_ s) -> r0 = Ok tt /\ SheetStorage_wf st').
  { intros Hwf. destruct (Clear_wf _ pos Hwf Hv) as (st'' & E' & Hwf').
    rewrite E in E'. by injection E' as -> ->. }
  destruct r0 as [[]|e| | |]; try done; try (by intros [? _]%Hwf).
  split; [done|]. split; [done|]. simpl. by intros [_ ?]%Hwf.
Qed.

Lemma ClearCell_Sheet_inv (pos : Position) (s : Sheet) r s' :
  Sheet_inv s ->
  ClearCell pos s = (r, s') ->
  match r with
  | Ok _ | Throw _ => Sheet_inv s'
  | Abort => NDEBUG = false
  | Undefined | OutOfFuel => False
  end.
Proof.
  intros Hinv. pose proof Hinv as (Hwf & Hsv & Hnn & Hgf & Hne).
  unfold ClearCell. rewrite bind_eq, GetCellImpl_eq.
  destruct (IsValid MAX_ROWS MAX_COLS pos) eqn:Hv; [|by intros [= <- <-]].
  destruct (cell_at s pos) as [c|] eqn:Hc; [|by intros [= <- <-]].
  rewrite bind_eq. fold (cell_refs (Some c)).
  destruct (UpdateRefs pos (cell_refs (Some c)) ∅ s) as [ra s_a] eqn:Ea.
  apply UpdateRefs_inv in Ea.
  destruct ra as [[]|e| | |]; try done.
  2:{ destruct Ea as [_ ->]. by intros [= <- <-]. }
  2:{ by intros [= <- <-]. }
  2:{ exfalso. apply Ea. intros d Hd. eapply graph_faithful_lookup; [done|].
      rewrite Hc. set_solver. }
  destruct Ea as (Hca & Hga & Hne').
  intros Hclear. apply on_cells_Clear_inv in Hclear; [|done].
  rewrite Hca in Hclear.
  destruct r as [[]|e| | |]; try done.
  destruct Hclear as (Hg' & Hl & Hwf').
  assert (Hcell : forall q, cell_at s' q = if decide (q = pos) then None else cell_at s q).
  { intros q. unfold cell_at. rewrite Hl. by case_decide. }
  unfold Sheet_inv. split_and!.
  - by apply Hwf'.
  - intros q. rewrite Hl. case_decide; [by intros [? ?]|]. apply Hsv.
  - intros q. rewrite Hl. case_decide; [done|]. apply Hnn.
  - intros p q. rewrite Hg', Hga, Hcell. unfold updated_refs.
    specialize (Hgf p q). destruct (decide (p = pos)) as [->|Hneq].
    + assert (pos ∈ refs_to (refs_from_ s) q <-> q ∈ cell_refs (Some c)) as Hold.
      { rewrite Hgf, Hc. unfold cell_refs. rewrite elem_of_list_to_set.
        split; [by intros (c0 & [= <-] & ?)|eauto]. }
      split; [|by intros (c0 & ? & _)].
      set (old := cell_refs (Some c)) in *. clearbody old.
      clear - Hold. destruct (decide (q ∈ old)); repeat case_decide; set_solver.
    + rewrite <- Hgf. set (old := cell_refs (Some c)) in *. clearbody old.
      clear - Hneq. destruct (decide (q ∈ old)); repeat case_decide; set_solver.
  - rewrite Hg'. by apply Hne'.
Qed.


(** ** The states a sheet can be in *)

(** The call returned or threw: the caller goes on with the sheet. *)
Definition survives {A} (r : outcome A) : Prop :=
  match r with
  | Ok _ | Throw _ => True
  | _ => False
  end.

(** One public operation. *)
Inductive Sheet_step : Sheet -> Sheet -> Prop :=
| step_SetCell pos text s r s' :
    SetCell pos text s = (r, s') -> survives r -> Sheet_step s s'
| step_ClearCell pos s r s' :
    ClearCell pos s = (r, s') -> survives r -> Sheet_step s s'
| step_GetCell pos s r s' :
    GetCell pos s = (r, s') -> survives r -> Sheet_step s s'
| step_GetValue fuel pos s r s' :
    GetValue fuel pos s = (r, s') -> survives r -> Sheet_step s s'
| step_GetPrintableSize s r s' :
    Sheet_GetPrintableSize s = (r, s') -> survives r -> Sheet_step s s'
| step_PrintValues fuel s r s' :
    PrintValues fuel s = (r, s') -> survives r -> Sheet_step s s'
| step_PrintTexts s r s' :
    PrintTexts s = (r, s') -> survives r -> Sheet_step s s'.

(** The sheets that public operations produce from [CreateSheet()]. *)
Definition reachable (s : Sheet) : Prop := rtc Sheet_step Sheet_new s.

Lemma Sheet_step_inv (s s' : Sheet) :
  parser_refs_valid -> Sheet_inv s -> Sheet_step s s' -> Sheet_inv s'.
Proof.
  intros Hp Hinv Hstep. destruct Hstep as
    [pos text s r s' Hrun Hr|pos s r s' Hrun Hr|pos s r s' Hrun Hr|fuel pos s r s' Hrun Hr
    |s r s' Hrun Hr|fuel s r s' Hrun Hr|s r s' Hrun Hr].
  - pose proof (SetCell_Sheet_inv _ _ _ _ _ Hp Hinv Hrun). by destruct r.
  - pose proof (ClearCell_Sheet_inv _ _ _ _ Hinv Hrun). by destruct r.
  - rewrite GetCell_eq in Hrun. by injection Hrun as _ <-.
  - apply GetValue_cache_writes in Hrun. by eapply cache_writes_Sheet_inv.
  - by apply Sheet_GetPrintableSize_no_write in Hrun as ->.
  - apply Print_cache_writes in Hrun; [by eapply cache_writes_Sheet_inv|].
    intros p c. apply Cell_GetValue_cache_writes.
  - apply Print_cache_writes in Hrun; [by eapply cache_writes_Sheet_inv|].
    intros p c s0 r0 s0' [= _ <-]. apply rtc_refl.
Qed.

Lemma reachable_Sheet_inv (s : Sheet) :
  parser_refs_valid -> reachable s -> Sheet_inv s.
Proof.
  intros Hp Hreach. unfold reachable in Hreach. revert s Hreach. apply rtc_ind_r.
  - apply Sheet_inv_new.
  - intros s1 s2 _ Hstep IH. by eapply Sheet_step_inv.
Qed.

(** The grid side of the invariant needs nothing from the parser: it
    survives also the calls that throw half-way. *)
Lemma SetCell_storage_inv (pos : Position) (text : string) (s : Sheet) r s' :
  storage_inv s -> SetCell pos text s = (r, s') -> survives r -> storage_inv s'.
Proof.
  intros Hs Hrun Hr. destruct r as [[]|e| | |]; try done.
  - apply SetCell_rec_cells in Hrun as (cell & _ & _ & _ & _ & _ & _ & _ & Hw & Hv & Hn).
    destruct Hs as (Hwf & Hsv & Hnn). split_and!; auto.
  - apply SetCell_rec_inv in Hrun. destruct e.
    + destruct Hrun as (cell & _ & Hkeep & _). auto.
    + by destruct Hrun as [-> _].
    + by destruct Hrun as [-> _].
    + done.
Qed.

Lemma ClearCell_storage_inv (pos : Position) (s : Sheet) r s' :
  storage_inv s -> ClearCell pos s = (r, s') -> survives r -> storage_inv s'.
Proof.
  intros Hs. pose proof Hs as (Hwf & Hsv & Hnn).
  unfold ClearCell. rewrite bind_eq, GetCellImpl_eq.
  destruct (IsValid MAX_ROWS MAX_COLS pos) eqn:Hv; [|by intros [= <- <-]].
  destruct (cell_at s pos) as [c|] eqn:Hc; [|by intros [= <- <-]].
  rewrite bind_eq. fold (cell_refs (Some c)).
  destruct (UpdateRefs pos (cell_refs (Some c)) ∅ s) as [ra s_a] eqn:Ea.
  apply UpdateRefs_inv in Ea.
  destruct ra as [[]|e| | |]; try (by intros [= <- <-]).
  2:{ destruct Ea as [_ ->]. by intros [= <- <-]. }
  destruct Ea as (Hca & _ & _).
  intros Hclear Hr. apply on_cells_Clear_inv in Hclear; [|done].
  rewrite Hca in Hclear.
  destruct r as [[]|e| | |]; try done.
  destruct Hclear as (_ & Hl & Hwf').
  split_and!.
  - by apply Hwf'.
  - intros q. rewrite Hl. case_decide; [by intros [? ?]|]. apply Hsv.
  - intros q. rewrite Hl. case_decide; [done|]. apply Hnn.
Qed.

Lemma cache_writes_storage_inv (s s' : Sheet) :
  cache_writes s s' -> storage_inv s -> storage_inv s'.
Proof.
  intros Hcw (Hwf & Hsv & Hnn). split_and!.
  - by eapply cache_writes_wf.
  - by eapply cache_writes_stored_valid.
  - by eapply cache_writes_no_null.
Qed.

Lemma Sheet_step_storage_inv (s s' : Sheet) :
  storage_inv s -> Sheet_step s s' -> storage_inv s'.
Proof.
  intros Hinv Hstep. destruct Hstep as
    [pos text s r s' Hrun Hr|pos s r s' Hrun Hr|pos s r s' Hrun Hr|fuel pos s r s' Hrun Hr
    |s r s' Hrun Hr|fuel s r s' Hrun Hr|s r s' Hrun Hr].
  - by eapply SetCell_storage_inv.
  - by eapply ClearCell_storage_inv.
  - rewrite GetCell_eq in Hrun. by injection Hrun as _ <-.
  - apply GetValue_cache_writes in Hrun. by eapply cache_writes_storage_inv.
  - by apply Sheet_GetPrintableSize_no_write in Hrun as ->.
  - apply Print_cache_writes in Hrun; [by eapply cache_writes_storage_inv|].
    intros p c. apply Cell_GetValue_cache_writes.
  - apply Print_cache_writes in Hrun; [by eapply cache_writes_storage_inv|].
    intros p c s0 r0 s0' [= _ <-]. apply rtc_refl.
Qed.

Lemma reachable_storage_inv (s : Sheet) : reachable s -> storage_inv s.
Proof.
  unfold reachable. revert s. apply rtc_ind_r.
  - destruct Sheet_inv_new as (? & ? & ? & _). by split_and!.
  - intros s1 s2 _ Hstep IH. by eapply Sheet_step_storage_inv.
Qed.

(** [SetCell] stops at the cycle check when an added target is reached
    from [pos] over the references the edit keeps. *)
Lemma SetCell_rec_complete (depth : nat) (pos : Position) (text : string) (s : Sheet)
    (cell : Cell) r s' :
  Cell_Set text Cell_new = (Ok tt, cell) ->
  IsValid MAX_ROWS MAX_COLS pos = true ->
  (exists a, a ∈ cell_refs (Some cell) ∖ cell_refs (cell_at s pos) /\
             rtc (kept_edge pos (cell_refs (cell_at s pos) ∖ cell_refs (Some cell))
                    (refs_from_ s)) pos a) ->
  SetCell_rec (S depth) pos text s = (r, s') ->
  (r = Throw CircularDependencyException /\ s' = s) \/ (r = Abort /\ NDEBUG = false).
Proof.
  intros Hcell Hv Hcyc. cbn [SetCell_rec]. rewrite bind_eq. unfold make_cell. rewrite Hcell.
  rewrite bind_eq, GetCell_eq, Hv.
  fold (cell_refs (cell_at s pos)). fold (cell_refs (Some cell)). rewrite bind_eq.
  destruct (UpdateRefs pos (cell_refs (cell_at s pos)) (cell_refs (Some cell)) s)
    as [ra s_a] eqn:Ea.
  pose proof (UpdateRefs_complete _ _ _ _ _ _ Hcyc Ea) as [->|[-> HN]].
  - apply UpdateRefs_inv in Ea as [_ ->]. intros [= <- <-]. by left.
  - intros [= <- <-]. by right.
Qed.

Lemma SetCell_acyclic (pos : Position) (text : string) (s : Sheet) r s' :
  acyclic (refs_from_ s) -> SetCell pos text s = (r, s') -> survives r ->
  acyclic (refs_from_ s').
Proof.
  intros Hac Hrun Hr. destruct r as [[]|e| | |]; try done.
  - pose proof Hrun as Hrun'.
    apply SetCell_rec_cells in Hrun' as (cell & Hcell & Hv & _ & _ & _ & Hg & _).
    intros [v Hcyc].
    destruct (SetCell_rec_complete 1 pos text s cell (Ok tt) s' Hcell Hv) as [[? _]|[? _]];
      [|exact Hrun|done..].
    apply new_cycle_through_added; [done|]. exists v.
    apply (tc_congruence id (updated_edge pos (cell_refs (cell_at s pos))
             (cell_refs (Some cell)) (refs_from_ s))) in Hcyc; [done|].
    intros x y Hxy. unfold updated_edge. rewrite <- Hg. exact Hxy.
  - apply SetCell_rec_inv in Hrun. destruct e.
    + destruct Hrun as (cell & _ & _ & Hkeep & _). auto.
    + by destruct Hrun as [-> _].
    + by destruct Hrun as [-> _].
    + done.
Qed.

Lemma ClearCell_acyclic (pos : Position) (s : Sheet) r s' :
  acyclic (refs_from_ s) -> ClearCell pos s = (r, s') -> survives r ->
  acyclic (refs_from_ s').
Proof.
  intros Hac. unfold ClearCell. rewrite bind_eq, GetCellImpl_eq.
  destruct (IsValid MAX_ROWS MAX_COLS pos) eqn:Hv; [|by intros [= <- <-]].
  destruct (cell_at s pos) as [c|] eqn:Hc; [|by intros [= <- <-]].
  rewrite bind_eq. fold (cell_refs (Some c)).
  destruct (UpdateRefs pos (cell_refs (Some c)) ∅ s) as [ra s_a] eqn:Ea.
  destruct ra as [[]|e| | |]; try (by intros [= <- <-]).
  2:{ apply UpdateRefs_inv in Ea as [_ ->]. by intros [= <- <-]. }
  pose proof (UpdateRefs_acyclic _ _ _ _ _ Ea Hac) as Hac_a.
  intros Hclear Hr. apply on_cells_Clear_inv in Hclear; [|done].
  destruct r as [[]|e| | |]; try done.
  destruct Hclear as (-> & _). done.
Qed.

Lemma Sheet_step_acyclic (s s' : Sheet) :
  acyclic (refs_from_ s) -> Sheet_step s s' -> acyclic (refs_from_ s').
Proof.
  intros Hac Hstep. destruct Hstep as
    [pos text s r s' Hrun Hr|pos s r s' Hrun Hr|pos s r s' Hrun Hr|fuel pos s r s' Hrun Hr
    |s r s' Hrun Hr|fuel s r s' Hrun Hr|s r s' Hrun Hr].
  - by eapply SetCell_acyclic.
  - by eapply ClearCell_acyclic.
  - rewrite GetCell_eq in Hrun. by injection Hrun as _ <-.
  - apply GetValue_cache_writes in Hrun. by rewrite (cache_writes_refs_from _ _ Hrun).
  - by apply Sheet_GetPrintableSize_no_write in Hrun as ->.
  - apply Print_cache_writes in Hrun; [by rewrite (cache_writes_refs_from _ _ Hrun)|].
    intros p c. apply Cell_GetValue_cache_writes.
  - apply Print_cache_writes in Hrun; [by rewrite (cache_writes_refs_from _ _ Hrun)|].
    intros p c s0 r0 s0' [= _ <-]. apply rtc_refl.
Qed.





(** [SetCell] fails before it touches the sheet when [Cell::Set] rejects
    the text, and otherwise when [GetCell(pos)] rejects the position. *)
Lemma SetCell_rec_early (depth : nat) (pos : Position) (text : string) (s : Sheet) :
  (Cell_Set text Cell_new).1 = Throw FormulaException \/
  IsValid MAX_ROWS MAX_COLS pos = false ->
  SetCell_rec (S depth) pos text s =
    (match (Cell_Set text Cell_new).1 with
     | Throw FormulaException => Throw FormulaException
     | _ => Throw InvalidPositionException
     end, s).
Proof.
  intros H. cbn [SetCell_rec]. rewrite bind_eq. unfold make_cell.
  destruct (Cell_Set text Cell_new) as [r0 cell] eqn:Ecell.
  pose proof (Cell_Set_new_inv _ _ _ Ecell) as [[-> _]|[-> ->]]; [|done].
  destruct H as [H|Hv]; [done|]. by rewrite bind_eq, GetCell_eq, Hv.
Qed.

(** ** The same text written twice *)

(** An edit that keeps every reference, in a build without assertions:
    [UpdateRefs] finds nothing to add and nothing to remove. *)
Lemma UpdateRefs_same (pos : Position) (refs : gset Position) (s : Sheet) :
  NDEBUG = true -> UpdateRefs pos refs refs s = (Ok tt, s).
Proof.
  intros HN. unfold UpdateRefs. rewrite bind_eq. cbn [get_state]. rewrite bind_eq.
  match goal with |- context [for_each_acc ?l ?a ?b s] =>
    destruct (for_each_acc l a b s) as [r1 s1] eqn:E1 end.
  apply (for_each_acc_collect (fun x => bool_decide (x ∉ refs))
           (fun x => negb (has_ref (refs_from_ s) x pos))
           (fun x => has_ref (refs_from_ s) x pos)) in E1
    as [-> [->|(_ & ? & _)]]; [|congruence].
  rewrite collected_difference, difference_diag_L. rewrite bind_eq.
  match goal with |- context [for_each_acc ?l ?a ?b s] =>
    destruct (for_each_acc l a b s) as [r2 s2] eqn:E2 end.
  apply (for_each_acc_collect (fun x => bool_decide (x ∉ refs))
           (fun x => has_ref (refs_from_ s) x pos)
           (fun x => negb (has_ref (refs_from_ s) x pos))) in E2
    as [-> [->|(_ & ? & _)]]; [|congruence].
  rewrite collected_difference, difference_diag_L, elements_empty.
  cbn [for_each]. by rewrite !bind_eq.
Qed.

(** No placeholder is made for a reference whose cell exists. *)
Lemma placeholders_loop_present (depth : nat) (l : list Position) (s : Sheet) :
  (forall ref, ref ∈ l ->
     IsValid MAX_ROWS MAX_COLS ref = true /\ is_Some (cell_at s ref)) ->
  for_each l (fun ref =>
    c <- GetCell ref ;;
    match c with
    | None => SetCell_rec depth ref EmptyString
    | Some _ => ret tt
    end) s = (Ok tt, s).
Proof.
  induction l as [|ref l IH]; intros Hl; cbn [for_each]; [done|].
  destruct (Hl ref) as [Hv [c Hc]]; [by left|].
  rewrite bind_eq, bind_eq, GetCell_eq, Hv, Hc. cbn [ret].
  apply IH. intros x Hx. apply Hl. by right.
Qed.

Lemma stored_or_empty {T} (st : SheetStorage T) :
  SheetStorage_wf st ->
  (forall pos, lookup_cell st pos = None) \/ (exists pos, is_Some (lookup_cell st pos)).
Proof.
  intros [_ Hrows]. destruct (decide (data_ (rows_ st) = ∅)) as [Hemp|Hne].
  - left. intros pos. unfold lookup_cell. by rewrite Hemp, lookup_empty.
  - right. apply map_choose in Hne as (i & r & Hr).
    destruct (Hrows _ _ Hr) as [_ Hr_ne]. apply map_choose in Hr_ne as (j & x & Hx).
    exists (mkPos i j). unfold lookup_cell. simpl. rewrite Hr, Hx. eauto.
Qed.

(** The printable size is a function of the set of stored positions. *)
Lemma printable_box_unique {T} (st st' : SheetStorage T) (sz sz' : Size) :
  SheetStorage_wf st ->
  (forall pos, is_Some (lookup_cell st pos) <-> is_Some (lookup_cell st' pos)) ->
  printable_box st sz -> printable_box st' sz' -> sz = sz'.
Proof.
  intros Hwf Hsame (Hbox & Hzero & Hmax) (Hbox' & Hzero' & Hmax').
  destruct (stored_or_empty st Hwf) as [Hnone|Hsome].
  - rewrite (Hzero Hnone). symmetry. apply Hzero'. intros pos.
    specialize (Hsame pos). rewrite Hnone in Hsame.
    destruct (lookup_cell st' pos); [|done]. by destruct (proj2 Hsame).
  - assert (Hsome' : exists pos, is_Some (lookup_cell st' pos)).
    { destruct Hsome as [pos Hs]. exists pos. by apply Hsame. }
    destruct (Hmax Hsome) as [(p1 & H1 & E1) (p2 & H2 & E2)].
    destruct (Hmax' Hsome') as [(q1 & G1 & F1) (q2 & G2 & F2)].
    pose proof (Hbox' p1 (proj1 (Hsame _) H1)) as [? _].
    pose proof (Hbox' p2 (proj1 (Hsame _) H2)) as [_ ?].
    pose proof (Hbox q1 (proj2 (Hsame _) G1)) as [? _].
    pose proof (Hbox q2 (proj2 (Hsame _) G2)) as [_ ?].
    destruct sz, sz'. simpl in *. f_equal; lia.
Qed.

Lemma SetCell_rec_eq (depth : nat) (pos : Position) (text : string) :
  SetCell_rec (S depth) pos text =
    (cell <- make_cell text ;;
     old_cell <- GetCell pos ;;
     UpdateRefs pos (cell_refs old_cell) (cell_refs (Some cell)) ;;;
     for_each (elements (cell_refs (Some cell))) (fun ref =>
       c <- GetCell ref ;;
       match c with
       | None => SetCell_rec depth ref EmptyString
       | Some _ => ret tt
       end) ;;;
     on_cells (Set_ pos (Some cell)) ;;;
     InvalidateCache pos).
Proof. reflexivity. Qed.

Lemma SetCell_rec_twice (pos : Position) (text : string) (s s1 : Sheet) :
  NDEBUG = true -> Sheet_inv s1 ->
  SetCell pos text s = (Ok tt, s1) ->
  exists s2,
    SetCell pos text s1 = (Ok tt, s2) /\
    refs_from_ s2 = refs_from_ s1 /\
    (forall q, match cell_at s1 q with
               | Some c => exists c', cell_at s2 q = Some c' /\ value_ c' = value_ c
               | None => cell_at s2 q = None
               end) /\
    storage_inv s2.
Proof.
  intros HN (Hwf & Hsv & Hnn & Hgf & Hne) Hrun.
  apply SetCell_rec_cells in Hrun as (cell & Hcell & Hv & Hpos & _ & Hall & _).
  unfold SetCell. rewrite SetCell_rec_eq, bind_eq. unfold make_cell. rewrite Hcell.
  rewrite bind_eq, GetCell_eq, Hv, Hpos.
  rewrite bind_eq, (UpdateRefs_same _ _ _ HN).
  rewrite bind_eq, placeholders_loop_present.
  2:{ intros ref Href%elem_of_elements%elem_of_list_to_set.
      pose proof (Hall ref Href) as Hsome. split; [|done]. apply Hsv.
      unfold cell_at in Hsome. destruct (lookup_cell (cells_ s1) ref); [eauto|].
      by destruct Hsome. }
  rewrite bind_eq.
  destruct (on_cells (Set_ pos (Some cell)) s1) as [rc s_c] eqn:Ec.
  apply on_cells_Set_inv in Ec; [|done].
  destruct rc as [[]|e| | |]; try done.
  2:{ destruct Ec as [? _]. congruence. }
  destruct Ec as (Hgc & Hlc & Hwc).
  destruct (InvalidateCache pos s_c) as [r2 s2] eqn:E2.
  apply InvalidateCache_inv in E2 as [Hinv Hpost].
  destruct r2 as [[]|e| | |]; try done.
  2:{ exfalso. destruct Hpost as (_ & v & Hin & Hbad). rewrite Hgc in Hin.
      apply elem_of_union in Hin as [->%elem_of_singleton|Hin]; [congruence|].
      pose proof (graph_faithful_referrers_valid _ _ Hgf Hsv Hin). congruence. }
  pose proof (invalidations_placeholders_added ∅ _ _ Hinv) as Hpa.
  exists s2. split; [done|]. split; [by rewrite (proj1 Hpa), Hgc|]. split.
  - intros q. destruct Hpa as (_ & _ & _ & _ & Hc). specialize (Hc q).
    assert (cell_at s_c q = cell_at s1 q) as Heq.
    { unfold cell_at at 1. rewrite Hlc. case_decide; [by subst|done]. }
    rewrite Heq in Hc. destruct (cell_at s1 q) as [c|].
    + destruct Hc as (c' & ? & ? & _). eauto.
    + destruct Hc as [?|[? _]]; [done|set_solver].
  - eapply placeholders_added_storage_inv; [exact Hpa|].
    eapply stored_storage_inv; [exact Hv|exact Hlc|exact Hwc|]. by split_and!.
Qed.

(** X3. Without assertions, a [SetCell] that repeats the call before it
    returns as well, and it leaves the graph, the content of every cell
    and the printable size as they were. *)
Theorem SetCell_twice_without_asserts (pos : Position) (text : string) (s s1 : Sheet) :
  NDEBUG = true -> parser_refs_valid ->
  MAX_ROWS <= 2 ^ 31 - 1 -> MAX_COLS <= 2 ^ 31 - 1 ->
  reachable s ->
  SetCell pos text s = (Ok tt, s1) ->
  exists s2 sz,
    SetCell pos text s1 = (Ok tt, s2) /\
    refs_from_ s2 = refs_from_ s1 /\
    (forall q, match cell_at s1 q with
               | Some c => exists c', cell_at s2 q = Some c' /\ value_ c' = value_ c
               | None => cell_at s2 q = None
               end) /\
    Sheet_GetPrintableSize s1 = (Ok sz, s1) /\
    Sheet_GetPrintableSize s2 = (Ok sz, s2).
Proof.
  intros HN Hp Hmr Hmc Hreach Hrun.
  assert (Hinv1 : Sheet_inv s1).
  { exact (SetCell_Sheet_inv _ _ _ _ _ Hp (reachable_Sheet_inv _ Hp Hreach) Hrun). }
  destruct (SetCell_rec_twice _ _ _ _ HN Hinv1 Hrun) as (s2 & Hrun2 & Hg & Hc & Hs2).
  destruct Hinv1 as (Hwf & Hsv & Hnn & _).
  destruct Hs2 as (Hwf2 & Hsv2 & Hnn2).
  destruct (GetPrintableSize_wf _ Hwf Hsv Hmr Hmc) as (sz & Hsz & Hbox).
  destruct (GetPrintableSize_wf _ Hwf2 Hsv2 Hmr Hmc) as (sz2 & Hsz2 & Hbox2).
  assert (sz = sz2) as <-.
  { eapply printable_box_unique; [exact Hwf| |done..].
    intros q. rewrite <- !cell_at_is_Some by done. specialize (Hc q).
    destruct (cell_at s1 q) as [c|].
    - destruct Hc as (c' & -> & _). split; eauto.
    - rewrite Hc. done. }
  exists s2, sz. split_and!; try done.
  - unfold Sheet_GetPrintableSize, on_cells, zoom. rewrite Hsz. by destruct s1.
  - unfold Sheet_GetPrintableSize, on_cells, zoom. rewrite Hsz2. by destruct s2.
Qed.

(** X5. On a sheet that public operations produce, the outcome of
    [SetCell] is decided in this order.  It throws [FormulaException]
    exactly when [Cell::Set] rejects the text, in either build and at any
    position; it throws [InvalidPositionException] exactly when the text
    is accepted and the position is invalid.  Every other outcome needs an
    accepted text and a valid position: the call returns, or throws
    [CircularDependencyException], or stops at an assertion, and this only
    in a build that has them.  It never runs into undefined behaviour nor
    out of the budget of its walks. *)
Theorem SetCell_outcomes (pos : Position) (text : string) (s : Sheet) r s' :
  parser_refs_valid -> reachable s ->
  SetCell pos text s = (r, s') ->
  (r = Throw FormulaException <-> (Cell_Set text Cell_new).1 = Throw FormulaException) /\
  (r = Throw InvalidPositionException <->
     (Cell_Set text Cell_new).1 = Ok tt /\ IsValid MAX_ROWS MAX_COLS pos = false) /\
  match r with
  | Ok _ | Throw CircularDependencyException =>
      (Cell_Set text Cell_new).1 = Ok tt /\ IsValid MAX_ROWS MAX_COLS pos = true
  | Abort =>
      NDEBUG = false /\
      (Cell_Set text Cell_new).1 = Ok tt /\ IsValid MAX_ROWS MAX_COLS pos = true
  | Throw FormulaException => (Cell_Set text Cell_new).1 = Throw FormulaException
  | Throw InvalidPositionException =>
      (Cell_Set text Cell_new).1 = Ok tt /\ IsValid MAX_ROWS MAX_COLS pos = false
  | Throw invalid_argument | Undefined | OutOfFuel => False
  end.
Proof.
  intros Hp Hreach Hrun.
  pose proof (reachable_Sheet_inv _ Hp Hreach) as (Hwf & Hsv & Hnn & Hgf & Hne).
  pose proof (SetCell_rec_early 1 pos text s) as Hearly. fold (SetCell pos text) in Hearly.
  rewrite Hrun in Hearly.
  assert (Hset : (Cell_Set text Cell_new).1 = Ok tt \/
                 (Cell_Set text Cell_new).1 = Throw FormulaException).
  { destruct (Cell_Set text Cell_new) as [r0 c0] eqn:E0.
    by destruct (Cell_Set_new_inv _ _ _ E0) as [[-> _]|[-> _]]; [left|right]. }
  assert (Hlate : (Cell_Set text Cell_new).1 = Ok tt ->
                  IsValid MAX_ROWS MAX_COLS pos = true ->
                  match r with
                  | Ok _ | Throw CircularDependencyException => True
                  | Abort => NDEBUG = false
                  | _ => False
                  end).
  { intros Hok Hv. apply SetCell_rec_inv in Hrun. destruct r as [[]|e| | |]; try done.
    - destruct e; try done.
      + destruct Hrun as (cell & Hcell & _ & _ & _ & [[Hv' _]|[_ (v & Hin & Hbad)]]);
          [congruence|].
        destruct Hin as [Hin|Hin].
        * apply elem_of_list_to_set in Hin.
          pose proof (Cell_Set_refs_valid _ _ Hp Hcell _ Hin). congruence.
        * pose proof (graph_faithful_referrers_valid _ _ Hgf Hsv Hin). congruence.
      + destruct Hrun as [_ Hrun]. congruence.
    - apply Hrun. intros d Hd. by eapply graph_faithful_lookup. }
  destruct Hset as [Hok|Hbad].
  - destruct (IsValid MAX_ROWS MAX_COLS pos) eqn:Hv.
    + specialize (Hlate Hok eq_refl). rewrite Hok.
      destruct r as [[]|[]| | |]; try done; split_and!; try done;
        split; try done; by intros [_ ?].
    + rewrite Hok in Hearly |- *. specialize (Hearly (or_intror eq_refl)).
      injection Hearly as -> _. split_and!; done.
  - rewrite Hbad in Hearly |- *. specialize (Hearly (or_introl eq_refl)).
    injection Hearly as -> _. split_and!; try done. split; [done|by intros [? _]].
Qed.

(** X1. The cycle check is complete.  On a sheet whose graph has no cycle, if
    the graph that [UpdateRefs] would commit for [SetCell(pos, text)] has
    one, the call throws [CircularDependencyException] and leaves the
    sheet as it was (or stops at an [assert] in a build that has them). *)
Theorem SetCell_reports_every_cycle (pos : Position) (text : string) (s : Sheet)
    (cell : Cell) r s' :
  Cell_Set text Cell_new = (Ok tt, cell) ->
  IsValid MAX_ROWS MAX_COLS pos = true ->
  acyclic (refs_from_ s) ->
  (exists v, tc (updated_edge pos (cell_refs (cell_at s pos)) (cell_refs (Some cell))
                   (refs_from_ s)) v v) ->
  SetCell pos text s = (r, s') ->
  (r = Throw CircularDependencyException /\ s' = s) \/ (r = Abort /\ NDEBUG = false).
Proof.
  intros Hcell Hv Hac Hcyc. apply (SetCell_rec_complete _ _ _ _ cell); [done..|].
  by apply new_cycle_through_added.
Qed.

(** X2. The graph [refs_from_] of every sheet that public operations
    produce has no cycle. *)
Theorem reference_graph_acyclic (s : Sheet) :
  reachable s -> acyclic (refs_from_ s).
Proof.
  unfold reachable. revert s. apply rtc_ind_r.
  - intros [v Hv]. inversion Hv as [? ? Hedge|? ? ? Hedge _]; subst;
      unfold edge, refs_to, Sheet_new in Hedge; simpl in Hedge;
      rewrite lookup_empty in Hedge; set_solver.
  - intros s1 s2 _ Hstep IH. by eapply Sheet_step_acyclic.
Qed.


(** C8. In every sheet that public operations produce,
    [GetPrintableSize()] returns the least box anchored at the origin that
    holds every stored cell -- one more than the greatest row index and one
    more than the greatest column index of a stored cell -- and it returns
    [{0, 0}] exactly when no cell is stored; no empty row container is
    stored. *)
Theorem printable_size_is_bounding_box (s : Sheet) :
  MAX_ROWS <= 2 ^ 31 - 1 -> MAX_COLS <= 2 ^ 31 - 1 ->
  reachable s ->
  exists sz,
    Sheet_GetPrintableSize s = (Ok sz, s) /\
    (forall pos, is_Some (cell_at s pos) -> row pos < rows sz /\ col pos < cols sz) /\
    ((exists pos, is_Some (cell_at s pos)) ->
       (exists pos, is_Some (cell_at s pos) /\ rows sz = 1 + row pos) /\
       (exists pos, is_Some (cell_at s pos) /\ cols sz = 1 + col pos)) /\
    (sz = mkSize 0 0 <-> forall pos, cell_at s pos = None) /\
    (forall i r, data_ (rows_ (cells_ s)) !! i = Some r -> data_ r <> ∅).
Proof.
  intros Hmr Hmc Hreach.
  destruct (reachable_storage_inv s Hreach) as (Hwf & Hsv & Hnn).
  destruct (GetPrintableSize_wf _ Hwf Hsv Hmr Hmc) as (sz & Hrun & Hbox & Hzero & Hmax).
  exists sz. split_and!.
  - unfold Sheet_GetPrintableSize, on_cells, zoom. rewrite Hrun. by destruct s.
  - intros pos Hpos. apply Hbox. by apply cell_at_is_Some.
  - intros [pos Hpos]. destruct Hmax as [[p1 [H1 E1]] [p2 [H2 E2]]].
    { exists pos. by apply cell_at_is_Some. }
    split; [exists p1|exists p2]; (split; [by apply cell_at_is_Some|done]).
  - split.
    + intros -> pos. destruct (cell_at s pos) as [c|] eqn:Hc; [|done]. exfalso.
      assert (is_Some (lookup_cell (cells_ s) pos)) as Hl
        by (apply cell_at_is_Some; [done|by rewrite Hc]).
      destruct (Hbox pos Hl) as [Hrow _]. apply Hsv in Hl. unfold IsValid in Hl.
      apply andb_true_iff in Hl as [Hl%bool_decide_eq_true _]. simpl in Hrow. lia.
    + intros Hnone. apply Hzero. intros pos.
      destruct (lookup_cell (cells_ s) pos) as [x|] eqn:Hl; [|done]. exfalso.
      assert (is_Some (cell_at s pos)) as [c Hc] by (apply cell_at_is_Some; [done|by rewrite Hl]).
      by rewrite Hnone in Hc.
  - intros i r Hr. destruct Hwf as [_ Hrows]. by destruct (Hrows i r Hr).
Qed.


(** ** [ClearCell] and the caches of the referrers *)

Lemma ClearCell_cells (pos : Position) (s s' : Sheet) :
  ClearCell pos s = (Ok tt, s') ->
  forall q, cell_at s' q = if decide (q = pos) then None else cell_at s q.
Proof.
  unfold ClearCell. rewrite bind_eq, GetCellImpl_eq.
  destruct (IsValid MAX_ROWS MAX_COLS pos) eqn:Hv; [|done].
  destruct (cell_at s pos) as [c|] eqn:Hc.
  2:{ intros [= <-] q. case_decide; [by subst|done]. }
  rewrite bind_eq.
  destruct (UpdateRefs pos (list_to_set (Cell_GetReferencedCells c)) ∅ s) as [ra s_a] eqn:Ea.
  apply UpdateRefs_inv in Ea. destruct ra as [[]|e| | |]; try done.
  destruct Ea as (Hca & _). intros Hclear. apply on_cells_Clear_inv in Hclear; [|done].
  destruct Hclear as (_ & Hl & _). intros q. unfold cell_at. rewrite Hl, Hca.
  by case_decide.
Qed.

(** A formula cell with a filled cache answers from the cache: the
    formula is not evaluated and the sheet is not written. *)
Lemma GetValue_cached (fuel : nat) (q : Position) (s : Sheet) (c : Cell) (f : Formula)
    (v : FValue) :
  IsValid MAX_ROWS MAX_COLS q = true ->
  cell_at s q = Some c -> value_ c = FormulaValueImpl f -> cache_ c = Some v ->
  GetValue fuel q s = (Ok (Some (CVFormula v)), s).
Proof.
  intros Hv Hc Hf Hk. unfold GetValue, sheet_value. rewrite bind_eq, GetCell_eq, Hv, Hc.
  rewrite bind_eq. by destruct fuel; cbn [Cell_GetValue]; rewrite Hf, Hk.
Qed.

(** X29. [ClearCell(pos)] leaves the cached values of the cells that
    reference [pos] in place, so their next [GetValue] answers from the
    cache. *)
Lemma ClearCell_keeps_referrer_cache (fuel : nat) (pos q : Position) (s s' : Sheet)
    (c : Cell) (f : Formula) (v : FValue) :
  ClearCell pos s = (Ok tt, s') ->
  q <> pos -> IsValid MAX_ROWS MAX_COLS q = true ->
  cell_at s q = Some c -> value_ c = FormulaValueImpl f -> cache_ c = Some v ->
  GetValue fuel q s' = (Ok (Some (CVFormula v)), s').
Proof.
  intros Hclear Hne Hv Hc Hf Hk. eapply GetValue_cached; try done.
  rewrite (ClearCell_cells _ _ _ Hclear). by rewrite decide_False.
Qed.


(** ** Cycles *)

(** A ranking that every edge increases, checked over the whole map. *)
Definition ranked g (rank : Position -> nat) : bool :=
  forallb (fun vX : Position * gset Position =>
             forallb (fun w => (rank vX.1 <? rank w)%nat) (elements vX.2))
          (map_to_list g).

Lemma ranked_no_cycle g (rank : Position -> nat) :
  ranked g rank = true -> ~ has_cycle g.
Proof.
  intros Hr [v Hv].
  assert (Hedge : forall x y, edge g x y -> (rank x < rank y)%nat).
  { intros x y Hxy. unfold edge, refs_to in Hxy.
    destruct (g !! x) as [X|] eqn:Ex; [|set_solver].
    unfold ranked in Hr. rewrite forallb_forall in Hr.
    specialize (Hr (x, X)). rewrite <- list_elem_of_In, elem_of_map_to_list in Hr.
    specialize (Hr Ex). rewrite forallb_forall in Hr. specialize (Hr y).
    rewrite <- list_elem_of_In, elem_of_elements in Hr. specialize (Hr Hxy).
    by apply Nat.ltb_lt in Hr. }
  assert (Hpath : forall x y, tc (edge g) x y -> (rank x < rank y)%nat).
  { induction 1 as [x y Hxy|x y z Hxy _ IH]; [by apply Hedge|].
    apply Hedge in Hxy. lia. }
  specialize (Hpath v v Hv). lia.
Qed.


(** * The storage classes, member by member *)

Section IndexedStorageMembers.
Context {T : Type} `{!ValueInit T}.
Implicit Types st : IndexedStorage T.

Lemma lower_bound_vector_insert (l : list Z) (index : Z) :
  StronglySorted Z.lt l ->
  lower_bound (vector_insert (lower_bound l index) index l) index = lower_bound l index.
Proof.
  induction l as [|x l IH]; intros Hs; simpl.
  - by rewrite Z.ltb_irrefl.
  - apply StronglySorted_cons in Hs as [_ Hs]. destruct (x <? index) eqn:E.
    + unfold vector_insert. simpl. rewrite E. f_equal. by apply IH.
    + unfold vector_insert. simpl. by rewrite Z.ltb_irrefl.
Qed.

Lemma vector_erase_insert (k : nat) (x : Z) (l : list Z) :
  (k <= length l)%nat -> vector_erase k (vector_insert k x l) = l.
Proof.
  intros Hk. unfold vector_erase, vector_insert.
  assert (Hlen : length (take k l) = k) by (rewrite length_take; lia).
  rewrite take_app_length' by done.
  replace (S k) with (length (take k l) + 1)%nat by lia.
  rewrite drop_app_add. simpl. rewrite drop_0. apply take_drop.
Qed.

(** [storage[index] = v] on a storage without [index], followed by
    [Erase(index)]. *)
Lemma insert_erase_restores st index v :
  IndexedStorage_wf st -> data_ st !! index = None ->
  subscript_assign index v st =
    (Ok tt, mkIndexedStorage (<[index := v]> (data_ st))
              (vector_insert (lower_bound (indices_ st) index) index (indices_ st))) /\
  Erase index (mkIndexedStorage (<[index := v]> (data_ st))
                 (vector_insert (lower_bound (indices_ st) index) index (indices_ st)))
    = (Ok tt, st).
Proof.
  intros Hwf E. pose proof Hwf as [Hs Hk].
  assert (Hassign : subscript_assign index v st =
    (Ok tt, mkIndexedStorage (<[index := v]> (data_ st))
              (vector_insert (lower_bound (indices_ st) index) index (indices_ st)))).
  { unfold subscript_assign. rewrite bind_eq.
    destruct (subscript index st) as [r st1] eqn:Es.
    pose proof (subscript_wf _ _ _ _ Hwf Es) as (_ & v0 & -> & _).
    apply subscript_inv in Es as [(v' & E' & _)|[(_ & _ & ->)|(_ & ? & _)]];
      [congruence| |done].
    unfold modify_state. cbn [data_ indices_]. by rewrite insert_insert_eq. }
  split; [done|].
  assert (Hwf1 : IndexedStorage_wf
            (mkIndexedStorage (<[index := v]> (data_ st))
               (vector_insert (lower_bound (indices_ st) index) index (indices_ st)))).
  { assert (index ∉ indices_ st) as Hni by (rewrite Hk, E; by intros [? ?]).
    split; simpl; [by apply vector_insert_sorted|].
    intros i. rewrite elem_of_vector_insert, Hk.
    destruct (decide (i = index)) as [->|Hne].
    - rewrite lookup_insert_eq. split; eauto.
    - rewrite lookup_insert_ne by done. split; [intros [?|?]; done|by right]. }
  destruct (Erase_wf _ index Hwf1) as (st2 & Hrun & _ & Hd).
  { simpl. rewrite lookup_insert_eq. eauto. }
  rewrite Hrun. f_equal.
  apply Erase_inv in Hrun as [(Hn & _)|[(_ & _ & _ & _ & Hi)|(_ & [?|[? _]] & _)]];
    [| |done..].
  { simpl in Hn. by rewrite lookup_insert_eq in Hn. }
  simpl in Hd, Hi. rewrite lower_bound_vector_insert in Hi by done.
  rewrite vector_erase_insert in Hi by apply lower_bound_le_length.
  rewrite delete_insert_eq, delete_id in Hd by done.
  destruct st, st2. simpl in *. congruence.
Qed.

(** X6. On a storage whose two sides agree, [storage[index] = v] returns
    and keeps them agreeing; afterwards [At(index)] returns [v],
    [Count(index)] is 1, and every other index holds what it held. *)
Theorem subscript_assign_At st index v :
  IndexedStorage_wf st ->
  exists st',
    subscript_assign index v st = (Ok tt, st') /\
    IndexedStorage_wf st' /\
    At index st' = (Ok v, st') /\
    Count st' index = 1 /\
    forall j, j <> index -> data_ st' !! j = data_ st !! j.
Proof.
  intros Hwf. unfold subscript_assign. rewrite bind_eq.
  destruct (subscript index st) as [r st1] eqn:Es.
  pose proof (subscript_wf _ _ _ _ Hwf Es) as ([Hs1 Hk1] & v0 & -> & Hv0).
  cbn [modify_state]. eexists. split; [done|]. split_and!.
  - split; simpl; [done|]. intros i. rewrite Hk1.
    destruct (decide (i = index)) as [->|Hne].
    + rewrite lookup_insert_eq, Hv0. split; eauto.
    + by rewrite lookup_insert_ne.
  - unfold At. rewrite bind_eq. cbn [get_state data_]. by rewrite lookup_insert_eq.
  - unfold Count. simpl. by rewrite lookup_insert_eq.
  - intros j Hne. simpl. rewrite lookup_insert_ne by done.
    apply subscript_inv in Es as [(? & _ & _ & ->)|[(_ & _ & ->)|(_ & ? & _)]];
      [done| |done].
    simpl. by rewrite lookup_insert_ne.
Qed.

(** X7. [Erase] of an index that is not stored throws and leaves the
    storage alone; of a stored index it returns, the index is gone, every
    other index holds what it held, and the two sides still agree. *)
Theorem Erase_spec st index :
  IndexedStorage_wf st ->
  match data_ st !! index with
  | None => Erase index st = (Throw invalid_argument, st)
  | Some _ =>
      exists st',
        Erase index st = (Ok tt, st') /\
        IndexedStorage_wf st' /\
        Count st' index = 0 /\
        At index st' = (Throw invalid_argument, st') /\
        forall j, j <> index -> data_ st' !! j = data_ st !! j
  end.
Proof.
  intros Hwf. destruct (data_ st !! index) as [v|] eqn:E.
  - destruct (Erase_wf st index Hwf) as (st' & Hrun & Hwf' & Hd); [by eauto|].
    exists st'. split_and!; try done.
    + unfold Count. by rewrite Hd, lookup_delete_eq.
    + unfold At. rewrite bind_eq. cbn [get_state]. by rewrite Hd, lookup_delete_eq.
    + intros j Hne. by rewrite Hd, lookup_delete_ne.
  - unfold Erase. rewrite bind_eq. cbn [get_state]. by rewrite E.
Qed.

(** X8. Writing a new index and erasing it again gives back the storage
    as it was, index vector included. *)
Theorem subscript_assign_Erase st index v :
  IndexedStorage_wf st -> data_ st !! index = None ->
  exists st1,
    subscript_assign index v st = (Ok tt, st1) /\
    Erase index st1 = (Ok tt, st).
Proof.
  intros Hwf E. destruct (insert_erase_restores st index v Hwf E) as [H1 H2]. eauto.
Qed.

Lemma int_of_size_small (n : nat) : Z.of_nat n < 2 ^ 31 -> int_of_size n = Z.of_nat n.
Proof.
  intros Hn. unfold int_of_size. rewrite Z.mod_small; lia.
Qed.

(** X9. On a storage whose two sides agree and that holds fewer than 2^31
    entries, [Size()] is the number of entries and [Empty()] says whether
    that number is zero, neither tripping its [assert]; after [Clear()]
    the storage is empty and no index is counted. *)
Theorem Size_Empty_Clear st :
  IndexedStorage_wf st -> Z.of_nat (size (data_ st)) < 2 ^ 31 ->
  IndexedStorage_Size st = (Ok (Z.of_nat (size (data_ st))), st) /\
  Empty st = (Ok (bool_decide (size (data_ st) = 0%nat)), st) /\
  exists st',
    IndexedStorage_Clear st = (Ok tt, st') /\
    IndexedStorage_wf st' /\
    IndexedStorage_Size st' = (Ok 0, st') /\
    Empty st' = (Ok true, st') /\
    forall j, Count st' j = 0.
Proof.
  intros Hwf Hsmall. split_and!.
  - unfold IndexedStorage_Size. rewrite bind_eq. cbn [get_state]. rewrite bind_eq.
    unfold assert_. rewrite bool_decide_true by (by apply IndexedStorage_wf_size).
    rewrite orb_true_r. cbn [ret]. by rewrite int_of_size_small.
  - rewrite (Empty_wf _ Hwf). do 2 f_equal. apply bool_decide_ext.
    split; [by intros ->|apply map_size_empty_inv].
  - eexists. split; [done|]. split; [apply IndexedStorage_wf_empty|]. split_and!.
    + unfold IndexedStorage_Size. rewrite bind_eq. cbn [get_state]. rewrite bind_eq.
      unfold assert_. simpl. by rewrite orb_true_r.
    + unfold Empty. rewrite bind_eq. cbn [get_state data_ indices_]. rewrite bind_eq.
      unfold assert_. rewrite !bool_decide_true by done. simpl. by rewrite orb_true_r.
    + intros j. unfold Count. simpl. by rewrite lookup_empty.
Qed.

Lemma iterate_ret_wf st (its : list Z) (k : nat) :
  (forall n i, its !! n = Some i -> indices_ st !! (k + n)%nat = Some i) ->
  (forall i, i ∈ its -> is_Some (data_ st !! i)) ->
  exists l,
    iterate (length its) k ret st = (Ok l, st) /\
    l.*1 = its /\
    forall i v, (i, v) ∈ l <-> i ∈ its /\ data_ st !! i = Some v.
Proof.
  revert k. induction its as [|i its IH]; intros k Hat Hin; simpl.
  - exists []. split; [done|]. split; [done|]. intros i v. split.
    + by intros ?%elem_of_nil.
    + by intros [?%elem_of_nil _].
  - destruct (Hin i) as [v Hv]; [by left|].
    destruct (IH (S k)) as (l & Hl & Hfst & Hmem).
    { intros n j Hn. replace (S k + n)%nat with (k + S n)%nat by lia. by apply Hat. }
    { intros j Hj. apply Hin. by right. }
    exists ((i, v) :: l). split; [|split].
    + rewrite bind_eq. unfold Iterator_deref. rewrite bind_eq. cbn [get_state].
      specialize (Hat 0%nat i eq_refl). rewrite Nat.add_0_r in Hat. rewrite Hat, Hv.
      cbn [ret]. rewrite bind_eq. cbn [ret]. rewrite bind_eq, Hl. done.
    + by rewrite fmap_cons, Hfst.
    + intros j w. rewrite elem_of_cons, Hmem, elem_of_cons. split.
      * intros [[= -> ->]|[? ?]]; [split; [by left|done]|split; [by right|done]].
      * intros [[->|Hj] Hw]; [left; congruence|right; done].
Qed.

(** X10. A walk from [begin()] to [end()] over a storage whose two sides
    agree never trips the [assert] of the dereference; it visits the
    indices in strictly ascending order and yields exactly the stored
    entries, each index with its value. *)
Theorem range_for_ascending st :
  IndexedStorage_wf st ->
  exists l,
    range_for ret st = (Ok l, st) /\
    StronglySorted Z.lt l.*1 /\
    forall i v, (i, v) ∈ l <-> data_ st !! i = Some v.
Proof.
  intros [Hs Hk]. unfold range_for, begin_, end_. rewrite bind_eq. cbn [get_state].
  rewrite Nat.sub_0_r.
  destruct (iterate_ret_wf st (indices_ st) 0) as (l & Hl & Hfst & Hmem).
  { by intros n i Hn. }
  { intros i Hi. by apply Hk. }
  exists l. split; [done|]. split; [by rewrite Hfst|].
  intros i v. rewrite Hmem. split; [by intros [_ ?]|].
  intros Hv. split; [|done]. apply Hk. eauto.
Qed.

Lemma sorted_head_min (l : list Z) (m : Z) :
  StronglySorted Z.lt l -> head l = Some m ->
  m ∈ l /\ forall x, x ∈ l -> m <= x.
Proof.
  destruct l as [|y l]; [done|]. intros [Hy _]%StronglySorted_cons [= ->].
  rewrite Forall_forall in Hy. split; [by left|].
  intros x [->|Hx]%elem_of_cons; [lia|]. specialize (Hy _ Hx). lia.
Qed.

(** X11. On a storage that is not empty, [FrontIndex()] and [BackIndex()]
    return the least and the greatest stored index.  On an empty one both
    fail: at their [assert], or into undefined behaviour without it. *)
Theorem FrontIndex_BackIndex st :
  IndexedStorage_wf st ->
  if decide (data_ st = ∅) then
    FrontIndex st = (if NDEBUG then Undefined else Abort, st) /\
    BackIndex st = (if NDEBUG then Undefined else Abort, st)
  else
    exists lo hi,
      FrontIndex st = (Ok lo, st) /\ BackIndex st = (Ok hi, st) /\
      is_Some (data_ st !! lo) /\ is_Some (data_ st !! hi) /\
      forall j, is_Some (data_ st !! j) -> lo <= j <= hi.
Proof.
  intros Hwf. pose proof Hwf as [Hs Hk]. case_decide as Hemp.
  - apply (IndexedStorage_wf_nil _ Hwf) in Hemp.
    unfold FrontIndex, BackIndex. rewrite !bind_eq. cbn [get_state]. rewrite !bind_eq.
    unfold assert_defined. rewrite bool_decide_true by done. simpl.
    by destruct NDEBUG.
  - destruct (BackIndex_wf _ Hwf Hemp) as (hi & Hback & Hhi & Hmax).
    assert (indices_ st <> []) as Hnil by by rewrite IndexedStorage_wf_nil.
    destruct (head (indices_ st)) as [lo|] eqn:Eh; [|by destruct (indices_ st)].
    destruct (sorted_head_min _ _ Hs Eh) as [Hin Hmin].
    exists lo, hi. split_and!; try done.
    + unfold FrontIndex. rewrite bind_eq. cbn [get_state]. rewrite bind_eq.
      unfold assert_defined. rewrite bool_decide_false by done. simpl. by rewrite Eh.
    + by apply Hk.
    + intros j Hj. split; [apply Hmin; by apply Hk|by apply Hmax].
Qed.

End IndexedStorageMembers.


Section SheetStorageMembers.
Context {T : Type} `{!ValueInit T}.
Implicit Types st : SheetStorage T.

Lemma subscript_absent {U} `{!ValueInit U} (s : IndexedStorage U) index :
  IndexedStorage_wf s -> data_ s !! index = None ->
  subscript index s =
    (Ok value_init,
     mkIndexedStorage (<[index := value_init]> (data_ s))
       (vector_insert (lower_bound (indices_ s) index) index (indices_ s))).
Proof.
  intros Hwf E. destruct (subscript index s) as [r s1] eqn:Es.
  pose proof (subscript_wf _ _ _ _ Hwf Es) as (_ & v0 & -> & _).
  apply subscript_inv in Es as [(v' & E' & _)|[(_ & -> & ->)|(_ & ? & _)]];
    [congruence|done|done].
Qed.

(** [Clear] of a position that holds nothing. *)
Lemma Clear_absent st pos :
  IsValid MAX_ROWS MAX_COLS pos = true -> lookup_cell st pos = None ->
  Clear pos st = (Ok tt, st).
Proof.
  intros Hv Hl. unfold Clear, CheckValid, on_rows. rewrite Hv.
  destruct st as [rs]. rewrite bind_eq. cbn [ret]. unfold zoom. cbn [rows_].
  rewrite bind_eq. cbn [get_state]. unfold lookup_cell in Hl. cbn [rows_] in Hl.
  destruct (data_ rs !! row pos) as [rw|] eqn:Er.
  2:{ by rewrite (Count_None _ _ Er), bool_decide_false by lia. }
  rewrite (Count_Some _ _ _ Er), bool_decide_true by lia.
  rewrite bind_eq, (subscript_with_found _ _ _ _ Er).
  rewrite bind_eq. cbn [get_state]. rewrite (Count_None _ _ Hl).
  rewrite bool_decide_false by lia. cbn [ret fst snd].
  rewrite insert_id by done. by destruct rs.
Qed.

(** X12. On a storage whose index vectors agree with their maps,
    [Set(pos, data)] at a valid position returns and keeps them agreeing;
    afterwards [Get(pos)] finds [data], and [Get] at every other position
    answers what it answered before.  [Get] itself never writes. *)
Theorem Set_Get st pos data :
  SheetStorage_wf st -> IsValid MAX_ROWS MAX_COLS pos = true ->
  exists st',
    Set_ pos data st = (Ok tt, st') /\
    SheetStorage_wf st' /\
    Get pos st' = (Ok (Some data), st') /\
    (forall q, q <> pos -> Get q st' = ((Get q st).1, st')) /\
    (forall q, (Get q st).2 = st).
Proof.
  intros Hwf Hv. destruct (Set_wf st pos data Hwf Hv) as (st' & Hrun & Hwf').
  exists st'. split; [done|]. split; [done|].
  destruct (Set_inv _ _ _ _ _ Hv Hrun) as [[_ Hl]|[? _]]; [|done]. split_and!.
  - by rewrite Get_eq, Hv, Hl, decide_True.
  - intros q Hne. rewrite !Get_eq, Hl, decide_False by done.
    by destruct (IsValid MAX_ROWS MAX_COLS q).
  - intros q. by rewrite Get_eq.
Qed.

(** X13. On such a storage [Clear(pos)] at a valid position returns and
    keeps the index vectors agreeing with their maps, with no empty row
    left behind; afterwards [Get(pos)] finds nothing and [Get] at every
    other position answers what it answered before.  Where nothing was
    stored at [pos], the storage is left exactly as it was. *)
Theorem Clear_Get st pos :
  SheetStorage_wf st -> IsValid MAX_ROWS MAX_COLS pos = true ->
  exists st',
    Clear pos st = (Ok tt, st') /\
    SheetStorage_wf st' /\
    Get pos st' = (Ok None, st') /\
    (forall q, q <> pos -> Get q st' = ((Get q st).1, st')) /\
    (lookup_cell st pos = None -> st' = st).
Proof.
  intros Hwf Hv. destruct (Clear_wf st pos Hwf Hv) as (st' & Hrun & Hwf').
  exists st'. split; [done|]. split; [done|].
  pose proof (Clear_inv _ _ _ _ Hv Hrun) as Hl. cbn in Hl. split_and!.
  - by rewrite Get_eq, Hv, Hl, decide_True.
  - intros q Hne. rewrite !Get_eq, Hl, decide_False by done.
    by destruct (IsValid MAX_ROWS MAX_COLS q).
  - intros Habs. rewrite (Clear_absent _ _ Hv Habs) in Hrun. congruence.
Qed.

(** X14. [Set(pos, data)] at a valid position that holds nothing,
    followed by [Clear(pos)], gives back the storage exactly as it was:
    the row that [Set] may have created is erased again. *)
Theorem Set_Clear st pos data :
  SheetStorage_wf st -> IsValid MAX_ROWS MAX_COLS pos = true ->
  lookup_cell st pos = None ->
  exists st1,
    Set_ pos data st = (Ok tt, st1) /\
    Clear pos st1 = (Ok tt, st).
Proof.
  intros [Hrs Hrows] Hv Hl. unfold Set_, CheckValid, on_rows. rewrite Hv.
  destruct st as [rs]. cbn [rows_] in *. unfold lookup_cell in Hl. cbn [rows_] in Hl.
  rewrite bind_eq. cbn [ret]. unfold zoom. cbn [rows_].
  destruct (data_ rs !! row pos) as [rw|] eqn:Er.
  - (* the row exists *)
    destruct (Hrows _ _ Er) as [Hrw Hne].
    destruct (insert_erase_restores rw (col pos) data Hrw Hl) as [Hset Herase].
    rewrite (subscript_with_found _ _ _ _ Er), Hset. cbn [fst snd].
    eexists. split; [done|].
    unfold Clear, CheckValid, on_rows. rewrite Hv, bind_eq. cbn [ret]. unfold zoom.
    cbn [rows_].
    rewrite bind_eq. cbn [get_state data_].
    erewrite Count_Some by (cbn [data_]; apply lookup_insert_eq).
    rewrite bool_decide_true by lia.
    rewrite bind_eq.
    erewrite subscript_with_found by (cbn [data_]; apply lookup_insert_eq).
    rewrite bind_eq. cbn [get_state].
    erewrite Count_Some by (cbn [data_]; apply lookup_insert_eq).
    rewrite bool_decide_true by lia.
    rewrite bind_eq, Herase, (Empty_wf _ Hrw), bool_decide_false by done.
    cbn [fst snd ret data_ indices_].
    rewrite insert_insert_eq, insert_id by done. by destruct rs.
  - (* the row is created and erased again *)
    assert (Hemp : IndexedStorage_wf (value_init : IndexedStorage T))
      by apply IndexedStorage_wf_empty.
    destruct (insert_erase_restores (value_init : IndexedStorage T) (col pos) data Hemp)
      as [Hset Herase]; [done|].
    destruct (insert_erase_restores rs (row pos) (value_init : IndexedStorage T) Hrs Er)
      as [_ Herase_row].
    unfold subscript_with at 1. rewrite bind_eq, (subscript_absent _ _ Hrs Er), Hset.
    cbn [fst snd data_ indices_]. rewrite insert_insert_eq.
    eexists. split; [done|].
    unfold Clear, CheckValid, on_rows. rewrite Hv, bind_eq. cbn [ret]. unfold zoom.
    cbn [rows_].
    rewrite bind_eq. cbn [get_state data_].
    erewrite Count_Some by (cbn [data_]; apply lookup_insert_eq).
    rewrite bool_decide_true by lia.
    rewrite bind_eq.
    erewrite subscript_with_found by (cbn [data_]; apply lookup_insert_eq).
    rewrite bind_eq. cbn [get_state].
    erewrite Count_Some by (cbn [data_]; apply lookup_insert_eq).
    rewrite bool_decide_true by lia.
    rewrite bind_eq, Herase, (Empty_wf _ Hemp), bool_decide_true by done.
    cbn [fst snd ret data_ indices_].
    rewrite insert_insert_eq, Herase_row. by destruct rs.
Qed.

End SheetStorageMembers.


(** * Cells: writing and reading *)

(** X15. [Cell::Set] throws only [FormulaException], only for a text that
    starts with the formula sign and goes on, and only when the parser
    rejects what follows the sign; the cell is then left as it was, value
    and cache.  A text that is just the sign is stored as text. *)
Theorem Cell_Set_failure (text : string) (c : Cell) (e : Exn) (c' : Cell) :
  Cell_Set text c = (Throw e, c') ->
  e = FormulaException /\ c' = c /\
  exists expression,
    text = String FORMULA_SIGN expression /\ expression <> EmptyString /\
    ParseFormula expression = None.
Proof.
  unfold Cell_Set. destruct text as [|front expression]; [done|].
  destruct (bool_decide (1 < String.length (String front expression))%nat) eqn:Elen;
    [|done].
  destruct (bool_decide (front = FORMULA_SIGN)) eqn:Efront; [|done].
  cbn [andb]. destruct (ParseFormula expression) as [f|] eqn:Ef; [done|].
  intros [= <- <-]. split; [done|]. split; [done|].
  apply bool_decide_eq_true in Efront as ->. apply bool_decide_eq_true in Elen.
  exists expression. split; [done|]. split; [|done].
  intros ->. simpl in Elen. lia.
Qed.

(** X16. [Cell::Set] with a text that is not empty does not touch the
    cache: on a cell that holds a cached value, setting a formula leaves
    that value in place, and [GetValue] then answers it without
    evaluating the new formula.  Only the empty text clears the cache. *)
Theorem Cell_Set_keeps_cache (text : string) (c c' : Cell) :
  Cell_Set text c = (Ok tt, c') ->
  (text = EmptyString -> c' = Cell_new) /\
  (text <> EmptyString ->
   cache_ c' = cache_ c /\
   forall f v fuel pos s,
     value_ c' = FormulaValueImpl f -> cache_ c = Some v ->
     Cell_GetValue fuel pos c' s = (Ok (CVFormula v), s)).
Proof.
  unfold Cell_Set. destruct text as [|front expression].
  { intros [= <-]. split; [done|]. by intros []. }
  intros Hset. split; [done|]. intros _.
  assert (Hcache : cache_ c' = cache_ c).
  { destruct (_ && _); [|by injection Hset as <-].
    destruct (ParseFormula expression); [by injection Hset as <-|done]. }
  split; [done|]. intros f v fuel pos s Hf Hv.
  by destruct fuel; cbn [Cell_GetValue]; rewrite Hf, Hcache, Hv.
Qed.

(** X17. After a successful [SetCell(pos, text)] the cell at [pos] is the
    one [Cell::Set] builds from [text] on a fresh cell.  For a text that
    is not taken for a formula, [GetText()] gives the text back unchanged
    and [GetValue()] gives it without a leading escape sign, reading
    nothing and writing nothing; for a formula, [GetText()] is the formula
    sign followed by the expression as the parsed formula prints it. *)
Theorem SetCell_then_read (pos : Position) (text : string) (s s' : Sheet) :
  SetCell pos text s = (Ok tt, s') ->
  exists c,
    GetCell pos s' = (Ok (Some c), s') /\
    cache_ c = None /\
    match text with
    | EmptyString =>
        Cell_GetText c = EmptyString /\
        forall fuel, GetValue fuel pos s' = (Ok (Some (CVString EmptyString)), s')
    | String front expression =>
        if bool_decide (1 < String.length text)%nat && bool_decide (front = FORMULA_SIGN)
        then exists f, ParseFormula expression = Some f /\
                       Cell_GetText c = String FORMULA_SIGN (Formula_GetExpression f)
        else Cell_GetText c = text /\
             forall fuel,
               GetValue fuel pos s' =
                 (Ok (Some (CVString (if bool_decide (front = ESCAPE_SIGN)
                                      then expression else text))), s')
    end.
Proof.
  intros Hrun.
  apply SetCell_rec_cells in Hrun as (cell & Hcell & Hv & Hpos & _).
  exists cell. split; [by rewrite GetCell_eq, Hv, Hpos|].
  pose proof (Cell_Set_new_inv _ _ _ Hcell) as [[_ Hcache]|[? _]]; [|done].
  split; [done|]. revert Hcell. unfold Cell_Set.
  assert (Hget : forall fuel, GetValue fuel pos s' =
            (let '(r, s1) := Cell_GetValue fuel pos cell s' in
             match r with
             | Ok v => (Ok (Some v), s1)
             | Throw e => (Throw e, s1)
             | Abort => (Abort, s1)
             | Undefined => (Undefined, s1)
             | OutOfFuel => (OutOfFuel, s1)
             end)).
  { intros fuel. unfold GetValue, sheet_value. rewrite bind_eq, GetCell_eq, Hv, Hpos.
    rewrite bind_eq. by destruct (Cell_GetValue fuel pos cell s') as [[]]. }
  destruct text as [|front expression].
  - intros [= <-]. split; [done|]. intros fuel. rewrite Hget. by destruct fuel.
  - destruct (bool_decide (1 < _)%nat && bool_decide (front = FORMULA_SIGN)).
    + destruct (ParseFormula expression) as [f|]; [|done]. intros [= <-]. eauto.
    + intros [= <-]. split; [done|]. intros fuel. rewrite Hget.
      by destruct fuel.
Qed.

(** X18. On a sheet that public operations produce, a successful
    [SetCell(pos, text)] leaves a cell at every position the new cell
    references: [GetCell] finds one there, and it is an Empty cell where
    the position held nothing before. *)
Theorem SetCell_materialises_references (pos : Position) (text : string) (s s' : Sheet) :
  reachable s ->
  SetCell pos text s = (Ok tt, s') ->
  exists c,
    GetCell pos s' = (Ok (Some c), s') /\
    forall q, q ∈ Cell_GetReferencedCells c ->
      exists cq, GetCell q s' = (Ok (Some cq), s') /\
                 (cell_at s q = None -> q <> pos -> cq = Cell_new).
Proof.
  intros Hreach Hrun.
  assert (Hinv' : storage_inv s').
  { eapply SetCell_storage_inv; [by apply reachable_storage_inv|exact Hrun|done]. }
  destruct Hinv' as (_ & Hsv & Hnn).
  apply SetCell_rec_cells in Hrun as (cell & Hcell & Hv & Hpos & Hother & Hall & _).
  exists cell. split; [by rewrite GetCell_eq, Hv, Hpos|].
  intros q Hq. destruct (Hall q Hq) as [cq Hcq]. exists cq.
  assert (Hvq : IsValid MAX_ROWS MAX_COLS q = true).
  { apply Hsv. apply cell_at_is_Some; [done|]. by rewrite Hcq. }
  split; [by rewrite GetCell_eq, Hvq, Hcq|].
  intros Hnone Hne. specialize (Hother q Hne). rewrite Hnone in Hother.
  destruct Hother as [E|[_ E]]; congruence.
Qed.


(** * Reading values and printing *)

(** X19. A value that was read is read again unchanged: when [GetValue]
    at [pos] has answered, any later [GetValue] at [pos] on the sheet it
    left answers the same and writes nothing -- for a formula cell from
    the cache, without evaluating, whatever the depth of evaluation it is
    allowed. *)
Theorem GetValue_twice (fuel fuel' : nat) (pos : Position) (s s1 : Sheet)
    (v : option (CellValue FValue)) :
  GetValue fuel pos s = (Ok v, s1) ->
  GetValue fuel' pos s1 = (Ok v, s1).
Proof.
  unfold GetValue, sheet_value. rewrite !bind_eq, !GetCell_eq.
  destruct (IsValid MAX_ROWS MAX_COLS pos) eqn:Hv; [|done].
  destruct (cell_at s pos) as [c|] eqn:Hc.
  2:{ intros [= <- <-]. by rewrite Hc. }
  rewrite bind_eq. destruct (Cell_GetValue fuel pos c s) as [r1 s1'] eqn:E1.
  destruct r1 as [v1| | | |]; try done. intros [= <- ->].
  assert (Hcached : forall c1 w f, cell_at s1 pos = Some c1 ->
            value_ c1 = FormulaValueImpl f -> cache_ c1 = Some w ->
            Cell_GetValue fuel' pos c1 s1 = (Ok (CVFormula w), s1)).
  { intros c1 w f _ Hf Hw. by destruct fuel'; cbn [Cell_GetValue]; rewrite Hf, Hw. }
  destruct fuel as [|fuel]; cbn [Cell_GetValue] in E1;
    destruct (value_ c) as [|str|f] eqn:Eval;
    try (injection E1 as <- <-; rewrite Hc, bind_eq;
         by destruct fuel'; cbn [Cell_GetValue]; rewrite Eval);
    destruct (cache_ c) as [w|] eqn:Ecache;
    try (injection E1 as <- <-; rewrite Hc, bind_eq;
         by rewrite (Hcached c w f Hc Eval Ecache));
    try done.
  rewrite bind_eq in E1.
  destruct (run_evaluation _ _ s) as [r2 s2] eqn:E2.
  apply run_evaluation_cache_writes in E2.
  2:{ intros p. apply sheet_value_cache_writes. apply Cell_GetValue_cache_writes. }
  destruct r2 as [val| | | |]; try done.
  rewrite bind_eq in E1. cbn [modify_state ret] in E1. injection E1 as <- <-.
  pose proof (cache_writes_cell_at _ _ pos E2) as Hm. rewrite Hc in Hm.
  destruct (cell_at s2 pos) as [c2|] eqn:Hc2; [|done].
  rewrite cell_at_write_cell, decide_True, Hc2 by done. cbn [fmap option_fmap option_map].
  rewrite bind_eq.
  rewrite (Hcached (Cell_set_cache val c2) val f); [done| |by rewrite <- Eval|done].
  by rewrite cell_at_write_cell, decide_True, Hc2.
Qed.

(** X20. [GetValue] writes caches only, whatever it answers: the graph
    [refs_from_] is the same afterwards, cells are stored at the same
    positions, and every cell has the content it had. *)
Theorem GetValue_frame (fuel : nat) (pos : Position) (s : Sheet) r s' :
  GetValue fuel pos s = (r, s') ->
  refs_from_ s' = refs_from_ s /\
  forall q,
    match cell_at s q with
    | Some c => exists c', cell_at s' q = Some c' /\ value_ c' = value_ c
    | None => cell_at s' q = None
    end.
Proof.
  intros Hcw%GetValue_cache_writes. split; [by apply cache_writes_refs_from|].
  intros q. pose proof (cache_writes_cell_at _ _ q Hcw) as Hm.
  destruct (cell_at s q) as [c|], (cell_at s' q) as [c'|]; try done. eauto.
Qed.

Lemma for_each_collect_pure {S A B} (l : list A) (body : A -> M S B) (g : A -> B) (s : S) :
  (forall x, x ∈ l -> body x s = (Ok (g x), s)) ->
  for_each_collect l body s = (Ok (g <$> l), s).
Proof.
  induction l as [|x l IH]; intros Hbody; cbn [for_each_collect]; [done|].
  rewrite bind_eq, Hbody by (by left). rewrite bind_eq, IH; [done|].
  intros y Hy. apply Hbody. by right.
Qed.

(** X21. On a sheet that public operations produce, [PrintTexts] returns
    and leaves the sheet as it was.  It writes one row for each row of
    the printable size and in it one entry for each column: the text of
    the cell stored there, or nothing where no cell is stored. *)
Theorem PrintTexts_spec (s : Sheet) :
  MAX_ROWS <= 2 ^ 31 - 1 -> MAX_COLS <= 2 ^ 31 - 1 ->
  reachable s ->
  exists sz,
    Sheet_GetPrintableSize s = (Ok sz, s) /\
    PrintTexts s =
      (Ok ((fun row =>
              (fun col => Cell_GetText <$> cell_at s (mkPos row col))
                <$> seqZ 0 (cols sz))
             <$> seqZ 0 (rows sz)), s).
Proof.
  intros Hmr Hmc Hreach.
  destruct (reachable_storage_inv s Hreach) as (Hwf & Hsv & Hnn).
  destruct (GetPrintableSize_wf _ Hwf Hsv Hmr Hmc) as (sz & Hrun & Hbox & Hzero & Hmax).
  assert (Hsize : Sheet_GetPrintableSize s = (Ok sz, s)).
  { unfold Sheet_GetPrintableSize, on_cells, zoom. rewrite Hrun. by destruct s. }
  exists sz. split; [done|].
  unfold PrintTexts, Print. rewrite bind_eq, Hsize.
  assert (Hvalid : forall row col, 0 <= row < rows sz -> 0 <= col < cols sz ->
            IsValid MAX_ROWS MAX_COLS (mkPos row col) = true).
  { intros r c Hr Hc.
    destruct (stored_or_empty (cells_ s) Hwf) as [Hnone|Hsome].
    { rewrite (Hzero Hnone) in Hr. simpl in Hr. lia. }
    destruct (Hmax Hsome) as [(p1 & H1 & E1) (p2 & H2 & E2)].
    apply Hsv in H1, H2. unfold IsValid in *.
    apply andb_true_iff in H1 as [H1%bool_decide_eq_true _].
    apply andb_true_iff in H2 as [_ H2%bool_decide_eq_true].
    simpl. rewrite !bool_decide_true by lia. done. }
  apply for_each_collect_pure. intros r [Hr0 Hr1]%elem_of_seqZ.
  apply for_each_collect_pure. intros c [Hc0 Hc1]%elem_of_seqZ.
  rewrite bind_eq, on_cells_Get_eq, Hvalid by lia.
  unfold cell_at. specialize (Hnn (mkPos r c)).
  by destruct (lookup_cell (cells_ s) (mkPos r c)) as [[x|]|].
Qed.


(** * The assertions of [UpdateRefs] *)

Lemma for_each_acc_collect_abort (cond chk_in chk_out : Position -> bool)
    (l : list Position) (acc : gset Position) (s : Sheet) :
  NDEBUG = false ->
  (exists x, x ∈ l /\ if cond x then chk_in x = false else chk_out x = false) ->
  for_each_acc l acc (fun x acc =>
    if cond x then assert_ (chk_in x) ;;; ret ({[x]} ∪ acc)
    else assert_ (chk_out x) ;;; ret acc) s = (Abort, s).
Proof.
  intros HN. revert acc. induction l as [|x l IH]; intros acc (y & Hy & Hfail).
  { by apply elem_of_nil in Hy. }
  cbn [for_each_acc]. rewrite bind_eq.
  destruct (cond x) eqn:Ec.
  - rewrite bind_eq. unfold assert_ at 1. rewrite HN.
    destruct (chk_in x) eqn:Ek; cbn [orb ret]; [|done].
    apply IH. exists y. split; [|done].
    apply elem_of_cons in Hy as [->|Hy]; [|done]. rewrite Ec in Hfail. congruence.
  - rewrite bind_eq. unfold assert_ at 1. rewrite HN.
    destruct (chk_out x) eqn:Ek; cbn [orb ret]; [|done].
    apply IH. exists y. split; [|done].
    apply elem_of_cons in Hy as [->|Hy]; [|done]. rewrite Ec in Hfail. congruence.
Qed.

Lemma IsCircularReference_returns (pos ref_add : Position) (refs_del : gset Position)
    (s : Sheet) :
  pos ∉ refs_del -> ref_add ∉ refs_del -> pos ∉ refs_to (refs_from_ s) ref_add ->
  exists b, IsCircularReference pos ref_add refs_del s = (Ok b, s).
Proof.
  intros H1 H2 H3. unfold IsCircularReference. rewrite bind_eq. cbn [get_state].
  assert (Hloop : exists b,
    IsCircularReference_loop (IsCircularReference_fuel (refs_from_ s) pos ref_add)
      (refs_from_ s) pos refs_del ∅ [ref_add; pos] = Ok b).
  { apply (IsCircularReference_loop_terminates _ _ _
             ({[pos; ref_add]} ∪ referrers (refs_from_ s))).
    - intros v w Hw. apply elem_of_union. right. by eapply refs_to_referrers.
    - intros v Hv. set_solver.
    - unfold IsCircularReference_fuel. rewrite difference_empty_L. lia. }
  destruct Hloop as [b Hb].
  do 3 (massert;
        [|exfalso; match goal with
                   | H : bool_decide _ = false |- _ =>
                       apply bool_decide_eq_false in H; by apply H
                   end]).
  rewrite Hb. eauto.
Qed.

Lemma cycle_checks_returns (pos : Position) (refs_del : gset Position)
    (l : list Position) (s : Sheet) r s' :
  pos ∉ refs_del ->
  (forall a, a ∈ l -> (a ∉ refs_del) /\ (pos ∉ refs_to (refs_from_ s) a)) ->
  for_each l (fun ref_add =>
    c <- IsCircularReference pos ref_add refs_del ;;
    if c then throw CircularDependencyException else ret tt) s = (r, s') ->
  s' = s /\ (r = Ok tt \/ (r = Throw CircularDependencyException /\ l <> [])).
Proof.
  intros Hpos. induction l as [|a l IH]; intros Hl; simpl.
  - intros [= <- <-]. eauto.
  - rewrite bind_eq, bind_eq.
    destruct (Hl a) as [Ha1 Ha2]; [by left|].
    destruct (IsCircularReference_returns pos a refs_del s Hpos Ha1 Ha2) as [b ->].
    destruct b; cbn [throw ret]; [intros [= <- <-]; eauto|].
    intros [-> [->|[-> _]]]%IH; [eauto|eauto|].
    intros x Hx. apply Hl. by right.
Qed.

Lemma del_loop_returns (pos : Position) (l : list Position) (s : Sheet) r s' :
  NoDup l -> (forall d, d ∈ l -> pos ∈ refs_to (refs_from_ s) d) ->
  for_each l (fun ref_del =>
    s <- get_state ;;
    match refs_from_ s !! ref_del with
    | None => assert_defined false
    | Some refs =>
        assert_ (bool_decide (pos ∈ refs)) ;;;
        let refs' := refs ∖ {[pos]} in
        if bool_decide (size refs' = 0%nat)
        then put_state (mkSheet (cells_ s) (delete ref_del (refs_from_ s)))
        else put_state (mkSheet (cells_ s) (<[ref_del := refs']> (refs_from_ s)))
    end) s = (r, s') ->
  r = Ok tt.
Proof.
  revert s. induction l as [|d l IH]; intros s Hnd Hl; simpl.
  - by intros [= <- <-].
  - apply NoDup_cons in Hnd as [Hni Hnd].
    rewrite bind_eq, bind_eq. cbn [get_state].
    pose proof (Hl d ltac:(by left)) as Hd. unfold refs_to in Hd.
    destruct (refs_from_ s !! d) as [refs|] eqn:Ed; [|set_solver].
    massert.
    2:{ exfalso. match goal with H : bool_decide _ = false |- _ =>
          apply bool_decide_eq_false in H; by apply H end. }
    assert (Hstep : (if bool_decide (size (refs ∖ {[pos]}) = 0%nat)
              then put_state (mkSheet (cells_ s) (delete d (refs_from_ s)))
              else put_state (mkSheet (cells_ s) (<[d := refs ∖ {[pos]}]> (refs_from_ s)))) s
            = (Ok tt, mkSheet (cells_ s) (del_ref pos d (refs_from_ s)))).
    { unfold del_ref. rewrite Ed. by case_bool_decide. }
    cbv zeta. rewrite Hstep. apply IH; [done|].
    intros d' Hd'. cbn [refs_from_]. rewrite refs_to_del_ref, decide_False.
    + apply Hl. by right.
    + intros ->. done.
Qed.

(** When the graph knows the references of [pos] for what they are and
    the edit keeps none of them, no [assert] of [UpdateRefs] fails and no
    iterator is invalid. *)
Lemma UpdateRefs_returns (pos : Position) (old_refs new_refs : gset Position)
    (s : Sheet) r s' :
  (forall d, pos ∈ refs_to (refs_from_ s) d <-> d ∈ old_refs) ->
  pos ∉ old_refs ->
  old_refs ∩ new_refs = ∅ ->
  UpdateRefs pos old_refs new_refs s = (r, s') ->
  r = Ok tt \/ (r = Throw CircularDependencyException /\ new_refs <> ∅).
Proof.
  intros Hf Hself Hdisj.
  assert (Hhas : forall d, has_ref (refs_from_ s) d pos = bool_decide (d ∈ old_refs)).
  { intros d. unfold has_ref. apply bool_decide_ext. apply Hf. }
  unfold UpdateRefs. rewrite bind_eq. cbn [get_state]. rewrite bind_eq.
  match goal with |- context [for_each_acc ?l ?a ?b s] =>
    destruct (for_each_acc l a b s) as [r1 s1] eqn:E1 end.
  apply (for_each_acc_collect (fun x => bool_decide (x ∉ old_refs))
           (fun x => negb (has_ref (refs_from_ s) x pos))
           (fun x => has_ref (refs_from_ s) x pos)) in E1
    as [-> [->|(_ & _ & x & _ & Hx)]].
  2:{ exfalso. rewrite Hhas in Hx. case_bool_decide as Hc.
      - apply negb_false_iff, bool_decide_eq_true in Hx. done.
      - apply bool_decide_eq_false in Hx. done. }
  rewrite collected_difference. rewrite bind_eq.
  match goal with |- context [for_each_acc ?l ?a ?b s] =>
    destruct (for_each_acc l a b s) as [r2 s2] eqn:E2 end.
  apply (for_each_acc_collect (fun x => bool_decide (x ∉ new_refs))
           (fun x => has_ref (refs_from_ s) x pos)
           (fun x => negb (has_ref (refs_from_ s) x pos))) in E2
    as [-> [->|(_ & _ & x & Hin%elem_of_elements & Hx)]].
  2:{ exfalso. rewrite Hhas in Hx. case_bool_decide as Hc.
      - apply bool_decide_eq_false in Hx. done.
      - set_solver. }
  rewrite collected_difference. rewrite bind_eq.
  match goal with |- context [for_each ?l ?b s] =>
    destruct (for_each l b s) as [r3 s3] eqn:E3 end.
  apply cycle_checks_returns in E3 as [-> [->|[-> Hne]]].
  - rewrite bind_eq, add_loop_eq. intros Hdel. left.
    apply del_loop_returns in Hdel; [done|apply NoDup_elements|].
    intros d Hd%elem_of_elements. cbn [refs_from_].
    rewrite refs_to_add_refs, decide_False.
    + apply Hf. set_solver.
    + rewrite elem_of_elements. set_solver.
  - intros [= <- <-]. right. split; [done|]. intros ->. apply Hne.
    by rewrite difference_disjoint_L, elements_empty by set_solver.
  - set_solver.
  - intros a Ha%elem_of_elements. split; [set_solver|]. rewrite Hf. set_solver.
Qed.

(** With assertions compiled in, an edit that keeps a reference of [pos]
    stops at the [assert] of the second loop. *)
Lemma UpdateRefs_aborts (pos : Position) (old_refs new_refs : gset Position)
    (s : Sheet) (x : Position) :
  NDEBUG = false ->
  (forall d, pos ∈ refs_to (refs_from_ s) d <-> d ∈ old_refs) ->
  x ∈ old_refs -> x ∈ new_refs ->
  UpdateRefs pos old_refs new_refs s = (Abort, s).
Proof.
  intros HN Hf Hold Hnew.
  unfold UpdateRefs. rewrite bind_eq. cbn [get_state]. rewrite bind_eq.
  match goal with |- context [for_each_acc ?l ?a ?b s] =>
    destruct (for_each_acc l a b s) as [r1 s1] eqn:E1 end.
  apply (for_each_acc_collect (fun x => bool_decide (x ∉ old_refs))
           (fun x => negb (has_ref (refs_from_ s) x pos))
           (fun x => has_ref (refs_from_ s) x pos)) in E1
    as [-> [->|(-> & _)]]; [|done].
  rewrite collected_difference. rewrite bind_eq.
  rewrite (for_each_acc_collect_abort (fun x => bool_decide (x ∉ new_refs))
             (fun x => has_ref (refs_from_ s) x pos)
             (fun x => negb (has_ref (refs_from_ s) x pos))); [done..|].
  exists x. split; [by apply elem_of_elements|].
  rewrite bool_decide_false by (by intros Hc; apply Hc).
  apply negb_false_iff. unfold has_ref. apply bool_decide_eq_true. by apply Hf.
Qed.

Lemma reachable_acyclic (s : Sheet) : reachable s -> acyclic (refs_from_ s).
Proof.
  unfold reachable. revert s. apply rtc_ind_r.
  - intros [v Hv]. inversion Hv as [? ? Hedge|? ? ? Hedge _]; subst;
      unfold edge, refs_to, Sheet_new in Hedge; simpl in Hedge;
      rewrite lookup_empty in Hedge; set_solver.
  - intros s1 s2 _ Hstep IH. by eapply Sheet_step_acyclic.
Qed.

(** On a sheet that public operations produce, the graph holds the
    references of the cell at [pos], and that cell does not reference
    itself. *)
Lemma reachable_refs_of (s : Sheet) (pos : Position) :
  parser_refs_valid -> reachable s ->
  (forall d, pos ∈ refs_to (refs_from_ s) d <-> d ∈ cell_refs (cell_at s pos)) /\
  pos ∉ cell_refs (cell_at s pos).
Proof.
  intros Hp Hreach.
  destruct (reachable_Sheet_inv _ Hp Hreach) as (_ & _ & _ & Hgf & _).
  assert (Hf : forall d, pos ∈ refs_to (refs_from_ s) d <-> d ∈ cell_refs (cell_at s pos)).
  { intros d. rewrite (Hgf pos d). unfold cell_refs. destruct (cell_at s pos) as [c|].
    - rewrite elem_of_list_to_set. split; [by intros (c0 & [= <-] & ?)|eauto].
    - split; [by intros (c0 & ? & _)|set_solver]. }
  split; [done|]. intros Hself. apply Hf in Hself.
  apply (reachable_acyclic s Hreach). exists pos. by apply tc_once.
Qed.


(** X22. On a sheet that public operations produce, [ClearCell] at a
    valid position always returns, also in a build with assertions.
    Afterwards [GetCell(pos)] is null, every other cell is untouched,
    cache included, and [pos] is gone from every adjacency set of
    [refs_from_]; where no cell was stored at [pos] the sheet is left
    exactly as it was.  At an invalid position the call throws
    [InvalidPositionException] and changes nothing. *)
Theorem ClearCell_spec (pos : Position) (s : Sheet) :
  parser_refs_valid -> reachable s ->
  if IsValid MAX_ROWS MAX_COLS pos then
    exists s',
      ClearCell pos s = (Ok tt, s') /\
      GetCell pos s' = (Ok None, s') /\
      (forall q, q <> pos -> cell_at s' q = cell_at s q) /\
      (forall q, refs_to (refs_from_ s') q = refs_to (refs_from_ s) q ∖ {[pos]}) /\
      (cell_at s pos = None -> s' = s)
  else ClearCell pos s = (Throw InvalidPositionException, s).
Proof.
  intros Hp Hreach.
  destruct (reachable_Sheet_inv _ Hp Hreach) as (Hwf & Hsv & Hnn & Hgf & Hne).
  destruct (reachable_refs_of s pos Hp Hreach) as [Hf Hself].
  unfold ClearCell. rewrite bind_eq, GetCellImpl_eq.
  destruct (IsValid MAX_ROWS MAX_COLS pos) eqn:Hv; [|done].
  destruct (cell_at s pos) as [c|] eqn:Hc.
  2:{ exists s. split; [done|]. rewrite GetCell_eq, Hv, Hc. split; [done|].
      split; [done|]. split; [|done].
      intros q. specialize (Hf q). unfold cell_refs in Hf. set_solver. }
  rewrite bind_eq. fold (cell_refs (Some c)).
  destruct (UpdateRefs pos (cell_refs (Some c)) ∅ s) as [ra s_a] eqn:Ea.
  assert (Hd : cell_refs (Some c) ∩ (∅ : gset Position) = ∅) by set_solver.
  pose proof (UpdateRefs_returns _ _ _ _ _ _ Hf Hself Hd Ea) as [->|[_ ?]]; [|done].
  apply UpdateRefs_inv in Ea as (Hca & Hga & _).
  destruct (Clear_wf (cells_ s_a) pos) as (st' & Hclear & _); [by rewrite Hca|done|].
  assert (Hrun : on_cells (Clear pos) s_a = (Ok tt, mkSheet st' (refs_from_ s_a))).
  { unfold on_cells, zoom. by rewrite Hclear. }
  rewrite Hrun. eexists. split; [done|].
  apply on_cells_Clear_inv in Hrun as (_ & Hl & _); [|done].
  assert (Hcell : forall q, cell_at (mkSheet st' (refs_from_ s_a)) q =
            if decide (q = pos) then None else cell_at s q).
  { intros q. unfold cell_at. rewrite Hl, Hca. by case_decide. }
  split_and!.
  - by rewrite GetCell_eq, Hv, Hcell, decide_True.
  - intros q Hneq. by rewrite Hcell, decide_False.
  - intros q. cbn [refs_from_]. rewrite Hga. unfold updated_refs.
    specialize (Hf q). repeat case_decide; set_solver.
  - done.
Qed.

(** X23. In a build with assertions, on a sheet that public operations
    produce, [SetCell(pos, text)] at a valid position with a text that
    [Cell::Set] accepts stops at an [assert] exactly when the cell stored
    at [pos] and the new cell reference a common position: an edit that
    keeps no reference never trips an assertion, one that keeps a
    reference always does. *)
Theorem SetCell_aborts_iff (pos : Position) (text : string) (s : Sheet) (cell : Cell) :
  NDEBUG = false -> parser_refs_valid -> reachable s ->
  IsValid MAX_ROWS MAX_COLS pos = true ->
  Cell_Set text Cell_new = (Ok tt, cell) ->
  (SetCell pos text s).1 = Abort <->
  exists c q, cell_at s pos = Some c /\
              q ∈ Cell_GetReferencedCells c /\ q ∈ Cell_GetReferencedCells cell.
Proof.
  intros HN Hp Hreach Hv Hcell.
  destruct (reachable_Sheet_inv _ Hp Hreach) as (Hwf & Hsv & Hnn & Hgf & Hne).
  destruct (reachable_refs_of s pos Hp Hreach) as [Hf Hself].
  assert (Hshare :
    (exists c q, cell_at s pos = Some c /\
                 q ∈ Cell_GetReferencedCells c /\ q ∈ Cell_GetReferencedCells cell) <->
    cell_refs (cell_at s pos) ∩ cell_refs (Some cell) <> ∅).
  { unfold cell_refs. split.
    - intros (c & q & -> & Hq1 & Hq2) Hemp.
      assert (q ∈ (∅ : gset Position)); [|set_solver].
      rewrite <- Hemp. apply elem_of_intersection. by rewrite !elem_of_list_to_set.
    - intros [q Hq]%set_choose_L. apply elem_of_intersection in Hq as [Hq1 Hq2].
      destruct (cell_at s pos) as [c|]; [|set_solver].
      exists c, q. by rewrite !elem_of_list_to_set in Hq1, Hq2. }
  rewrite Hshare. unfold SetCell. rewrite SetCell_rec_eq, bind_eq. unfold make_cell.
  rewrite Hcell, bind_eq, GetCell_eq, Hv, bind_eq.
  destruct (decide (cell_refs (cell_at s pos) ∩ cell_refs (Some cell) = ∅)) as [Hd|Hd].
  - (* no reference is kept: no assertion fails *)
    split; [|done]. intros Habort. exfalso. revert Habort.
    destruct (UpdateRefs pos (cell_refs (cell_at s pos)) (cell_refs (Some cell)) s)
      as [ra s_a] eqn:Ea.
    pose proof (UpdateRefs_returns _ _ _ _ _ _ Hf Hself Hd Ea) as [->|[-> _]]; [|done].
    apply UpdateRefs_inv in Ea as (Hca & _ & _).
    rewrite bind_eq.
    match goal with |- context [for_each ?l ?b s_a] =>
      destruct (for_each l b s_a) as [rb s_b] eqn:Eb end.
    apply placeholders_loop_inv in Eb.
    destruct rb as [[]|e| | |]; try done.
    2:{ destruct Eb as [_ Hnwf]. exfalso. apply Hnwf. by rewrite Hca. }
    destruct Eb as [Hpa _].
    rewrite bind_eq.
    destruct (on_cells (Set_ pos (Some cell)) s_b) as [rc s_c] eqn:Ec.
    apply on_cells_Set_inv in Ec; [|done].
    destruct rc as [[]|e| | |]; try done.
    2:{ destruct Ec as [_ Hnwf]. exfalso. apply Hnwf.
        destruct Hpa as (_ & Hw & _). apply Hw. by rewrite Hca. }
    destruct (InvalidateCache pos s_c) as [r2 s2] eqn:E2.
    apply InvalidateCache_inv in E2 as [_ Hpost]. by destruct r2.
  - (* a reference is kept *)
    split; [done|]. intros _.
    apply set_choose_L in Hd as [x [Hx1 Hx2]%elem_of_intersection].
    by rewrite (UpdateRefs_aborts _ _ _ _ x HN Hf Hx1 Hx2).
Qed.

(** X24. The two work-list walks of the sheet end on every graph, with
    cycles or without, within the bound the graph gives: the cycle check
    answers (or stops at one of its three [assert]s) and leaves the sheet
    alone; the invalidation returns, or throws
    [InvalidPositionException], having written nothing but empty caches. *)
Theorem walks_terminate (pos ref_add : Position) (refs_del : gset Position) (s : Sheet) :
  (exists r, IsCircularReference pos ref_add refs_del s = (r, s) /\
             ((exists b, r = Ok b) \/ (r = Abort /\ NDEBUG = false))) /\
  (exists r s', InvalidateCache pos s = (r, s') /\
                (r = Ok tt \/ r = Throw InvalidPositionException) /\
                refs_from_ s' = refs_from_ s /\
                forall q, match cell_at s q with
                          | Some c =>
                              exists c', cell_at s' q = Some c' /\ value_ c' = value_ c /\
                                         (cache_ c' = cache_ c \/ cache_ c' = None)
                          | None => cell_at s' q = None
                          end).
Proof.
  split.
  - destruct (IsCircularReference pos ref_add refs_del s) as [r s'] eqn:E.
    apply IsCircularReference_inv in E as [-> Hr]. eauto.
  - destruct (InvalidateCache pos s) as [r s'] eqn:E.
    apply InvalidateCache_inv in E as [Hinv Hpost].
    exists r, s'. split; [done|]. split.
    { destruct r as [[]|e| | |]; try done; [by left|]. destruct Hpost as [-> _]. by right. }
    pose proof (invalidations_placeholders_added ∅ _ _ Hinv) as (Hg & _ & _ & _ & Hc).
    split; [done|]. intros q. specialize (Hc q).
    destruct (cell_at s q) as [c|]; [done|]. destruct Hc as [?|[? _]]; [done|set_solver].
Qed.


(** * [Formula::GetReferencedCells] *)

Lemma unique_copy_after_elem_of (x : Position) (rest : list Position) (p : Position) :
  p ∈ x :: unique_copy_after x rest <-> p ∈ x :: rest.
Proof.
  revert x. induction rest as [|y rest IH]; intros x; simpl; [done|].
  case_decide as E.
  - subst y. rewrite IH. rewrite !elem_of_cons. tauto.
  - rewrite elem_of_cons, IH, !elem_of_cons. tauto.
Qed.

Lemma unique_copy_after_adjacent (x : Position) (rest : list Position) (i : nat)
    (p q : Position) :
  (x :: unique_copy_after x rest) !! i = Some p ->
  (x :: unique_copy_after x rest) !! S i = Some q -> p <> q.
Proof.
  revert x i. induction rest as [|y rest IH]; intros x i; simpl.
  - by destruct i.
  - case_decide as E; [apply IH|].
    destruct i as [|i]; simpl.
    + by intros [= <-] [= <-].
    + apply IH.
Qed.

Lemma unique_copy_after_sorted (R : relation Position) (x : Position)
    (rest : list Position) :
  (forall a b, R a b -> R b a -> a = b) ->
  StronglySorted R (x :: rest) ->
  NoDup (x :: unique_copy_after x rest).
Proof.
  intros Hanti. revert x. induction rest as [|y rest IH]; intros x Hs; simpl.
  - apply NoDup_singleton.
  - apply StronglySorted_cons in Hs as [Hx Hs].
    pose proof Hs as [Hy Hs']%StronglySorted_cons.
    rewrite Forall_forall in Hx, Hy.
    case_decide as E.
    + subst y. by apply IH.
    + apply NoDup_cons. split; [|by apply IH].
      rewrite unique_copy_after_elem_of. intros [->|Hin]%elem_of_cons; [done|].
      apply E. apply Hanti; [apply Hx; by left|by apply Hy].
Qed.

(** X25. [Formula::GetReferencedCells] returns the positions that the
    syntax tree lists, each of them, with no two equal neighbours.  When
    the tree lists them in order (equal positions next to each other, as
    in a sorted list) the result has no position twice; when it does not,
    a position can come twice. *)
Theorem Formula_GetReferencedCells_spec (cells : list Position) :
  (forall p, p ∈ Formula_GetReferencedCells_of cells <-> p ∈ cells) /\
  (forall i p q,
     Formula_GetReferencedCells_of cells !! i = Some p ->
     Formula_GetReferencedCells_of cells !! S i = Some q -> p <> q) /\
  (forall R : relation Position,
     (forall a b, R a b -> R b a -> a = b) ->
     StronglySorted R cells -> NoDup (Formula_GetReferencedCells_of cells)) /\
  (forall p q, p <> q ->
     Formula_GetReferencedCells_of [p; q; p] = [p; q; p]).
Proof.
  unfold Formula_GetReferencedCells_of, unique_copy. split_and!.
  - intros p. destruct cells as [|x rest]; [done|]. apply unique_copy_after_elem_of.
  - intros i p q. destruct cells as [|x rest]; [done|]. apply unique_copy_after_adjacent.
  - intros R Hanti Hs. destruct cells as [|x rest]; [constructor|].
    by apply (unique_copy_after_sorted R).
  - intros p q Hne. simpl. rewrite decide_False by done.
    by rewrite decide_False by done.
Qed.


(** * More on the printable size *)

(** X26. [SheetStorage::Clear()] empties the storage: afterwards [Get]
    finds nothing at any valid position and the printable size is
    [{0, 0}]. *)
Theorem Clear_all_empty {T} `{!ValueInit T} (st : SheetStorage T) :
  exists st',
    Clear_all st = (Ok tt, st') /\
    SheetStorage_wf st' /\
    GetPrintableSize st' = (Ok (mkSize 0 0), st') /\
    forall pos, Get pos st' =
      (if IsValid MAX_ROWS MAX_COLS pos then Ok None
       else Throw InvalidPositionException, st').
Proof.
  exists (mkSheetStorage (mkIndexedStorage ∅ [])). split_and!.
  - done.
  - split; [apply IndexedStorage_wf_empty|]. simpl. intros i r. by rewrite lookup_empty.
  - unfold GetPrintableSize. rewrite bind_eq. cbn [get_state rows_].
    rewrite bind_eq. unfold observe at 1.
    change (mkIndexedStorage (T:=IndexedStorage T) ∅ [])
      with (value_init : IndexedStorage (IndexedStorage T)).
    rewrite (Empty_wf _ (IndexedStorage_wf_empty (T:=IndexedStorage T))).
    cbn [fst]. by rewrite bool_decide_true.
  - intros pos. rewrite Get_eq. unfold lookup_cell. simpl. by rewrite lookup_empty.
Qed.

(** X27. On a sheet that public operations produce, a successful
    [SetCell(pos, text)] never shrinks the printable size, and the size
    afterwards covers [pos]. *)
Theorem SetCell_printable_size (pos : Position) (text : string) (s s' : Sheet) :
  MAX_ROWS <= 2 ^ 31 - 1 -> MAX_COLS <= 2 ^ 31 - 1 ->
  reachable s ->
  SetCell pos text s = (Ok tt, s') ->
  exists sz0 sz,
    Sheet_GetPrintableSize s = (Ok sz0, s) /\
    Sheet_GetPrintableSize s' = (Ok sz, s') /\
    rows sz0 <= rows sz /\ cols sz0 <= cols sz /\
    row pos < rows sz /\ col pos < cols sz.
Proof.
  intros Hmr Hmc Hreach Hrun.
  pose proof (reachable_storage_inv s Hreach) as Hinv.
  pose proof (SetCell_storage_inv _ _ _ _ _ Hinv Hrun I) as (Hwf' & Hsv' & Hnn').
  destruct Hinv as (Hwf & Hsv & Hnn).
  apply SetCell_rec_cells in Hrun as (cell & _ & Hv & Hpos & Hother & _).
  destruct (GetPrintableSize_wf _ Hwf Hsv Hmr Hmc) as (sz0 & Hsz0 & Hbox0 & Hzero0 & Hmax0).
  destruct (GetPrintableSize_wf _ Hwf' Hsv' Hmr Hmc) as (sz & Hsz & Hbox & Hzero & Hmax).
  assert (Hkeep : forall q, is_Some (lookup_cell (cells_ s) q) ->
            is_Some (lookup_cell (cells_ s') q)).
  { intros q Hq. apply cell_at_is_Some; [done|]. apply cell_at_is_Some in Hq; [|done].
    destruct (decide (q = pos)) as [->|Hne]; [by rewrite Hpos|].
    specialize (Hother q Hne). destruct Hq as [c Hc]. rewrite Hc in Hother.
    destruct Hother as (c' & -> & _). eauto. }
  assert (Hat : is_Some (lookup_cell (cells_ s') pos)).
  { apply cell_at_is_Some; [done|]. by rewrite Hpos. }
  destruct (Hbox pos Hat) as [Hr Hc].
  exists sz0, sz. split_and!; try done.
  - unfold Sheet_GetPrintableSize, on_cells, zoom. rewrite Hsz0. by destruct s.
  - unfold Sheet_GetPrintableSize, on_cells, zoom. rewrite Hsz. by destruct s'.
  - destruct (stored_or_empty (cells_ s) Hwf) as [Hnone|Hsome].
    + rewrite (Hzero0 Hnone). simpl. unfold IsValid in Hv.
      apply andb_true_iff in Hv as [Hv%bool_decide_eq_true _]. lia.
    + destruct (Hmax0 Hsome) as [(p1 & H1 & E1) _].
      destruct (Hbox p1 (Hkeep _ H1)) as [? _]. lia.
  - destruct (stored_or_empty (cells_ s) Hwf) as [Hnone|Hsome].
    + rewrite (Hzero0 Hnone). simpl. unfold IsValid in Hv.
      apply andb_true_iff in Hv as [_ Hv%bool_decide_eq_true]. lia.
    + destruct (Hmax0 Hsome) as [_ (p2 & H2 & E2)].
      destruct (Hbox p2 (Hkeep _ H2)) as [_ ?]. lia.
Qed.


(** X30. On a sheet that public operations produce, [ClearCell] never
    grows the printable size. *)
Theorem ClearCell_printable_size (pos : Position) (s s' : Sheet) :
  MAX_ROWS <= 2 ^ 31 - 1 -> MAX_COLS <= 2 ^ 31 - 1 ->
  reachable s ->
  ClearCell pos s = (Ok tt, s') ->
  exists sz0 sz,
    Sheet_GetPrintableSize s = (Ok sz0, s) /\
    Sheet_GetPrintableSize s' = (Ok sz, s') /\
    0 <= rows sz <= rows sz0 /\ 0 <= cols sz <= cols sz0.
Proof.
  intros Hmr Hmc Hreach Hrun.
  pose proof (reachable_storage_inv s Hreach) as Hinv.
  pose proof (ClearCell_storage_inv _ _ _ _ Hinv Hrun I) as (Hwf' & Hsv' & Hnn').
  destruct Hinv as (Hwf & Hsv & Hnn).
  pose proof (ClearCell_cells _ _ _ Hrun) as Hcells.
  destruct (GetPrintableSize_wf _ Hwf Hsv Hmr Hmc) as (sz0 & Hsz0 & Hbox0 & Hzero0 & Hmax0).
  destruct (GetPrintableSize_wf _ Hwf' Hsv' Hmr Hmc) as (sz & Hsz & Hbox & Hzero & Hmax).
  assert (Hkeep : forall q, is_Some (lookup_cell (cells_ s') q) ->
            is_Some (lookup_cell (cells_ s) q)).
  { intros q Hq. apply cell_at_is_Some; [done|]. apply cell_at_is_Some in Hq; [|done].
    rewrite Hcells in Hq. case_decide; [by destruct Hq|done]. }
  exists sz0, sz. split_and!.
  - unfold Sheet_GetPrintableSize, on_cells, zoom. rewrite Hsz0. by destruct s.
  - unfold Sheet_GetPrintableSize, on_cells, zoom. rewrite Hsz. by destruct s'.
  - destruct (stored_or_empty (cells_ s') Hwf') as [Hnone|Hsome].
    + by rewrite (Hzero Hnone).
    + destruct (Hmax Hsome) as [(p1 & H1 & E1) _]. pose proof (Hsv' _ H1) as Hv.
      unfold IsValid in Hv. apply andb_true_iff in Hv as [Hv%bool_decide_eq_true _]. lia.
  - destruct (stored_or_empty (cells_ s') Hwf') as [Hnone|Hsome].
    + rewrite (Hzero Hnone). simpl.
      destruct (stored_or_empty (cells_ s) Hwf) as [Hnone0|Hsome0].
      * by rewrite (Hzero0 Hnone0).
      * destruct (Hmax0 Hsome0) as [(p1 & H1 & E1) _]. pose proof (Hsv _ H1) as Hv.
        unfold IsValid in Hv. apply andb_true_iff in Hv as [Hv%bool_decide_eq_true _]. lia.
    + destruct (Hmax Hsome) as [(p1 & H1 & E1) _].
      destruct (Hbox0 p1 (Hkeep _ H1)) as [? _]. lia.
  - destruct (stored_or_empty (cells_ s') Hwf') as [Hnone|Hsome].
    + by rewrite (Hzero Hnone).
    + destruct (Hmax Hsome) as [_ (p2 & H2 & E2)]. pose proof (Hsv' _ H2) as Hv.
      unfold IsValid in Hv. apply andb_true_iff in Hv as [_ Hv%bool_decide_eq_true]. lia.
  - destruct (stored_or_empty (cells_ s') Hwf') as [Hnone|Hsome].
    + rewrite (Hzero Hnone). simpl.
      destruct (stored_or_empty (cells_ s) Hwf) as [Hnone0|Hsome0].
      * by rewrite (Hzero0 Hnone0).
      * destruct (Hmax0 Hsome0) as [_ (p2 & H2 & E2)]. pose proof (Hsv _ H2) as Hv.
        unfold IsValid in Hv. apply andb_true_iff in Hv as [_ Hv%bool_decide_eq_true]. lia.
    + destruct (Hmax Hsome) as [_ (p2 & H2 & E2)].
      destruct (Hbox0 p2 (Hkeep _ H2)) as [_ ?]. lia.
Qed.

End Engine.

Arguments monostate {Formula}.
Arguments Text {Formula} str.
Arguments FormulaValueImpl {Formula} formula.
Arguments mkCell {Formula FValue} _ _.
Arguments value_ {Formula FValue} _.
Arguments cache_ {Formula FValue} _.
Arguments mkSheet {Formula FValue} _ _.
Arguments cells_ {Formula FValue} _.
Arguments refs_from_ {Formula FValue} _.

(** * The engine on the sample formula language *)

#[global] Instance string_value_init : ValueInit string := EmptyString.

Module SampleSheet.
Import Sample.

Local Open Scope string_scope.

Definition A1 : Position := mkPos 0 0.
Definition B1 : Position := mkPos 0 1.
Definition C1 : Position := mkPos 0 2.
Definition D1 : Position := mkPos 0 3.
Definition E1 : Position := mkPos 0 4.
Definition A2 : Position := mkPos 1 0.
Definition B2 : Position := mkPos 1 1.

(** The sheet type and the public operations, for a build with ([false])
    or without ([true]) assertions. *)
Definition SampleSheet : Type := Sheet Formula FValue.

Definition CreateSheet : SampleSheet := Sheet_new Formula FValue.

Definition Sample_SetCell (NDEBUG : bool) (pos : Position) (text : string)
    : M SampleSheet unit :=
  SetCell NDEBUG MAX_ROWS MAX_COLS Formula FValue ParseFormula GetReferencedCells pos text.

Definition Sample_ClearCell (NDEBUG : bool) (pos : Position) : M SampleSheet unit :=
  ClearCell NDEBUG MAX_ROWS MAX_COLS Formula FValue GetReferencedCells pos.

Definition Sample_GetCell (NDEBUG : bool) (pos : Position)
    : M SampleSheet (option (Cell Formula FValue)) :=
  GetCell NDEBUG MAX_ROWS MAX_COLS Formula FValue pos.

Definition Sample_GetValue (NDEBUG : bool) (fuel : nat) (pos : Position)
    : M SampleSheet (option (CellValue FValue)) :=
  GetValue NDEBUG MAX_ROWS MAX_COLS Formula FValue Evaluate fuel pos.

(** The sheet after a call, whatever the call answered. *)
Definition after {A} (m : M SampleSheet A) (s : SampleSheet) : SampleSheet := (m s).2.

Lemma Sample_parser_refs_valid :
  parser_refs_valid MAX_ROWS MAX_COLS Formula ParseFormula GetReferencedCells.
Proof.
  intros expression f Hparse q Hq. unfold ParseFormula in Hparse.
  apply mapM_Some in Hparse. unfold GetReferencedCells in Hq.
  apply list_elem_of_omap in Hq as (t & Ht & Hq).
  destruct t as [p|n]; [|done]. injection Hq as ->.
  apply list_elem_of_lookup in Ht as [i Hi].
  destruct (Forall2_lookup_r _ _ _ _ _ Hparse Hi) as (tok & _ & Htok).
  unfold parse_term in Htok. destruct (letters_value tok 0) as [letters rest].
  case_bool_decide.
  - by destruct (digits_value tok 0).
  - destruct (digits_value rest 0) as [n|]; [|done].
    destruct (IsValid MAX_ROWS MAX_COLS _) eqn:Hv; [|done]. by injection Htok as <-.
Qed.

(** ** The cycle check on a diamond *)

(** [B1] and [C1] reference [A1], and [D1] references both. *)
Definition diamond : SampleSheet :=
  after (Sample_SetCell false D1 "=B1+C1")
    (after (Sample_SetCell false C1 "=A1")
       (after (Sample_SetCell false B1 "=A1") CreateSheet)).

Definition diamond_rank (p : Position) : nat :=
  if decide (p = A1) then 0 else if decide (p = D1) then 2 else 1.

(** C1, at a failing input.  On the diamond, [SetCell(E1, "=A1")] is
    refused as a circular dependency although the graph with the new edge
    has no cycle: the walk pops [D1] twice, once below [B1] and once below
    [C1].  The three calls that build the diamond all return. *)
Lemma diamond_reported_circular :
  (Sample_SetCell false B1 "=A1" CreateSheet).1 = Ok tt /\
  (Sample_SetCell false C1 "=A1" (after (Sample_SetCell false B1 "=A1") CreateSheet)).1
    = Ok tt /\
  (Sample_SetCell false D1 "=B1+C1"
     (after (Sample_SetCell false C1 "=A1")
        (after (Sample_SetCell false B1 "=A1") CreateSheet))).1 = Ok tt /\
  Sample_SetCell false E1 "=A1" diamond = (Throw CircularDependencyException, diamond) /\
  Sample_SetCell true E1 "=A1" diamond = (Throw CircularDependencyException, diamond) /\
  ~ has_cycle (add_ref E1 A1 (refs_from_ diamond)).
Proof.
  split_and!; try (vm_compute; reflexivity).
  apply (ranked_no_cycle _ diamond_rank). vm_compute. reflexivity.
Qed.

(** A second shape with the same outcome, in a build without assertions:
    [A1] references [B1], [B1] references [C1], and [A1] is rewritten to
    reference [C1] as well.  The walk from [C1] reaches [A1] below [B1]
    and then pops the seed [A1]. *)
Definition chain : SampleSheet :=
  after (Sample_SetCell true A1 "=B1")
    (after (Sample_SetCell true B1 "=C1") CreateSheet).

Definition chain_rank (p : Position) : nat :=
  if decide (p = C1) then 0 else if decide (p = B1) then 1 else 2.

Lemma shortcut_reported_circular :
  Sample_SetCell true A1 "=B1+C1" chain = (Throw CircularDependencyException, chain) /\
  ~ has_cycle (add_ref A1 C1 (refs_from_ chain)).
Proof.
  split; [vm_compute; reflexivity|].
  apply (ranked_no_cycle _ chain_rank). vm_compute. reflexivity.
Qed.

(** ** A cleared cell and the cache of its referrer *)

(** [A1] holds the text 1, [A2] the formula [=A1]; the value of [A2] is
    read once, and then [A1] is cleared. *)
Definition cleared_dependency : SampleSheet :=
  after (Sample_ClearCell false A1)
    (after (Sample_GetValue false 1 A2)
       (after (Sample_SetCell false A2 "=A1")
          (after (Sample_SetCell false A1 "1") CreateSheet))).

(** C3, at a failing input.  After [ClearCell(A1)] the cell [A2], whose
    formula references [A1], still answers the value 1 from its cache and
    the sheet is not written, whereas evaluating its formula on that
    sheet, where [GetCell(A1)] is null, yields 0. *)
Lemma ClearCell_leaves_stale_cache :
  Sample_GetCell false A1 cleared_dependency = (Ok None, cleared_dependency) /\
  Sample_GetValue false 1 A2 cleared_dependency
    = (Ok (Some (CVFormula (inl 1))), cleared_dependency) /\
  (run_evaluation Formula FValue (Sample_GetValue false 0) (Evaluate [TCell A1])
     cleared_dependency).1 = Ok (inl 0).
Proof. split_and!; vm_compute; reflexivity. Qed.

(** ** The order of the checks in [SetCell] *)

(** C6, a counterexample.  At the invalid position with row -1 and a text
    that is no formula, [=)], [SetCell] fails with [FormulaException], not
    with [InvalidPositionException]. *)
Lemma SetCell_invalid_position_syntax_first :
  IsValid MAX_ROWS MAX_COLS (mkPos (-1) 0) = false /\
  ParseFormula ")" = None /\
  Sample_SetCell false (mkPos (-1) 0) "=)" CreateSheet
    = (Throw FormulaException, CreateSheet).
Proof. split_and!; vm_compute; reflexivity. Qed.

Lemma SetCell_invalid_position_witness :
  Sample_SetCell false (mkPos (-1) 0) "=A1" CreateSheet
    = (Throw InvalidPositionException, CreateSheet).
Proof.
  exact (SetCell_invalid_position false MAX_ROWS MAX_COLS Formula FValue ParseFormula
           GetReferencedCells (mkPos (-1) 0) "=A1" CreateSheet eq_refl).
Defined.

(** ** [At] on a constant storage *)

(** The storage of the unit test after [storage[1] = "1"]. *)
Definition storage_1 : IndexedStorage string :=
  (subscript_assign false 1 "1" value_init).2.

(** C7, at a failing input.  On a storage without the index 2, the
    non-const [At(2)] throws and leaves the storage alone, but the const
    [At(2)] returns an empty string and the storage now has the index 2 on
    both of its sides. *)
Lemma At_const_inserts :
  storage_1 = mkIndexedStorage {[1 := "1"]} [1] /\
  At 2 storage_1 = (Throw invalid_argument, storage_1) /\
  At_const false 2 storage_1
    = (Ok "", mkIndexedStorage (<[2 := ""]> {[1 := "1"]}) [1; 2]) /\
  At_const true 2 storage_1
    = (Ok "", mkIndexedStorage (<[2 := ""]> {[1 := "1"]}) [1; 2]).
Proof. split_and!; vm_compute; reflexivity. Qed.

(** ** Writing the same formula twice *)

(** C9, at a failing input.  With assertions compiled in, the second of
    two identical calls [SetCell(B1, "=A1")] trips the assertion that
    [UpdateRefs] makes for a reference that is kept; with [NDEBUG] it
    returns and leaves graph and printable size as they were. *)
Lemma SetCell_twice_trips_assertion :
  (Sample_SetCell false B1 "=A1" CreateSheet).1 = Ok tt /\
  (Sample_SetCell false B1 "=A1" (after (Sample_SetCell false B1 "=A1") CreateSheet)).1
    = Abort /\
  (Sample_SetCell true B1 "=A1" (after (Sample_SetCell true B1 "=A1") CreateSheet)).1
    = Ok tt.
Proof. split_and!; vm_compute; reflexivity. Qed.


(** ** The general theorems at concrete sheets *)

(** [A1] references [A2]; the placeholder at [A2] exists. *)
Definition refers_to_A2 : SampleSheet :=
  after (Sample_SetCell false A1 "=A2") CreateSheet.

Lemma SetCell_failure_atomic_witness :
  (Sample_SetCell false A2 "=A1" refers_to_A2).1 = Throw CircularDependencyException /\
  (Sample_SetCell false A2 "=A1" refers_to_A2).2 = refers_to_A2.
Proof.
  split; [vm_compute; reflexivity|].
  apply (SetCell_failure_atomic false MAX_ROWS MAX_COLS Formula FValue ParseFormula
           GetReferencedCells A2 "=A1" refers_to_A2 _ CircularDependencyException).
  - vm_compute. reflexivity.
  - by right.
Defined.

(** [A1] holds 2 and [A2] holds [=A1+3], whose value 5 is cached. *)
Definition cached_sum : SampleSheet :=
  after (Sample_GetValue false 1 A2)
    (after (Sample_SetCell false A2 "=A1+3")
       (after (Sample_SetCell false A1 "2") CreateSheet)).

Definition edited_dependency : SampleSheet :=
  after (Sample_SetCell false A1 "4") cached_sum.

Lemma SetCell_invalidates_referrers_witness :
  cell_at Formula FValue cached_sum A2
    = Some (mkCell (FormulaValueImpl [TCell A1; TNum 3]) (Some (inl 5))) /\
  cell_at Formula FValue edited_dependency A2
    = Some (mkCell (FormulaValueImpl [TCell A1; TNum 3]) None) /\
  Sample_GetValue false 1 A2 edited_dependency
    = (Ok (Some (CVFormula (inl 7))),
       after (Sample_GetValue false 1 A2) edited_dependency).
Proof.
  split; [vm_compute; reflexivity|].
  split; [vm_compute; reflexivity|].
  destruct (SetCell_invalidates_referrers false MAX_ROWS MAX_COLS Formula FValue
              ParseFormula GetReferencedCells Evaluate A1 "4" cached_sum edited_dependency)
    with (q := A2) (c := mkCell (FormulaValueImpl [TCell A1; TNum 3]) (@None FValue))
    as [_ Heval].
  - vm_compute. reflexivity.
  - apply rtc_once. unfold edge.
    apply (bool_decide_unpack (A2 ∈ refs_to (refs_from_ edited_dependency) A1)).
    vm_compute. exact I.
  - vm_compute. reflexivity.
  - specialize (Heval [TCell A1; TNum 3] 0%nat eq_refl).
    unfold Sample_GetValue, GetValue, sheet_value. rewrite bind_eq.
    replace (GetCell false MAX_ROWS MAX_COLS Formula FValue A2 edited_dependency)
      with (Ok (Some (mkCell (FormulaValueImpl [TCell A1; TNum 3]) (@None FValue))),
            edited_dependency) by (vm_compute; reflexivity).
    rewrite bind_eq, Heval. vm_compute. reflexivity.
Defined.

(** A formula on a fresh sheet, with its placeholder. *)
Definition with_placeholder : SampleSheet :=
  after (Sample_SetCell false B2 "=Z9") CreateSheet.

Lemma with_placeholder_reachable :
  reachable false MAX_ROWS MAX_COLS Formula FValue ParseFormula GetReferencedCells
    Evaluate (fun _ => EmptyString) with_placeholder.
Proof.
  apply rtc_once.
  apply (step_SetCell _ _ _ _ _ _ _ _ _ B2 "=Z9" CreateSheet (Ok tt)); [|exact I].
  vm_compute. reflexivity.
Defined.


(** ** A formula that mentions a position beyond the sheet *)




Lemma printable_size_is_bounding_box_witness :
  Sheet_GetPrintableSize false Formula FValue with_placeholder
    = (Ok (mkSize 9 26), with_placeholder) /\
  exists sz,
    Sheet_GetPrintableSize false Formula FValue with_placeholder = (Ok sz, with_placeholder) /\
    (forall pos, is_Some (cell_at Formula FValue with_placeholder pos) ->
                 row pos < rows sz /\ col pos < cols sz) /\
    ((exists pos, is_Some (cell_at Formula FValue with_placeholder pos)) ->
       (exists pos, is_Some (cell_at Formula FValue with_placeholder pos) /\
                    rows sz = 1 + row pos) /\
       (exists pos, is_Some (cell_at Formula FValue with_placeholder pos) /\
                    cols sz = 1 + col pos)) /\
    (sz = mkSize 0 0 <-> forall pos, cell_at Formula FValue with_placeholder pos = None) /\
    (forall i r, data_ (rows_ (cells_ with_placeholder)) !! i = Some r -> data_ r <> ∅).
Proof.
  split; [vm_compute; reflexivity|].
  apply (printable_size_is_bounding_box false MAX_ROWS MAX_COLS Formula FValue ParseFormula
           GetReferencedCells Evaluate (fun _ => EmptyString) with_placeholder).
  - vm_compute. discriminate.
  - vm_compute. discriminate.
  - exact with_placeholder_reachable.
Defined.

Lemma SetCell_frame_witness :
  exists cell,
    Cell_Set Formula FValue ParseFormula "=Z9" (Cell_new Formula FValue) = (Ok tt, cell) /\
    cell_at Formula FValue with_placeholder B2 = Some cell /\
    (forall q, q <> B2 ->
       match cell_at Formula FValue CreateSheet q with
       | Some c => exists c', cell_at Formula FValue with_placeholder q = Some c' /\
                              value_ c' = value_ c
       | None =>
           cell_at Formula FValue with_placeholder q = None \/
           (q ∈ Cell_GetReferencedCells Formula FValue GetReferencedCells cell /\
            cell_at Formula FValue with_placeholder q = Some (Cell_new Formula FValue))
       end) /\
    (forall q r, r <> B2 ->
       (r ∈ refs_to (refs_from_ with_placeholder) q <->
        r ∈ refs_to (refs_from_ CreateSheet) q)).
Proof.
  apply (SetCell_frame false MAX_ROWS MAX_COLS Formula FValue ParseFormula
           GetReferencedCells B2 "=Z9" CreateSheet with_placeholder).
  vm_compute. reflexivity.
Defined.

(** ** The cycle check at a cycle, and the same call twice *)

Definition refers_to_A2_rank (p : Position) : nat :=
  if decide (p = A2) then 0 else 1.

Lemma SetCell_reports_every_cycle_witness :
  ((Sample_SetCell false A2 "=A1" refers_to_A2).1 = Throw CircularDependencyException /\
   (Sample_SetCell false A2 "=A1" refers_to_A2).2 = refers_to_A2) \/
  ((Sample_SetCell false A2 "=A1" refers_to_A2).1 = Abort /\ false = false).
Proof.
  apply (SetCell_reports_every_cycle false MAX_ROWS MAX_COLS Formula FValue ParseFormula
           GetReferencedCells A2 "=A1" refers_to_A2
           (mkCell (FormulaValueImpl [TCell A1]) None)).
  - vm_compute. reflexivity.
  - vm_compute. reflexivity.
  - apply (ranked_no_cycle _ refers_to_A2_rank). vm_compute. reflexivity.
  - exists A1. apply (tc_l _ A1 A2 A1); [|apply tc_once]; unfold updated_edge.
    + apply (bool_decide_unpack
               (A2 ∈ updated_refs A2
                  (cell_refs Formula FValue GetReferencedCells
                     (cell_at Formula FValue refers_to_A2 A2))
                  (cell_refs Formula FValue GetReferencedCells
                     (Some (mkCell (FormulaValueImpl [TCell A1]) None)))
                  (refs_from_ refers_to_A2) A1)).
      vm_compute. exact I.
    + apply (bool_decide_unpack
               (A1 ∈ updated_refs A2
                  (cell_refs Formula FValue GetReferencedCells
                     (cell_at Formula FValue refers_to_A2 A2))
                  (cell_refs Formula FValue GetReferencedCells
                     (Some (mkCell (FormulaValueImpl [TCell A1]) None)))
                  (refs_from_ refers_to_A2) A2)).
      vm_compute. exact I.
  - apply surjective_pairing.
Defined.

Lemma At_absent_witness : At 2 storage_1 = (Throw invalid_argument, storage_1).
Proof. apply (At_absent storage_1 2). vm_compute. reflexivity. Defined.

Lemma SetCell_outcomes_witness :
  (Sample_SetCell false A2 "=)" with_placeholder).1 = Throw FormulaException /\
  (Cell_Set Formula FValue ParseFormula "=A1" (Cell_new Formula FValue)).1 = Ok tt /\
  IsValid MAX_ROWS MAX_COLS A2 = true.
Proof.
  split.
  - destruct (SetCell_outcomes false MAX_ROWS MAX_COLS Formula FValue ParseFormula
                GetReferencedCells Evaluate (fun _ => EmptyString) A2 "=)" with_placeholder
                (Sample_SetCell false A2 "=)" with_placeholder).1
                (Sample_SetCell false A2 "=)" with_placeholder).2
                Sample_parser_refs_valid with_placeholder_reachable
                (surjective_pairing _)) as ([_ Hrejected] & _).
    apply Hrejected. vm_compute. reflexivity.
  - destruct (SetCell_outcomes false MAX_ROWS MAX_COLS Formula FValue ParseFormula
                GetReferencedCells Evaluate (fun _ => EmptyString) A2 "=A1" with_placeholder
                (Ok tt) (after (Sample_SetCell false A2 "=A1") with_placeholder)
                Sample_parser_refs_valid with_placeholder_reachable)
      as (_ & _ & Hreturned).
    + vm_compute. reflexivity.
    + exact Hreturned.
Defined.

Lemma reference_graph_acyclic_witness :
  acyclic (refs_from_ with_placeholder).
Proof.
  exact (reference_graph_acyclic false MAX_ROWS MAX_COLS Formula FValue ParseFormula
           GetReferencedCells Evaluate (fun _ => EmptyString) with_placeholder
           with_placeholder_reachable).
Defined.

(** [B1] holds [=A1], written in a build without assertions. *)
Definition refers_to_A1 : SampleSheet :=
  after (Sample_SetCell true B1 "=A1") CreateSheet.

Lemma SetCell_twice_without_asserts_witness :
  exists s2 sz,
    Sample_SetCell true B1 "=A1" refers_to_A1 = (Ok tt, s2) /\
    refs_from_ s2 = refs_from_ refers_to_A1 /\
    (forall q, match cell_at Formula FValue refers_to_A1 q with
               | Some c => exists c', cell_at Formula FValue s2 q = Some c' /\
                                      value_ c' = value_ c
               | None => cell_at Formula FValue s2 q = None
               end) /\
    Sheet_GetPrintableSize true Formula FValue refers_to_A1 = (Ok sz, refers_to_A1) /\
    Sheet_GetPrintableSize true Formula FValue s2 = (Ok sz, s2).
Proof.
  apply (SetCell_twice_without_asserts true MAX_ROWS MAX_COLS Formula FValue ParseFormula
           GetReferencedCells Evaluate (fun _ => EmptyString) B1 "=A1" CreateSheet
           refers_to_A1).
  - reflexivity.
  - exact Sample_parser_refs_valid.
  - vm_compute. discriminate.
  - vm_compute. discriminate.
  - apply rtc_refl.
  - vm_compute. reflexivity.
Defined.

End SampleSheet.

(** * The storage classes and the further properties at concrete inputs *)

Module SampleStorage.
Import Sample SampleSheet.
Local Open Scope string_scope.

(** A storage is well formed when its vector is ascending and lists the
    keys of its map. *)
Lemma IndexedStorage_wf_dom {T} (st : IndexedStorage T) :
  StronglySorted Z.lt (indices_ st) ->
  dom (data_ st) = list_to_set (indices_ st) ->
  IndexedStorage_wf st.
Proof.
  intros Hs Hd. split; [done|]. intros i.
  by rewrite <- elem_of_dom, Hd, elem_of_list_to_set.
Qed.

Lemma storage_1_wf : IndexedStorage_wf storage_1.
Proof.
  apply IndexedStorage_wf_dom.
  - vm_compute. repeat constructor.
  - apply (bool_decide_unpack (dom (data_ storage_1) = list_to_set (indices_ storage_1))).
    vm_compute. exact I.
Qed.

(** The storage of the unit test after [storage[1] = "1"; storage[0] = "0"]. *)
Definition storage_01 : IndexedStorage string :=
  (subscript_assign false 0 "0" storage_1).2.

Lemma storage_01_wf : IndexedStorage_wf storage_01.
Proof.
  apply IndexedStorage_wf_dom.
  - vm_compute. repeat constructor.
  - apply (bool_decide_unpack (dom (data_ storage_01) = list_to_set (indices_ storage_01))).
    vm_compute. exact I.
Qed.

Lemma subscript_assign_At_witness :
  exists st',
    subscript_assign false 0 "0" storage_1 = (Ok tt, st') /\
    IndexedStorage_wf st' /\
    At 0 st' = (Ok "0", st') /\
    Count st' 0 = 1 /\
    forall j, j <> 0 -> data_ st' !! j = data_ storage_1 !! j.
Proof. exact (subscript_assign_At false storage_1 0 "0" storage_1_wf). Defined.

Lemma Erase_spec_witness :
  exists st',
    Erase false 1 storage_01 = (Ok tt, st') /\
    IndexedStorage_wf st' /\
    Count st' 1 = 0 /\
    At 1 st' = (Throw invalid_argument, st') /\
    forall j, j <> 1 -> data_ st' !! j = data_ storage_01 !! j.
Proof. exact (Erase_spec false storage_01 1 storage_01_wf). Defined.

Lemma subscript_assign_Erase_witness :
  exists st1,
    subscript_assign false 0 "0" storage_1 = (Ok tt, st1) /\
    Erase false 0 st1 = (Ok tt, storage_1).
Proof.
  apply (subscript_assign_Erase false storage_1 0 "0" storage_1_wf).
  vm_compute. reflexivity.
Defined.


Lemma Size_Empty_Clear_witness :
  IndexedStorage_Size false storage_01 = (Ok 2, storage_01) /\
  Empty false storage_01 = (Ok false, storage_01) /\
  exists st',
    IndexedStorage_Clear storage_01 = (Ok tt, st') /\
    IndexedStorage_wf st' /\
    IndexedStorage_Size false st' = (Ok 0, st') /\
    Empty false st' = (Ok true, st') /\
    forall j, Count st' j = 0.
Proof.
  apply (Size_Empty_Clear false storage_01 storage_01_wf). vm_compute. reflexivity.
Defined.

Lemma range_for_ascending_witness :
  range_for false ret storage_01 = (Ok [(0, "0"); (1, "1")], storage_01) /\
  exists l,
    range_for false ret storage_01 = (Ok l, storage_01) /\
    StronglySorted Z.lt l.*1 /\
    forall i v, (i, v) ∈ l <-> data_ storage_01 !! i = Some v.
Proof.
  split; [vm_compute; reflexivity|].
  exact (range_for_ascending false storage_01 storage_01_wf).
Defined.

Lemma FrontIndex_BackIndex_witness :
  FrontIndex false storage_01 = (Ok 0, storage_01) /\
  BackIndex false storage_01 = (Ok 1, storage_01) /\
  exists lo hi,
    FrontIndex false storage_01 = (Ok lo, storage_01) /\
    BackIndex false storage_01 = (Ok hi, storage_01) /\
    is_Some (data_ storage_01 !! lo) /\ is_Some (data_ storage_01 !! hi) /\
    forall j, is_Some (data_ storage_01 !! j) -> lo <= j <= hi.
Proof.
  split; [vm_compute; reflexivity|]. split; [vm_compute; reflexivity|].
  exact (FrontIndex_BackIndex false storage_01 storage_01_wf).
Defined.

Lemma At_const_absent_witness :
  exists st',
    At_const false 2 storage_1 = (Ok value_init, st') /\
    data_ st' !! 2 = Some value_init /\ st' <> storage_1.
Proof.
  apply (At_const_absent false storage_1 2 storage_1_wf). vm_compute. reflexivity.
Defined.

(** The grid of the sheet with a formula at [B2] and its placeholder. *)
Definition grid : SheetStorage (option (Cell Formula FValue)) := cells_ with_placeholder.

Lemma grid_wf : SheetStorage_wf grid.
Proof.
  exact (proj1 (reachable_storage_inv false MAX_ROWS MAX_COLS Formula FValue ParseFormula
                  GetReferencedCells Evaluate (fun _ => EmptyString) with_placeholder
                  with_placeholder_reachable)).
Qed.

Lemma Set_Get_witness :
  exists st',
    Set_ false MAX_ROWS MAX_COLS A1 (Some (Cell_new Formula FValue)) grid = (Ok tt, st') /\
    SheetStorage_wf st' /\
    Get false MAX_ROWS MAX_COLS A1 st' = (Ok (Some (Some (Cell_new Formula FValue))), st') /\
    (forall q, q <> A1 ->
       Get false MAX_ROWS MAX_COLS q st' = ((Get false MAX_ROWS MAX_COLS q grid).1, st')) /\
    (forall q, (Get false MAX_ROWS MAX_COLS q grid).2 = grid).
Proof.
  apply (Set_Get false MAX_ROWS MAX_COLS grid A1 (Some (Cell_new Formula FValue)) grid_wf).
  vm_compute. reflexivity.
Defined.

Lemma Clear_Get_witness :
  exists st',
    Clear false MAX_ROWS MAX_COLS B2 grid = (Ok tt, st') /\
    SheetStorage_wf st' /\
    Get false MAX_ROWS MAX_COLS B2 st' = (Ok None, st') /\
    (forall q, q <> B2 ->
       Get false MAX_ROWS MAX_COLS q st' = ((Get false MAX_ROWS MAX_COLS q grid).1, st')) /\
    (lookup_cell grid B2 = None -> st' = grid).
Proof.
  apply (Clear_Get false MAX_ROWS MAX_COLS grid B2 grid_wf). vm_compute. reflexivity.
Defined.

Lemma Set_Clear_witness :
  exists st1,
    Set_ false MAX_ROWS MAX_COLS A1 (Some (Cell_new Formula FValue)) grid = (Ok tt, st1) /\
    Clear false MAX_ROWS MAX_COLS A1 st1 = (Ok tt, grid).
Proof.
  apply (Set_Clear false MAX_ROWS MAX_COLS grid A1 (Some (Cell_new Formula FValue)) grid_wf).
  - vm_compute. reflexivity.
  - vm_compute. reflexivity.
Defined.


(** ** Cells and sheets *)


(** A formula cell that holds the cached value 1. *)
Definition cached_one : Cell Formula FValue :=
  mkCell (FormulaValueImpl [TNum 1]) (Some (inl 1)).

Lemma Cell_Set_failure_witness :
  Cell_Set Formula FValue ParseFormula "=)" cached_one = (Throw FormulaException, cached_one) /\
  exists expression,
    "=)" = String FORMULA_SIGN expression /\ expression <> EmptyString /\
    ParseFormula expression = None.
Proof.
  split; [vm_compute; reflexivity|].
  apply (Cell_Set_failure Formula FValue ParseFormula "=)" cached_one
           FormulaException cached_one).
  vm_compute. reflexivity.
Defined.

Lemma Cell_Set_keeps_cache_witness :
  Cell_Set Formula FValue ParseFormula "=2" cached_one
    = (Ok tt, mkCell (FormulaValueImpl [TNum 2]) (Some (inl 1))) /\
  Cell_GetValue false MAX_ROWS MAX_COLS Formula FValue Evaluate 1 A1
    (mkCell (FormulaValueImpl [TNum 2]) (Some (inl 1))) CreateSheet
    = (Ok (CVFormula (inl 1)), CreateSheet).
Proof.
  split; [vm_compute; reflexivity|].
  destruct (Cell_Set_keeps_cache false MAX_ROWS MAX_COLS Formula FValue ParseFormula Evaluate
              "=2" cached_one (mkCell (FormulaValueImpl [TNum 2]) (Some (inl 1))))
    as [_ Hkeep]; [vm_compute; reflexivity|].
  destruct Hkeep as [_ Hget]; [discriminate|].
  by apply (Hget [TNum 2]).
Defined.

(** [A1] holds a text with the escape sign in front. *)
Definition escaped : SampleSheet :=
  after (Sample_SetCell false A1 "'=1") CreateSheet.

Lemma SetCell_then_read_witness :
  exists c,
    Sample_GetCell false A1 escaped = (Ok (Some c), escaped) /\
    Cell_GetText Formula FValue (fun _ => EmptyString) c = "'=1" /\
    Sample_GetValue false 0 A1 escaped = (Ok (Some (CVString "=1")), escaped).
Proof.
  destruct (SetCell_then_read false MAX_ROWS MAX_COLS Formula FValue ParseFormula
              GetReferencedCells Evaluate (fun _ => EmptyString) A1 "'=1" CreateSheet escaped)
    as (c & Hget & _ & Htext & Hvalue); [vm_compute; reflexivity|].
  exists c. split; [exact Hget|]. split; [exact Htext|]. exact (Hvalue 0%nat).
Defined.

Lemma SetCell_materialises_references_witness :
  exists c,
    Sample_GetCell false B2 with_placeholder = (Ok (Some c), with_placeholder) /\
    forall q, q ∈ Cell_GetReferencedCells Formula FValue GetReferencedCells c ->
      exists cq, Sample_GetCell false q with_placeholder = (Ok (Some cq), with_placeholder) /\
                 (cell_at Formula FValue CreateSheet q = None -> q <> B2 ->
                  cq = Cell_new Formula FValue).
Proof.
  apply (SetCell_materialises_references false MAX_ROWS MAX_COLS Formula FValue ParseFormula
           GetReferencedCells Evaluate (fun _ => EmptyString) B2 "=Z9" CreateSheet
           with_placeholder).
  - apply rtc_refl.
  - vm_compute. reflexivity.
Defined.

(** [A1] holds 2 and [A2] holds [=A1+3], not yet evaluated. *)
Definition uncached_sum : SampleSheet :=
  after (Sample_SetCell false A2 "=A1+3")
    (after (Sample_SetCell false A1 "2") CreateSheet).

Lemma GetValue_twice_witness :
  Sample_GetValue false 1 A2 uncached_sum = (Ok (Some (CVFormula (inl 5))), cached_sum) /\
  Sample_GetValue false 0 A2 cached_sum = (Ok (Some (CVFormula (inl 5))), cached_sum).
Proof.
  split; [vm_compute; reflexivity|].
  apply (GetValue_twice false MAX_ROWS MAX_COLS Formula FValue Evaluate 1 0 A2 uncached_sum).
  vm_compute. reflexivity.
Defined.

Lemma GetValue_frame_witness :
  refs_from_ cached_sum = refs_from_ uncached_sum /\
  forall q,
    match cell_at Formula FValue uncached_sum q with
    | Some c => exists c', cell_at Formula FValue cached_sum q = Some c' /\ value_ c' = value_ c
    | None => cell_at Formula FValue cached_sum q = None
    end.
Proof.
  apply (GetValue_frame false MAX_ROWS MAX_COLS Formula FValue Evaluate 1 A2 uncached_sum
           (Ok (Some (CVFormula (inl 5))))).
  vm_compute. reflexivity.
Defined.

(** [A1] holds a text and [B1] a formula. *)
Definition two_cells : SampleSheet :=
  after (Sample_SetCell false B1 "=A1") (after (Sample_SetCell false A1 "7") CreateSheet).

Lemma two_cells_reachable :
  reachable false MAX_ROWS MAX_COLS Formula FValue ParseFormula GetReferencedCells
    Evaluate (fun _ => "A1") two_cells.
Proof.
  eapply rtc_l; [|apply rtc_once].
  - apply (step_SetCell _ _ _ _ _ _ _ _ _ A1 "7" CreateSheet (Ok tt)); [|exact I].
    vm_compute. reflexivity.
  - apply (step_SetCell _ _ _ _ _ _ _ _ _ B1 "=A1" _ (Ok tt)); [|exact I].
    vm_compute. reflexivity.
Qed.

Lemma PrintTexts_spec_witness :
  PrintTexts false MAX_ROWS MAX_COLS Formula FValue (fun _ => "A1") two_cells
    = (Ok [[Some "7"; Some "=A1"]], two_cells) /\
  exists sz,
    Sheet_GetPrintableSize false Formula FValue two_cells = (Ok sz, two_cells) /\
    PrintTexts false MAX_ROWS MAX_COLS Formula FValue (fun _ => "A1") two_cells =
      (Ok ((fun row =>
              (fun col => Cell_GetText Formula FValue (fun _ => "A1")
                            <$> cell_at Formula FValue two_cells (mkPos row col))
                <$> seqZ 0 (cols sz))
             <$> seqZ 0 (rows sz)), two_cells).
Proof.
  split; [vm_compute; reflexivity|].
  apply (PrintTexts_spec false MAX_ROWS MAX_COLS Formula FValue ParseFormula
           GetReferencedCells Evaluate (fun _ => "A1") two_cells).
  - vm_compute. discriminate.
  - vm_compute. discriminate.
  - exact two_cells_reachable.
Defined.


Lemma ClearCell_spec_witness :
  exists s',
    Sample_ClearCell false B1 two_cells = (Ok tt, s') /\
    Sample_GetCell false B1 s' = (Ok None, s') /\
    (forall q, q <> B1 -> cell_at Formula FValue s' q = cell_at Formula FValue two_cells q) /\
    (forall q, refs_to (refs_from_ s') q = refs_to (refs_from_ two_cells) q ∖ {[B1]}) /\
    (cell_at Formula FValue two_cells B1 = None -> s' = two_cells).
Proof.
  exact (ClearCell_spec false MAX_ROWS MAX_COLS Formula FValue ParseFormula
           GetReferencedCells Evaluate (fun _ => "A1") B1 two_cells
           Sample_parser_refs_valid two_cells_reachable).
Defined.

Lemma SetCell_aborts_iff_witness :
  (Sample_SetCell false B1 "=A1+2" two_cells).1 = Abort /\
  ((Sample_SetCell false B1 "=A1+2" two_cells).1 = Abort <->
   exists c q, cell_at Formula FValue two_cells B1 = Some c /\
               q ∈ Cell_GetReferencedCells Formula FValue GetReferencedCells c /\
               q ∈ Cell_GetReferencedCells Formula FValue GetReferencedCells
                     (mkCell (FormulaValueImpl [TCell A1; TNum 2]) None)).
Proof.
  split; [vm_compute; reflexivity|].
  apply (SetCell_aborts_iff false MAX_ROWS MAX_COLS Formula FValue ParseFormula
           GetReferencedCells Evaluate (fun _ => "A1") B1 "=A1+2" two_cells).
  - reflexivity.
  - exact Sample_parser_refs_valid.
  - exact two_cells_reachable.
  - vm_compute. reflexivity.
  - vm_compute. reflexivity.
Defined.

Lemma SetCell_printable_size_witness :
  exists sz0 sz,
    Sheet_GetPrintableSize false Formula FValue CreateSheet = (Ok sz0, CreateSheet) /\
    Sheet_GetPrintableSize false Formula FValue with_placeholder = (Ok sz, with_placeholder) /\
    rows sz0 <= rows sz /\ cols sz0 <= cols sz /\
    row B2 < rows sz /\ col B2 < cols sz.
Proof.
  apply (SetCell_printable_size false MAX_ROWS MAX_COLS Formula FValue ParseFormula
           GetReferencedCells Evaluate (fun _ => EmptyString) B2 "=Z9" CreateSheet
           with_placeholder).
  - vm_compute. discriminate.
  - vm_compute. discriminate.
  - apply rtc_refl.
  - vm_compute. reflexivity.
Defined.

(** The sheet of [cleared_dependency] before [A1] is cleared. *)
Definition cached_dependency : SampleSheet :=
  after (Sample_GetValue false 1 A2)
    (after (Sample_SetCell false A2 "=A1")
       (after (Sample_SetCell false A1 "1") CreateSheet)).

Lemma ClearCell_keeps_referrer_cache_witness :
  Sample_GetValue false 0 A2 cleared_dependency
    = (Ok (Some (CVFormula (inl 1))), cleared_dependency).
Proof.
  apply (ClearCell_keeps_referrer_cache false MAX_ROWS MAX_COLS Formula FValue
           GetReferencedCells Evaluate 0 A1 A2 cached_dependency cleared_dependency
           (mkCell (FormulaValueImpl [TCell A1]) (Some (inl 1))) [TCell A1] (inl 1)).
  - vm_compute. reflexivity.
  - discriminate.
  - vm_compute. reflexivity.
  - vm_compute. reflexivity.
  - reflexivity.
  - reflexivity.
Defined.

(** [B2] and the placeholder at [Z9], with [B2] cleared again. *)
Definition placeholder_only : SampleSheet :=
  after (Sample_ClearCell false B2) with_placeholder.

Lemma ClearCell_printable_size_witness :
  exists sz0 sz,
    Sheet_GetPrintableSize false Formula FValue with_placeholder = (Ok sz0, with_placeholder) /\
    Sheet_GetPrintableSize false Formula FValue placeholder_only = (Ok sz, placeholder_only) /\
    0 <= rows sz <= rows sz0 /\ 0 <= cols sz <= cols sz0.
Proof.
  apply (ClearCell_printable_size false MAX_ROWS MAX_COLS Formula FValue ParseFormula
           GetReferencedCells Evaluate (fun _ => EmptyString) B2 with_placeholder
           placeholder_only).
  - vm_compute. discriminate.
  - vm_compute. discriminate.
  - exact with_placeholder_reachable.
  - vm_compute. reflexivity.
Defined.

End SampleStorage.
